(** * PromptCleaner: the UUID substitution / restoration engine

    A shallow embedding of [src/prompt_cleaner/utils.py], and of the client
    wrapper of [src/prompt_cleaner/cleaner.py] built on it, with the
    properties the specification states and further ones read off the code.

    Modelling choices, fixed here once:
    - a Python [str] is a [text], a list of 8-bit characters; on these the
      regex class [\d] is exactly ['0'..'9'];
    - a Python [int] is a [Z];
    - the identifier -> placeholder [dict] is an insertion-ordered
      association list with unique keys (its order is observable through
      [restore_output]'s reverse-mapping comprehension);
    - message dictionaries are objects in a store ([gmap] from locations to
      [gmap]s), so that copying and in-place update can be told apart;
    - exceptions are explicit: every operation returns an [outcome];
    - the regular expressions the program builds are kept as a small syntax
      tree, and [re.sub] is a left-to-right scan over the subject string.
      Engine limits (memory, the maximal repetition count) are not part of
      the model. *)

From Stdlib Require Import Ascii String ZArith.
From stdpp Require Import base option list strings gmap.

Open Scope Z_scope.

(** ** Text *)

Abbreviation text := (list ascii).

(** A string literal as a [text]. *)
Definition lit (s : string) : text := list_ascii_of_string s.

(** ** Exceptions *)

Inductive exn := ValueError | KeyError.

Inductive outcome (A : Type) :=
  | Returned (a : A)
  | Raised (e : exn).
Arguments Returned {A} a.
Arguments Raised {A} e.

Definition obind {A B} (f : A → outcome B) (o : outcome A) : outcome B :=
  match o with
  | Returned a => f a
  | Raised e => Raised e
  end.

#[global] Instance outcome_ret : MRet outcome := λ A a, Returned a.
#[global] Instance outcome_bind : MBind outcome := λ A B f o, obind f o.

(** [returns o] : the call completes without raising. *)
Definition returns {A} (o : outcome A) : Prop := ∃ a, o = Returned a.

(** ** Characters *)

Definition char_code (c : ascii) : Z := Z.of_nat (nat_of_ascii c).

Definition in_range (lo hi : string) (c : ascii) : bool :=
  match lo, hi with
  | String l _, String h _ => (char_code l <=? char_code c) && (char_code c <=? char_code h)
  | _, _ => false
  end.

(** [\d] *)
Definition is_digit (c : ascii) : bool := in_range "0" "9" c.

(** [[0-9a-fA-F]] *)
Definition is_hex (c : ascii) : bool :=
  in_range "0" "9" c || in_range "a" "f" c || in_range "A" "F" c.

(** ** [str(int)] and [str.zfill] *)

Definition digit_char (d : Z) : ascii := ascii_of_nat (Z.to_nat (48 + d)).

Fixpoint str_digits (fuel : nat) (n : Z) : text :=
  match fuel with
  | O => []
  | S fuel' =>
      if n <? 10 then [digit_char n]
      else str_digits fuel' (n / 10) ++ [digit_char (n mod 10)]
  end.

(** Decimal numeral of a non-negative integer; a number below [2^k] has at
    most [k] digits, so the fuel never runs out. *)
Definition str_nonneg (n : Z) : text := str_digits (S (Z.to_nat (Z.log2 n))) n.

(** [str(n)] *)
Definition str_int (n : Z) : text :=
  if n <? 0 then lit "-" ++ str_nonneg (- n) else str_nonneg n.

Definition is_sign (c : ascii) : bool :=
  bool_decide (c = "+"%char) || bool_decide (c = "-"%char).

(** [s.zfill(width)]: zeros are inserted on the left, after a leading sign,
    until the string is [width] long; a string already that long is returned
    as it is. *)
Definition zfill (s : text) (width : Z) : text :=
  let fill := repeat "0"%char (Z.to_nat (width - Z.of_nat (length s))) in
  match s with
  | c :: s' => if is_sign c then c :: fill ++ s' else fill ++ s
  | [] => fill
  end.

(** ** The identifier -> placeholder dictionary *)

Abbreviation dict := (list (text * text)).

Fixpoint dict_get (d : dict) (k : text) : option text :=
  match d with
  | [] => None
  | (k', v) :: d' => if decide (k' = k) then Some v else dict_get d' k
  end.

(** [k in d] *)
Definition dict_contains (d : dict) (k : text) : bool :=
  match dict_get d k with Some _ => true | None => false end.

(** [d[k]] *)
Definition dict_getitem (d : dict) (k : text) : outcome text :=
  match dict_get d k with
  | Some v => Returned v
  | None => Raised KeyError
  end.

(** [d[k] = v]: an existing key keeps its position, a new one goes last. *)
Fixpoint dict_setitem (d : dict) (k v : text) : dict :=
  match d with
  | [] => [(k, v)]
  | (k', v') :: d' =>
      if decide (k' = k) then (k', v) :: d' else (k', v') :: dict_setitem d' k v
  end.

(** [d.update(other)] *)
Definition dict_update (d other : dict) : dict :=
  fold_left (λ acc kv, dict_setitem acc kv.1 kv.2) other d.

(** [d.copy()]: dictionaries are values here, a copy is the same value. *)
Definition dict_copy (d : dict) : dict := d.

Definition keys (d : dict) : list text := d.*1.
Definition values (d : dict) : list text := d.*2.

(** ** Regular expressions

    Both patterns of the program have the form
    [re.escape(open) ( body ) re.escape(close)] with one capturing group whose
    body is a sequence of literal strings and bounded character classes. *)

Inductive atom :=
  | Lit (s : text)                         (* the string itself *)
  | Class (cls : ascii → bool) (n : nat).  (* [cls]{n} *)

Record regex := {
  re_open : text;
  re_body : list atom;
  re_close : text
}.

(** [match.group(0)] and [match.group(1)] *)
Record Match := { group0 : text; group1 : text }.

Fixpoint match_lit (l s : text) : option text :=
  match l, s with
  | [], _ => Some s
  | a :: l', c :: s' => if decide (a = c) then match_lit l' s' else None
  | _ :: _, [] => None
  end.

Fixpoint match_class (cls : ascii → bool) (n : nat) (s : text) : option (text * text) :=
  match n, s with
  | O, _ => Some ([], s)
  | S n', c :: s' =>
      if cls c then '(m, r) ← match_class cls n' s'; Some (c :: m, r) else None
  | S _, [] => None
  end.

Definition match_atom (a : atom) (s : text) : option (text * text) :=
  match a with
  | Lit l => r ← match_lit l s; Some (l, r)
  | Class cls n => match_class cls n s
  end.

Fixpoint match_atoms (body : list atom) (s : text) : option (text * text) :=
  match body with
  | [] => Some ([], s)
  | a :: body' =>
      '(m1, r1) ← match_atom a s;
      '(m2, r2) ← match_atoms body' r1;
      Some (m1 ++ m2, r2)
  end.

(** The match of [p] anchored at the start of [s], if there is one. *)
Definition re_match (p : regex) (s : text) : option Match :=
  r1 ← match_lit (re_open p) s;
  '(g, r2) ← match_atoms (re_body p) r1;
  _ ← match_lit (re_close p) r2;
  Some {| group0 := re_open p ++ g ++ re_close p; group1 := g |}.

(** *** The scan of [re.sub]

    Non-overlapping matches are found from left to right on the subject
    string; characters between them are copied.  After an empty match the
    search resumes one character further, and an empty match at the very end
    of the string is still found. *)

Inductive token :=
  | Gap (c : ascii)
  | Hit (m : Match).

Fixpoint finditer_from (p : regex) (skip : nat) (s : text) : list token :=
  match skip, s with
  | S k, _ :: s' => finditer_from p k s'
  | S _, [] => []
  | O, [] =>
      match re_match p [] with
      | Some m => [Hit m]
      | None => []
      end
  | O, c :: s' =>
      match re_match p s with
      | Some m =>
          match length (group0 m) with
          | O => Hit m :: Gap c :: finditer_from p 0 s'
          | S k => Hit m :: finditer_from p k s'
          end
      | None => Gap c :: finditer_from p 0 s'
      end
  end.

Definition finditer (p : regex) (s : text) : list token := finditer_from p 0 s.

(** [re.findall]: the group of every match, in order. *)
Definition findall (p : regex) (s : text) : list text :=
  omap (λ t, match t with Hit m => Some (group1 m) | Gap _ => None end) (finditer p s).

Section re_sub.
Context {St : Type}.
(** The replacement callback may update the state it closes over, and may
    raise. *)
Variable repl : St → Match → outcome (text * St).

Fixpoint sub_tokens (st : St) (ts : list token) : outcome (text * St) :=
  match ts with
  | [] => mret ([], st)
  | Gap c :: ts' =>
      '(out, st') ← sub_tokens st ts';
      mret (c :: out, st')
  | Hit m :: ts' =>
      '(r, st1) ← repl st m;
      '(out, st') ← sub_tokens st1 ts';
      mret (r ++ out, st')
  end.

(** [re.sub(pattern, repl, string)] *)
Definition re_sub (p : regex) (st : St) (s : text) : outcome (text * St) :=
  sub_tokens st (finditer p s).
End re_sub.

(** ** [uuid.UUID(hex)] of the standard library

    The [urn:] and [uuid:] prefixes, surrounding braces and hyphens are
    removed; exactly 32 characters must remain, and they are read as a
    base-16 integer.  Of [int(hex, 16)] the model reads plain hexadecimal
    digits. *)

Fixpoint remove_all_from (old : text) (skip : nat) (s : text) : text :=
  match skip, s with
  | S k, _ :: s' => remove_all_from old k s'
  | S _, [] => []
  | O, [] => []
  | O, c :: s' =>
      match match_lit old s, length old with
      | Some _, S k => remove_all_from old k s'
      | _, _ => c :: remove_all_from old 0 s'
      end
  end.

(** [s.replace(old, "")] for a non-empty [old] *)
Definition str_remove (s old : text) : text := remove_all_from old 0 s.

Definition is_brace (c : ascii) : bool :=
  bool_decide (c = "{"%char) || bool_decide (c = "}"%char).

Fixpoint lstrip (cls : ascii → bool) (s : text) : text :=
  match s with
  | c :: s' => if cls c then lstrip cls s' else s
  | [] => []
  end.

(** [s.strip(chars)] *)
Definition strip (cls : ascii → bool) (s : text) : text :=
  reverse (lstrip cls (reverse (lstrip cls s))).

Definition hex_value (c : ascii) : option Z :=
  if in_range "0" "9" c then Some (char_code c - 48)
  else if in_range "a" "f" c then Some (char_code c - 87)
  else if in_range "A" "F" c then Some (char_code c - 55)
  else None.

Fixpoint int_hex_acc (acc : Z) (s : text) : outcome Z :=
  match s with
  | [] => Returned acc
  | c :: s' =>
      match hex_value c with
      | Some d => int_hex_acc (16 * acc + d) s'
      | None => Raised ValueError
      end
  end.

(** [int(s, 16)] *)
Definition int_hex (s : text) : outcome Z :=
  match s with
  | [] => Raised ValueError
  | _ => int_hex_acc 0 s
  end.

Definition uuid_UUID (hex : text) : outcome Z :=
  let hex := str_remove (str_remove hex (lit "urn:")) (lit "uuid:") in
  let hex := filter (λ c, c ≠ "-"%char) (strip is_brace hex) in
  if bool_decide (length hex ≠ 32%nat) then Raised ValueError
  else int_hex hex.

(** ** [class UUIDReplacer] *)

Record UUIDReplacer := {
  sep : text;
  nr_digits : Z;
  uuid_mapping : dict;
  counter : Z;
  close_sep : text;
  pattern : regex
}.

(** The table [{'[': ']', '(': ')', '{': '}', '<': '>'}.get(sep, sep)] *)
Definition closing (sep : text) : text :=
  if decide (sep = lit "[") then lit "]"
  else if decide (sep = lit "(") then lit ")"
  else if decide (sep = lit "{") then lit "}"
  else if decide (sep = lit "<") then lit ">"
  else sep.

(** [[0-9a-fA-F]{8}-[0-9a-fA-F]{4}-[0-9a-fA-F]{4}-[0-9a-fA-F]{4}-[0-9a-fA-F]{12}] *)
Definition uuid_pattern : list atom :=
  [Class is_hex 8; Lit (lit "-"); Class is_hex 4; Lit (lit "-");
   Class is_hex 4; Lit (lit "-"); Class is_hex 4; Lit (lit "-");
   Class is_hex 12].

(** [UUIDReplacer.__init__] *)
Definition UUIDReplacer_init (sep : text) (nr_digits : Z) : outcome UUIDReplacer :=
  let close_sep := closing sep in
  mret {| sep := sep;
          nr_digits := nr_digits;
          uuid_mapping := [];
          counter := 0;
          close_sep := close_sep;
          pattern := {| re_open := sep; re_body := uuid_pattern; re_close := close_sep |} |}.

Definition set_counter (self : UUIDReplacer) (n : Z) : UUIDReplacer :=
  {| sep := sep self; nr_digits := nr_digits self; uuid_mapping := uuid_mapping self;
     counter := n; close_sep := close_sep self; pattern := pattern self |}.

Definition set_uuid_mapping (self : UUIDReplacer) (d : dict) : UUIDReplacer :=
  {| sep := sep self; nr_digits := nr_digits self; uuid_mapping := d;
     counter := counter self; close_sep := close_sep self; pattern := pattern self |}.

(** [UUIDReplacer._generate_replacement] *)
Definition _generate_replacement (self : UUIDReplacer) : text * UUIDReplacer :=
  let replacement := zfill (str_int (counter self)) (nr_digits self) in
  (replacement, set_counter self (counter self + 1)).

(** [UUIDReplacer._is_valid_uuid]: [ValueError] is caught, anything else
    propagates. *)
Definition _is_valid_uuid (uuid_str : text) : outcome bool :=
  match uuid_UUID uuid_str with
  | Returned _ => Returned true
  | Raised ValueError => Returned false
  | Raised e => Raised e
  end.

(** The callback [replace_match] of [replace_uuids] *)
Definition replace_match (self : UUIDReplacer) (m : Match) : outcome (text * UUIDReplacer) :=
  let uuid_str := group1 m in
  valid ← _is_valid_uuid uuid_str;
  if negb valid then mret (group0 m, self)
  else
    '(replacement, self) ←
      (if dict_contains (uuid_mapping self) uuid_str then
         replacement ← dict_getitem (uuid_mapping self) uuid_str;
         mret (replacement, self)
       else
         let '(replacement, self) := _generate_replacement self in
         mret (replacement,
               set_uuid_mapping self (dict_setitem (uuid_mapping self) uuid_str replacement)));
    mret (sep self ++ replacement ++ close_sep self, self).

(** [UUIDReplacer.replace_uuids]: the modified text, a copy of the mapping,
    and the replacer after the call. *)
Definition replace_uuids (self : UUIDReplacer) (s : text)
    : outcome (text * dict * UUIDReplacer) :=
  '(modified_text, self) ← re_sub replace_match (pattern self) self s;
  mret (modified_text, dict_copy (uuid_mapping self), self).

(** [UUIDReplacer.reset] *)
Definition reset (self : UUIDReplacer) : UUIDReplacer :=
  set_counter (set_uuid_mapping self []) 0.

(** ** [clean_prompt] *)

Definition clean_prompt (prompt sep : text) (nr_digits : Z) : outcome (text * dict) :=
  replacer ← UUIDReplacer_init sep nr_digits;
  '(cleaned_prompt, mapping, _) ← replace_uuids replacer prompt;
  mret (cleaned_prompt, mapping).

(** ** [restore_output] *)

(** The group [\d{nr_digits}]: for a negative [nr_digits] the braces do not
    form a repetition and stand for themselves after a single [\d]. *)
Definition digit_group (nr_digits : Z) : list atom :=
  if 0 <=? nr_digits then [Class is_digit (Z.to_nat nr_digits)]
  else [Class is_digit 1; Lit (lit "{" ++ str_int nr_digits ++ lit "}")].

(** [{v: k for k, v in mapping.items()}] *)
Definition reverse_dict (mapping : dict) : dict :=
  fold_left (λ acc kv, dict_setitem acc kv.2 kv.1) mapping [].

(** The callback [restore_match]; it has no state of its own. *)
Definition restore_match (sep close_sep : text) (reverse_mapping : dict)
    (_ : unit) (m : Match) : outcome (text * unit) :=
  let digit_str := group1 m in
  if dict_contains reverse_mapping digit_str then
    uuid_str ← dict_getitem reverse_mapping digit_str;
    mret (sep ++ uuid_str ++ close_sep, ())
  else mret (group0 m, ()).

Definition restore_output (output : text) (mapping : dict) (sep : text) (nr_digits : Z)
    : outcome text :=
  let close_sep := closing sep in
  let reverse_mapping := reverse_dict mapping in
  let digit_pattern :=
    {| re_open := sep; re_body := digit_group nr_digits; re_close := close_sep |} in
  '(restored_output, _) ←
    re_sub (restore_match sep close_sep reverse_mapping) digit_pattern () output;
  mret restored_output.

(** ** [process_messages] *)

(** What a field of a message may hold.  Lists are held by value: the
    program never updates one in place. *)
#[warnings="-register-all"]
Inductive value :=
  | VStr (s : text)
  | VNone
  | VInt (n : Z)
  | VList (l : list value).

(** Message dictionaries are mutable objects.  The heap maps the location of
    every live dictionary to its fields, and a new object gets a location
    that is not in use.  A location that is not in the heap reads as the
    empty dictionary; what is proved about message contents is stated for
    lists of live locations. *)
Abbreviation loc := positive.
Abbreviation message := (gmap text value).
Abbreviation heap := (gmap loc message).

(** [d.copy()] of a dictionary object: a new object with the same fields. *)
Definition heap_copy (h : heap) (l : loc) : loc * heap :=
  let l' := fresh (dom h) in
  (l', <[l' := h !!! l]> h).

(** [d[k] = v] on a dictionary object. *)
Definition heap_setitem (h : heap) (l : loc) (k : text) (v : value) : heap :=
  <[l := <[k := v]> (h !!! l)]> h.

(** [d[k]] on a dictionary object. *)
Definition heap_getitem (h : heap) (l : loc) (k : text) : outcome value :=
  match (h !!! l) !! k with
  | Some v => Returned v
  | None => Raised KeyError
  end.

(** The local variables of the loop. *)
Record batch := {
  b_heap : heap;
  b_replacer : UUIDReplacer;
  b_processed : list loc;
  b_mappings : dict
}.

(** One iteration of the loop over [messages]. *)
Definition process_message (st : batch) (message : loc) : outcome batch :=
  let '(processed_message, h) := heap_copy (b_heap st) message in
  has_str ←
    (if bool_decide (is_Some ((h !!! message) !! lit "content")) then
       c ← heap_getitem h message (lit "content");
       mret (match c with VStr s => Some s | _ => None end)
     else mret None);
  match has_str with
  | Some content =>
      '(processed_content, mappings, replacer) ← replace_uuids (b_replacer st) content;
      let h := heap_setitem h processed_message (lit "content") (VStr processed_content) in
      mret {| b_heap := h; b_replacer := replacer;
              b_processed := b_processed st ++ [processed_message];
              b_mappings := dict_update (b_mappings st) mappings |}
  | None =>
      mret {| b_heap := h; b_replacer := b_replacer st;
              b_processed := b_processed st ++ [processed_message];
              b_mappings := b_mappings st |}
  end.

Fixpoint for_each {A S} (body : S → A → outcome S) (st : S) (l : list A) : outcome S :=
  match l with
  | [] => mret st
  | x :: l' => st' ← body st x; for_each body st' l'
  end.

Definition process_messages (h : heap) (messages : list loc) (sep : text) (nr_digits : Z)
    : outcome (heap * list loc * dict) :=
  replacer ← UUIDReplacer_init sep nr_digits;
  st ← for_each process_message
         {| b_heap := h; b_replacer := replacer; b_processed := []; b_mappings := [] |}
         messages;
  mret (b_heap st, b_processed st, b_mappings st).

(** ** [cleaner.py]: the wrapper around the chat client

    The wrapped client and the responses of its [chat.completions.create]
    are left abstract.  The keyword arguments of a call are its messages,
    when the keyword ['messages'] is given (a list of message dictionaries,
    as [process_messages] takes it), and the other keywords.  Cleaner
    clients are mutable objects shared between the context manager and its
    user, so they live in a store of their own.  The delegation of other
    attributes to the wrapped client ([__getattr__]) is not modelled. *)

Record kwargs := {
  kw_messages : option (list loc);
  kw_others : gmap text value
}.

(** [processed_kwargs['messages'] = processed_messages] *)
Definition set_messages (kw : kwargs) (messages : list loc) : kwargs :=
  {| kw_messages := Some messages; kw_others := kw_others kw |}.

Section cleaner.
Context {Client Response : Type}.

(** [client.chat.completions.create] of the wrapped client; it
    reads the messages it is given and may raise. *)
Variable chat_completions_create : Client → heap → kwargs → outcome Response.

(** [class PromptCleanerClient] *)
Record PromptCleanerClient := {
  pcc_client : Client;
  pcc_sep : text;
  pcc_nr_digits : Z;
  pcc_uuid_mappings : dict
}.

(** [PromptCleanerClient.__init__] *)
Definition PromptCleanerClient_init (client : Client) (sep : text) (nr_digits : Z)
    : PromptCleanerClient :=
  {| pcc_client := client; pcc_sep := sep; pcc_nr_digits := nr_digits;
     pcc_uuid_mappings := [] |}.

Definition set_pcc_uuid_mappings (self : PromptCleanerClient) (d : dict)
    : PromptCleanerClient :=
  {| pcc_client := pcc_client self; pcc_sep := pcc_sep self;
     pcc_nr_digits := pcc_nr_digits self; pcc_uuid_mappings := d |}.

(** [PromptCleanerClient._process_chat_completion_kwargs]: the processed
    keyword arguments, the client and the heap after the call. *)
Definition _process_chat_completion_kwargs (self : PromptCleanerClient) (h : heap)
    (kw : kwargs) : outcome (kwargs * PromptCleanerClient * heap) :=
  let processed_kwargs := kw in
  match kw_messages kw with
  | Some messages =>
      '(h, processed_messages, mappings) ←
        process_messages h messages (pcc_sep self) (pcc_nr_digits self);
      let processed_kwargs := set_messages processed_kwargs processed_messages in
      let self := set_pcc_uuid_mappings self (dict_update (pcc_uuid_mappings self) mappings) in
      mret (processed_kwargs, self, h)
  | None => mret (processed_kwargs, self, h)
  end.

(** The store of cleaner clients. *)
Definition clients : Type := gmap loc PromptCleanerClient.

(** [class ChatCompletionsWrapper] and [class CompletionsWrapper]: each holds
    the cleaner client it was made for (and the wrapped client's completions
    object, which is reached through the cleaner client here). *)
Record ChatCompletionsWrapper := { ccw_cleaner_client : loc }.
Record CompletionsWrapper := { cw_cleaner_client : loc }.

(** [PromptCleanerClient.chat] *)
Definition chat (self : loc) : ChatCompletionsWrapper := {| ccw_cleaner_client := self |}.

(** [ChatCompletionsWrapper.completions] *)
Definition completions (self : ChatCompletionsWrapper) : CompletionsWrapper :=
  {| cw_cleaner_client := ccw_cleaner_client self |}.

(** [CompletionsWrapper.create]: the stores after the call, and what the
    call returns or raises.  The cleaner client is updated before the wrapped
    client is called.  A wrapper is made from a cleaner client of the store,
    so the last case, a wrapper without its cleaner client, does not arise. *)
Definition create (self : CompletionsWrapper) (cs : clients) (h : heap) (kw : kwargs)
    : clients * heap * outcome Response :=
  match cs !! cw_cleaner_client self with
  | Some cleaner_client =>
      match _process_chat_completion_kwargs cleaner_client h kw with
      | Returned (processed_kwargs, cleaner_client, h) =>
          (<[cw_cleaner_client self := cleaner_client]> cs, h,
           chat_completions_create (pcc_client cleaner_client) h processed_kwargs)
      | Raised e => (cs, h, Raised e)
      end
  | None => (cs, h, Raised KeyError)
  end.

(** [class prompt_cleaner], the context manager *)
Record prompt_cleaner := {
  pc_original_client : Client;
  pc_sep : text;
  pc_nr_digits : Z;
  pc_cleaner_client : option loc
}.

(** [prompt_cleaner.__init__] *)
Definition prompt_cleaner_init (client : Client) (sep : text) (nr_digits : Z) : prompt_cleaner :=
  {| pc_original_client := client; pc_sep := sep; pc_nr_digits := nr_digits;
     pc_cleaner_client := None |}.

(** [prompt_cleaner.__enter__]: a new cleaner client is made, kept, and
    handed out. *)
Definition __enter__ (self : prompt_cleaner) (cs : clients) : loc * prompt_cleaner * clients :=
  let c := fresh (dom cs) in
  (c,
   {| pc_original_client := pc_original_client self; pc_sep := pc_sep self;
      pc_nr_digits := pc_nr_digits self; pc_cleaner_client := Some c |},
   <[c := PromptCleanerClient_init (pc_original_client self) (pc_sep self) (pc_nr_digits self)]> cs).

(** [prompt_cleaner.__exit__]: [pass] *)
Definition __exit__ (self : prompt_cleaner) : prompt_cleaner := self.

(** [prompt_cleaner.get_uuid_mappings] *)
Definition get_uuid_mappings (self : prompt_cleaner) (cs : clients) : dict :=
  match pc_cleaner_client self with
  | Some c =>
      match cs !! c with
      | Some cleaner_client => dict_copy (pcc_uuid_mappings cleaner_client)
      | None => []
      end
  | None => []
  end.
End cleaner.

Arguments PromptCleanerClient : clear implicits.
Arguments prompt_cleaner : clear implicits.
Arguments clients : clear implicits.

(** * Notions used to state the properties *)

(** The number a string of decimal digits denotes (leading zeros allowed). *)
Fixpoint dec_value_acc (acc : Z) (s : text) : Z :=
  match s with
  | [] => acc
  | c :: s' => dec_value_acc (10 * acc + (char_code c - 48)) s'
  end.

Definition dec_value (s : text) : Z := dec_value_acc 0 s.

(** [n] hexadecimal digits. *)
Definition hex_run (n : nat) (s : text) : Prop :=
  length s = n ∧ Forall (λ c, is_hex c = true) s.

(** The 8-4-4-4-12 layout of hexadecimal digits. *)
Definition uuid_shaped (u : text) : Prop :=
  ∃ a b c d e,
    u = a ++ lit "-" ++ b ++ lit "-" ++ c ++ lit "-" ++ d ++ lit "-" ++ e ∧
    hex_run 8 a ∧ hex_run 4 b ∧ hex_run 4 c ∧ hex_run 4 d ∧ hex_run 12 e.

(** [n] decimal digits. *)
Definition digit_run (n : nat) (s : text) : Prop :=
  length s = n ∧ Forall (λ c, is_digit c = true) s.

(** The body of a pattern matches the whole of [g]. *)
Definition accepts (body : list atom) (g : text) : Prop :=
  match_atoms body g = Some (g, []).

(** The match object of a group [g] between the delimiters of [p]. *)
Definition span_of (p : regex) (g : text) : Match :=
  {| group0 := re_open p ++ g ++ re_close p; group1 := g |}.

(** No match of [p] begins inside [pre] when [pre] is followed by [rest]. *)
Definition quiet (p : regex) (pre rest : text) : Prop :=
  ∀ i, (i < length pre)%nat → re_match p (drop i pre ++ rest) = None.

(** The part of the subject string a token stands for. *)
Definition raw (t : token) : text :=
  match t with
  | Gap c => [c]
  | Hit m => group0 m
  end.

(** [uuid.UUID] accepts the string. *)
Definition valid_uuid (s : text) : bool :=
  match uuid_UUID s with
  | Returned _ => true
  | Raised _ => false
  end.

(** The placeholder of ordinal [n] at width [w]: ["n".zfill(w)]. *)
Definition placeholder (w : Z) (n : Z) : text := zfill (str_int n) w.

(** The mapping that gives the identifiers of [ids] the placeholders of the
    ordinals [k], [k+1], ... in turn. *)
Fixpoint assign_from (w : Z) (k : Z) (ids : list text) : dict :=
  match ids with
  | [] => []
  | u :: ids' => (u, placeholder w k) :: assign_from w (k + 1) ids'
  end.

Definition assign (w : Z) (ids : list text) : dict := assign_from w 0 ids.

(** The distinct elements of a list, in the order of their first
    occurrence. *)
Definition first_seen_from (acc ids : list text) : list text :=
  fold_left (λ acc u, if decide (u ∈ acc) then acc else acc ++ [u]) ids acc.

Definition first_seen (ids : list text) : list text := first_seen_from [] ids.

(** The identifiers a scan hands to [replace_match] and that are valid, in
    order. *)
Definition seen (ts : list token) : list text :=
  omap (λ t, match t with
             | Hit m => if valid_uuid (group1 m) then Some (group1 m) else None
             | Gap _ => None
             end) ts.

(** What a token becomes under a given mapping. *)
Definition render_token (self : UUIDReplacer) (t : token) : text :=
  match t with
  | Gap c => [c]
  | Hit m =>
      if valid_uuid (group1 m) then
        match dict_get (uuid_mapping self) (group1 m) with
        | Some p => sep self ++ p ++ close_sep self
        | None => group0 m
        end
      else group0 m
  end.

Definition render (self : UUIDReplacer) (ts : list token) : text :=
  mjoin (render_token self <$> ts).

(** The replacer after it has met the valid identifier [u]. *)
Definition note (self : UUIDReplacer) (u : text) : UUIDReplacer :=
  if dict_contains (uuid_mapping self) u then self
  else
    set_uuid_mapping (set_counter self (counter self + 1))
      (uuid_mapping self ++ [(u, placeholder (nr_digits self) (counter self))]).

(** The replacer built by [UUIDReplacer(sep, w)] after it has assigned
    placeholders to [ids], in that order. *)
Definition state_of (sep : text) (w : Z) (ids : list text) : UUIDReplacer :=
  {| sep := sep; nr_digits := w; uuid_mapping := assign w ids;
     counter := Z.of_nat (length ids); close_sep := closing sep;
     pattern := {| re_open := sep; re_body := uuid_pattern; re_close := closing sep |} |}.

(** A sequence of [replace_uuids] calls on one instance. *)
Fixpoint replace_each (self : UUIDReplacer) (texts : list text)
    : outcome (list text * UUIDReplacer) :=
  match texts with
  | [] => mret ([], self)
  | s :: texts' =>
      '(out, _, self) ← replace_uuids self s;
      '(outs, self) ← replace_each self texts';
      mret (out :: outs, self)
  end.

(** [str.lower] and [str.upper], on the unaccented letters. *)
Definition to_lower (c : ascii) : ascii :=
  if in_range "A" "Z" c then ascii_of_nat (nat_of_ascii c + 32) else c.

Definition to_upper (c : ascii) : ascii :=
  if in_range "a" "z" c then ascii_of_nat (nat_of_ascii c - 32) else c.

Definition lower (s : text) : text := to_lower <$> s.
Definition upper (s : text) : text := to_upper <$> s.

(** A decidable test that no match of [p] begins anywhere in [s]. *)
Definition match_free (p : regex) (s : text) : bool :=
  forallb (λ i, match re_match p (drop i s) with None => true | Some _ => false end)
    (seq 0 (S (length s))).

(** The pattern [restore_output] scans for. *)
Definition digit_pattern (sep : text) (nr_digits : Z) : regex :=
  {| re_open := sep; re_body := digit_group nr_digits; re_close := closing sep |}.

(** The identifier [restore_output] puts back for the digits [d]: the last
    key of the mapping, in insertion order, whose value is [d]. *)
Definition identifier_of (mapping : dict) (d : text) : option text :=
  fst <$> last (filter (λ kv, kv.2 = d) mapping).

(** What a token becomes when the mapping is applied backwards. *)
Definition restore_token (sep : text) (mapping : dict) (t : token) : text :=
  match t with
  | Gap c => [c]
  | Hit m =>
      match identifier_of mapping (group1 m) with
      | Some u => sep ++ u ++ closing sep
      | None => group0 m
      end
  end.

(** A text a downstream process has built: stretches of other text, and
    slots that stand for an identifier of the mapping. *)
Inductive seg :=
  | Other (s : text)
  | Slot (u : text).

(** The text with each slot holding the placeholder of its identifier,
    between the delimiters. *)
Definition downstream (sep : text) (mapping : dict) (segs : list seg) : text :=
  mjoin ((λ x, match x with
               | Other s => s
               | Slot u => sep ++ default [] (dict_get mapping u) ++ closing sep
               end) <$> segs).

(** The text with each slot holding its identifier, between the
    delimiters. *)
Definition restored (sep : text) (segs : list seg) : text :=
  mjoin ((λ x, match x with
               | Other s => s
               | Slot u => sep ++ u ++ closing sep
               end) <$> segs).

(** The slots are identifiers of the mapping, and the delimited placeholders
    of the text are exactly its slots: no match of [p] begins inside a
    stretch of other text. *)
Fixpoint built_from (p : regex) (sep : text) (mapping : dict) (segs : list seg) : Prop :=
  match segs with
  | [] => True
  | Other s :: segs' =>
      quiet p s (downstream sep mapping segs') ∧ built_from p sep mapping segs'
  | Slot u :: segs' => u ∈ keys mapping ∧ built_from p sep mapping segs'
  end.

(** Eleven distinct identifiers, each between brackets. *)
Definition eleven_ids : text :=
  lit "[00000000-0000-0000-0000-000000000000][00000000-0000-0000-0000-000000000001][00000000-0000-0000-0000-000000000002][00000000-0000-0000-0000-000000000003][00000000-0000-0000-0000-000000000004][00000000-0000-0000-0000-000000000005][00000000-0000-0000-0000-000000000006][00000000-0000-0000-0000-000000000007][00000000-0000-0000-0000-000000000008][00000000-0000-0000-0000-000000000009][00000000-0000-0000-0000-00000000000a]".

(** A decidable test of [quiet]. *)
Definition quiet_check (p : regex) (pre rest : text) : bool :=
  forallb (λ i, match re_match p (drop i pre ++ rest) with None => true | Some _ => false end)
    (seq 0 (length pre)).

(** The string content of a message, when it has one. *)
Definition content_of (d : message) : option text :=
  match d !! lit "content" with
  | Some (VStr s) => Some s
  | _ => None
  end.

(** The string contents of the messages of a batch, in order. *)
Definition contents (h : heap) (messages : list loc) : list text :=
  omap (λ l, content_of (h !!! l)) messages.

(** A message whose string content, if it has one, is rendered under the
    mapping of [self]; nothing else is touched. *)
Definition transform (self : UUIDReplacer) (d : message) : message :=
  match content_of d with
  | Some s => <[lit "content" := VStr (render self (finditer (pattern self) s))]> d
  | None => d
  end.

(** One iteration of the loop of [process_messages], as a function. *)
Definition step (st : batch) (l : loc) : batch :=
  let l' := fresh (dom (b_heap st)) in
  let d := b_heap st !!! l in
  match content_of d with
  | Some s =>
      let r := fold_left note (seen (finditer (pattern (b_replacer st)) s)) (b_replacer st) in
      {| b_heap :=
           <[l' := <[lit "content" := VStr (render r (finditer (pattern (b_replacer st)) s))]> d]>
             (b_heap st);
         b_replacer := r;
         b_processed := b_processed st ++ [l'];
         b_mappings := dict_update (b_mappings st) (uuid_mapping r) |}
  | None =>
      {| b_heap := <[l' := d]> (b_heap st);
         b_replacer := b_replacer st;
         b_processed := b_processed st ++ [l'];
         b_mappings := b_mappings st |}
  end.

(** The four separators of the closing table. *)
Definition bracket (sep : text) : Prop :=
  sep = lit "[" ∨ sep = lit "(" ∨ sep = lit "{" ∨ sep = lit "<".

(** Every match of [p] begins with the character [c], and [c] occurs nowhere
    else in it. *)
Definition led_by (p : regex) (c : ascii) : Prop :=
  ∀ s m, re_match p s = Some m → ∃ tl, group0 m = c :: tl ∧ c ∉ tl.


(** Sample data for the client wrapper: two messages, the keyword arguments
    of a call for the first, for the second and for both, and a wrapped
    client whose call always raises. *)
Definition sample_heap : heap :=
  <[1%positive := <[lit "role" := VStr (lit "user")]>
      (<[lit "content" := VStr (lit "Hello [550e8400-e29b-41d4-a716-446655440000]")]> ∅)]>
    (<[2%positive := <[lit "role" := VStr (lit "user")]>
         (<[lit "content" := VStr (lit "Order [6ba7b810-9dad-11d1-80b4-00c04fd430c8]")]> ∅)]>
       ∅).

Definition sample_kwargs (messages : list loc) : kwargs :=
  {| kw_messages := Some messages;
     kw_others := <[lit "model" := VStr (lit "gpt-3.5-turbo")]> ∅ |}.

Definition failing_create (_ : unit) (_ : heap) (_ : kwargs) : outcome unit :=
  Raised ValueError.

(** * Properties *)

(** ** The outcome monad *)

Lemma bind_Returned {A B} (f : A → outcome B) (a : A) : (Returned a ≫= f) = f a.
Proof. reflexivity. Qed.

Lemma bind_mret {A B} (f : A → outcome B) (a : A) : (mret a ≫= f) = f a.
Proof. reflexivity. Qed.

Lemma bind_Raised {A B} (f : A → outcome B) (e : exn) : (Raised e ≫= f) = Raised e.
Proof. reflexivity. Qed.

Lemma returns_Returned {A} (a : A) : returns (Returned a).
Proof. by exists a. Qed.

#[global] Hint Resolve returns_Returned : core.

(** ** Decimal numerals *)

Section decimal.
Implicit Types (n acc : Z) (fuel w : nat) (s : text).

Lemma char_code_digit_char d : 0 <= d < 10 → char_code (digit_char d) = 48 + d.
Proof.
  intros Hd. unfold char_code, digit_char.
  rewrite nat_ascii_embedding; lia.
Qed.

Lemma is_digit_code c : is_digit c = true ↔ 48 <= char_code c <= 57.
Proof.
  unfold is_digit, in_range. change (char_code "0") with 48.
  change (char_code "9") with 57.
  rewrite andb_true_iff, !Z.leb_le. done.
Qed.

Lemma is_digit_digit_char d : 0 <= d < 10 → is_digit (digit_char d) = true.
Proof. intros. apply is_digit_code. rewrite char_code_digit_char; lia. Qed.

Lemma dec_value_acc_snoc acc s c :
  dec_value_acc acc (s ++ [c]) = 10 * dec_value_acc acc s + (char_code c - 48).
Proof. revert acc. induction s as [|a s IH]; intros acc; simpl; [done | apply IH]. Qed.

Lemma dec_value_acc_zeros k s : dec_value_acc 0 (repeat "0"%char k ++ s) = dec_value_acc 0 s.
Proof. induction k as [|k IH]; simpl; [done | apply IH]. Qed.

Lemma str_digits_nonempty fuel n : str_digits (S fuel) n ≠ [].
Proof. simpl. destruct (n <? 10); [done | by destruct (str_digits fuel (n / 10))]. Qed.

Lemma str_digits_all_digits fuel n : 0 <= n → Forall (λ c, is_digit c = true) (str_digits fuel n).
Proof.
  revert n. induction fuel as [|fuel IH]; intros n Hn; simpl; [constructor |].
  destruct (Z.ltb_spec n 10).
  - repeat constructor. apply is_digit_digit_char. lia.
  - apply Forall_app. split.
    + apply IH. apply Z.div_pos; lia.
    + repeat constructor. apply is_digit_digit_char. apply Z.mod_pos_bound. lia.
Qed.

Lemma str_digits_value fuel n :
  0 <= n < 2 ^ Z.of_nat fuel → dec_value (str_digits fuel n) = n.
Proof.
  revert n. induction fuel as [|fuel IH]; intros n Hn.
  - change (2 ^ Z.of_nat 0) with 1 in Hn. unfold dec_value. simpl. lia.
  - simpl. destruct (Z.ltb_spec n 10).
    + unfold dec_value. simpl. rewrite char_code_digit_char; lia.
    + unfold dec_value. rewrite dec_value_acc_snoc.
      change (dec_value_acc 0 ?s) with (dec_value s). rewrite IH.
      * rewrite char_code_digit_char by (apply Z.mod_pos_bound; lia).
        pose proof (Z.div_mod n 10). lia.
      * rewrite Nat2Z.inj_succ, Z.pow_succ_r in Hn by lia.
        split; [apply Z.div_pos; lia |].
        apply Z.div_lt_upper_bound; lia.
Qed.

(** The numeral has at most [w] digits exactly when the number is below
    [10^w]. *)
Lemma str_digits_length fuel n w :
  0 <= n < 2 ^ Z.of_nat fuel →
  (length (str_digits fuel n) ≤ S w)%nat ↔ n < 10 ^ Z.of_nat (S w).
Proof.
  revert n w. induction fuel as [|fuel IH]; intros n w Hn.
  - change (2 ^ Z.of_nat 0) with 1 in Hn. simpl length.
    assert (0 < 10 ^ Z.of_nat (S w)) by (apply Z.pow_pos_nonneg; lia). lia.
  - simpl str_digits. destruct (Z.ltb_spec n 10) as [Hlt|Hge].
    + simpl. split; [intros _ | lia].
      rewrite Nat2Z.inj_succ, Z.pow_succ_r by lia.
      assert (0 < 10 ^ Z.of_nat w) by (apply Z.pow_pos_nonneg; lia). lia.
    + rewrite length_app. simpl.
      assert (Hdiv : 0 <= n / 10 < 2 ^ Z.of_nat fuel).
      { rewrite Nat2Z.inj_succ, Z.pow_succ_r in Hn by lia.
        split; [apply Z.div_pos; lia | apply Z.div_lt_upper_bound; lia]. }
      destruct w as [|w].
      * change (10 ^ Z.of_nat 1) with 10.
        destruct fuel as [|fuel]; [change (2 ^ Z.of_nat 0) with 1 in Hdiv; lia |].
        pose proof (str_digits_nonempty fuel (n / 10)).
        destruct (str_digits (S fuel) (n / 10)); [done | simpl; lia].
      * specialize (IH (n / 10) w Hdiv).
        rewrite (Nat2Z.inj_succ (S w)), Z.pow_succ_r by lia.
        split; intros H.
        -- assert (n / 10 < 10 ^ Z.of_nat (S w)) by (apply IH; lia).
           pose proof (Z.div_mod n 10). pose proof (Z.mod_pos_bound n 10). lia.
        -- assert (n / 10 < 10 ^ Z.of_nat (S w)) by (apply Z.div_lt_upper_bound; lia).
           apply IH in H0. lia.
Qed.

Lemma str_nonneg_fuel n : 0 <= n → 0 <= n < 2 ^ Z.of_nat (S (Z.to_nat (Z.log2 n))).
Proof.
  intros Hn. split; [done |].
  rewrite Nat2Z.inj_succ, Z2Nat.id by apply Z.log2_nonneg.
  destruct (decide (n = 0)) as [->|]; [done |].
  apply Z.log2_spec. lia.
Qed.

Lemma str_int_nonneg n : 0 <= n → str_int n = str_nonneg n.
Proof. intros. unfold str_int. destruct (Z.ltb_spec n 0); [lia | done]. Qed.

Lemma str_int_value n : 0 <= n → dec_value (str_int n) = n.
Proof.
  intros. rewrite str_int_nonneg by done.
  apply str_digits_value, str_nonneg_fuel. done.
Qed.

Lemma str_int_all_digits n : 0 <= n → Forall (λ c, is_digit c = true) (str_int n).
Proof. intros. rewrite str_int_nonneg by done. by apply str_digits_all_digits. Qed.

Lemma str_int_nonempty n : str_int n ≠ [].
Proof.
  unfold str_int. destruct (n <? 0); [done |]. apply str_digits_nonempty.
Qed.

Lemma str_int_length n w :
  0 <= n → (length (str_int n) ≤ S w)%nat ↔ n < 10 ^ Z.of_nat (S w).
Proof.
  intros. rewrite str_int_nonneg by done.
  apply str_digits_length, str_nonneg_fuel. done.
Qed.

Lemma digit_not_sign c : is_digit c = true → is_sign c = false.
Proof.
  intros Hc%is_digit_code. unfold is_sign.
  apply orb_false_iff. split; apply bool_decide_eq_false; intros ->;
    vm_compute in Hc; destruct Hc as [H1 H2]; by (apply H1 || apply H2).
Qed.

(** On the numeral of a non-negative number [zfill] only adds zeros in
    front. *)
Lemma zfill_str_int n width :
  0 <= n →
  zfill (str_int n) width
  = repeat "0"%char (Z.to_nat (width - Z.of_nat (length (str_int n)))) ++ str_int n.
Proof.
  intros Hn. unfold zfill.
  pose proof (str_int_all_digits n Hn) as Hd.
  pose proof (str_int_nonempty n) as Hne.
  destruct (str_int n) as [|c s]; [done |].
  apply Forall_cons in Hd as [Hc _].
  by rewrite (digit_not_sign c Hc).
Qed.

Lemma zfill_str_int_value n width : 0 <= n → dec_value (zfill (str_int n) width) = n.
Proof.
  intros Hn. rewrite zfill_str_int by done. unfold dec_value.
  rewrite dec_value_acc_zeros. by apply str_int_value.
Qed.

Lemma zfill_str_int_inj n n' width :
  0 <= n → 0 <= n' → zfill (str_int n) width = zfill (str_int n') width → n = n'.
Proof.
  intros Hn Hn' Heq. apply (f_equal dec_value) in Heq.
  by rewrite !zfill_str_int_value in Heq.
Qed.

Lemma zfill_str_int_length n width :
  0 <= n →
  Z.of_nat (length (zfill (str_int n) width))
  = Z.max width (Z.of_nat (length (str_int n))).
Proof.
  intros. rewrite zfill_str_int by done.
  rewrite length_app, repeat_length. lia.
Qed.

Lemma zfill_str_int_all_digits n width :
  0 <= n → Forall (λ c, is_digit c = true) (zfill (str_int n) width).
Proof.
  intros. rewrite zfill_str_int by done. apply Forall_app. split.
  - apply Forall_forall. intros c Hc%list_elem_of_In%repeat_spec. by subst.
  - by apply str_int_all_digits.
Qed.

(** Below [10^width] the placeholder is exactly [width] characters long. *)
Lemma zfill_str_int_fits n width :
  0 <= n < 10 ^ width → 1 <= width →
  length (zfill (str_int n) width) = Z.to_nat width.
Proof.
  intros Hn Hw.
  assert (Hlen : (length (str_int n) ≤ S (Z.to_nat (width - 1)))%nat).
  { apply str_int_length; [lia |].
    rewrite Nat2Z.inj_succ, Z2Nat.id by lia. replace (Z.succ (width - 1)) with width by lia.
    lia. }
  pose proof (zfill_str_int_length n width ltac:(lia)). lia.
Qed.

(** From [10^width] on it is wider. *)
Lemma zfill_str_int_wider n width :
  0 <= width → 10 ^ width <= n →
  width < Z.of_nat (length (zfill (str_int n) width)).
Proof.
  intros Hw Hn.
  assert (0 <= n) by (pose proof (Z.pow_pos_nonneg 10 width); lia).
  rewrite zfill_str_int_length by done.
  destruct (decide (width = 0)) as [->|].
  { pose proof (str_int_nonempty n). destruct (str_int n); [done | simpl; lia]. }
  assert (¬ (length (str_int n) ≤ S (Z.to_nat (width - 1)))%nat).
  { rewrite str_int_length by lia.
    rewrite Nat2Z.inj_succ, Z2Nat.id by lia. replace (Z.succ (width - 1)) with width by lia.
    lia. }
  lia.
Qed.
End decimal.

(** ** Matching *)

Section matching.
Implicit Types (l s r g : text) (p : regex) (body : list atom).

Lemma match_lit_spec l s r : match_lit l s = Some r ↔ s = l ++ r.
Proof.
  revert s. induction l as [|a l IH]; intros s; simpl.
  - split; [by intros [= ->] | by intros ->].
  - destruct s as [|c s]; [done |].
    destruct (decide (a = c)) as [->|Hne].
    + rewrite IH. split; [by intros -> | by intros [= ->]].
    + split; [done | by intros [= -> _]].
Qed.

Lemma match_lit_app l r : match_lit l (l ++ r) = Some r.
Proof. by apply match_lit_spec. Qed.

Lemma match_class_sound cls n s m r :
  match_class cls n s = Some (m, r) →
  s = m ++ r ∧ length m = n ∧ Forall (λ c, cls c = true) m.
Proof.
  revert s m r. induction n as [|n IH]; intros s m r; simpl.
  - intros [= <- <-]. by repeat split.
  - destruct s as [|c s]; [done |].
    destruct (cls c) eqn:Hc; [|done].
    destruct (match_class cls n s) as [[m' r']|] eqn:Hm; simpl; [|done].
    intros [= <- <-]. apply IH in Hm as (-> & <- & Hall).
    split; [done |]. split; [done | by constructor].
Qed.

Lemma match_class_complete cls m r :
  Forall (λ c, cls c = true) m → match_class cls (length m) (m ++ r) = Some (m, r).
Proof.
  induction 1 as [|c m Hc _ IH]; simpl; [done |].
  by rewrite Hc, IH.
Qed.

Lemma match_class_spec cls n s m r :
  match_class cls n s = Some (m, r)
  ↔ s = m ++ r ∧ length m = n ∧ Forall (λ c, cls c = true) m.
Proof.
  split; [apply match_class_sound |].
  intros (-> & <- & Hall). by apply match_class_complete.
Qed.

Lemma match_atom_spec a s m r :
  match_atom a s = Some (m, r) →
  s = m ++ r ∧ ∀ r', match_atom a (m ++ r') = Some (m, r').
Proof.
  destruct a as [l|cls n]; simpl.
  - destruct (match_lit l s) as [r0|] eqn:Hl; simpl; [|done].
    intros [= <- <-]. apply match_lit_spec in Hl as ->.
    split; [done |]. intros r'. by rewrite match_lit_app.
  - intros (-> & Hlen & Hall)%match_class_spec. split; [done |].
    intros r'. by apply match_class_spec.
Qed.

Lemma match_atoms_spec body s g r :
  match_atoms body s = Some (g, r) →
  s = g ++ r ∧ ∀ r', match_atoms body (g ++ r') = Some (g, r').
Proof.
  revert s g. induction body as [|a body IH]; intros s g; simpl.
  - intros [= <- <-]. done.
  - destruct (match_atom a s) as [[m1 r1]|] eqn:Ha; simpl; [|done].
    destruct (match_atoms body r1) as [[m2 r2]|] eqn:Hb; simpl; [|done].
    intros [= <- <-].
    apply match_atom_spec in Ha as [-> Ha].
    apply IH in Hb as [-> Hb].
    split; [by rewrite <- app_assoc |].
    intros r'. rewrite <- app_assoc, Ha. simpl. by rewrite Hb.
Qed.

Lemma match_atoms_accepts body s g r :
  match_atoms body s = Some (g, r) ↔ s = g ++ r ∧ accepts body g.
Proof.
  unfold accepts. split.
  - intros [-> H]%match_atoms_spec. split; [done |].
    specialize (H []). by rewrite app_nil_r in H.
  - intros [-> [_ H]%match_atoms_spec]. apply H.
Qed.

(** A match at the start of [s] is an accepted group between the two
    delimiters. *)
Lemma re_match_spec p s m :
  re_match p s = Some m
  ↔ ∃ g r, s = re_open p ++ g ++ re_close p ++ r ∧ accepts (re_body p) g ∧ m = span_of p g.
Proof.
  unfold re_match. split.
  - destruct (match_lit (re_open p) s) as [r1|] eqn:H1; simpl; [|done].
    destruct (match_atoms (re_body p) r1) as [[g r2]|] eqn:H2; simpl; [|done].
    destruct (match_lit (re_close p) r2) as [r3|] eqn:H3; simpl; [|done].
    intros [= <-].
    apply match_lit_spec in H1 as ->. apply match_atoms_accepts in H2 as [-> ?].
    apply match_lit_spec in H3 as ->. by exists g, r3.
  - intros (g & r & -> & Hacc & ->).
    rewrite match_lit_app. simpl.
    assert (match_atoms (re_body p) (g ++ re_close p ++ r) = Some (g, re_close p ++ r)) as ->
      by (by apply match_atoms_accepts).
    simpl. by rewrite match_lit_app.
Qed.

Lemma re_match_span p g r :
  accepts (re_body p) g → re_match p (re_open p ++ g ++ re_close p ++ r) = Some (span_of p g).
Proof. intros. apply re_match_spec. by exists g, r. Qed.

Lemma re_match_prefix p s m : re_match p s = Some m → ∃ r, s = group0 m ++ r.
Proof.
  intros (g & r & -> & _ & ->)%re_match_spec. exists r. simpl.
  by rewrite <- !app_assoc.
Qed.
End matching.

(** ** The shapes the two patterns accept *)

Lemma accepts_nil g : accepts [] g ↔ g = [].
Proof. unfold accepts. simpl. split; [by intros [= ->] | by intros ->]. Qed.

Lemma accepts_cons a body g :
  accepts (a :: body) g
  ↔ ∃ m g', g = m ++ g' ∧ match_atom a (m ++ g') = Some (m, g') ∧ accepts body g'.
Proof.
  unfold accepts. simpl. split.
  - destruct (match_atom a g) as [[m1 r1]|] eqn:Ha; simpl; [|done].
    destruct (match_atoms body r1) as [[m2 r2]|] eqn:Hb; simpl; [|done].
    intros [= Hg ->].
    apply match_atom_spec in Ha as [-> Ha].
    apply match_atoms_accepts in Hb as [-> Hb]. rewrite app_nil_r in *.
    exists m1, m2. by rewrite Ha.
  - intros (m & g' & -> & -> & Hb). simpl. by rewrite Hb.
Qed.

Lemma accepts_cons_class cls n body g :
  accepts (Class cls n :: body) g
  ↔ ∃ m g', g = m ++ g' ∧ (length m = n ∧ Forall (λ c, cls c = true) m) ∧ accepts body g'.
Proof.
  rewrite accepts_cons. simpl.
  split; intros (m & g' & -> & H & Hb); exists m, g'.
  - apply match_class_spec in H as (_ & ? & ?). done.
  - destruct H as [<- H]. by rewrite match_class_complete.
Qed.

Lemma accepts_cons_lit l body g :
  accepts (Lit l :: body) g ↔ ∃ g', g = l ++ g' ∧ accepts body g'.
Proof.
  rewrite accepts_cons. simpl. split.
  - intros (m & g' & -> & H & Hb).
    destruct (match_lit l (m ++ g')) as [r|] eqn:Hl; simplify_eq/=. by exists g'.
  - intros (g' & -> & Hb). exists l, g'. by rewrite match_lit_app.
Qed.

Lemma accepts_uuid_pattern g : accepts uuid_pattern g ↔ uuid_shaped g.
Proof.
  unfold uuid_shaped, hex_run, uuid_pattern. split.
  - intros (a & g1 & -> & Ha & (g2 & -> & (b & g3 & -> & Hb & (g4 & -> &
      (c & g5 & -> & Hc & (g6 & -> & (d & g7 & -> & Hd & (g8 & -> &
      (e & g9 & -> & He & ->%accepts_nil)%accepts_cons_class
      )%accepts_cons_lit)%accepts_cons_class
      )%accepts_cons_lit)%accepts_cons_class
      )%accepts_cons_lit)%accepts_cons_class
      )%accepts_cons_lit)%accepts_cons_class.
    exists a, b, c, d, e. by rewrite app_nil_r.
  - intros (a & b & c & d & e & -> & Ha & Hb & Hc & Hd & He).
    apply accepts_cons_class. exists a, (lit "-" ++ b ++ lit "-" ++ c ++ lit "-" ++ d ++ lit "-" ++ e).
    split; [done |]. split; [done |].
    apply accepts_cons_lit. eexists. split; [done |].
    apply accepts_cons_class. eexists b, _. split; [done |]. split; [done |].
    apply accepts_cons_lit. eexists. split; [done |].
    apply accepts_cons_class. eexists c, _. split; [done |]. split; [done |].
    apply accepts_cons_lit. eexists. split; [done |].
    apply accepts_cons_class. eexists d, _. split; [done |]. split; [done |].
    apply accepts_cons_lit. eexists. split; [done |].
    apply accepts_cons_class. exists e, []. split; [by rewrite app_nil_r |]. split; [done |].
    by apply accepts_nil.
Qed.

Lemma accepts_digit_group n d :
  0 <= n → accepts (digit_group n) d ↔ digit_run (Z.to_nat n) d.
Proof.
  intros Hn. unfold digit_group, digit_run.
  destruct (Z.leb_spec 0 n); [|lia].
  rewrite accepts_cons_class. split.
  - intros (m & g' & -> & Hm & ->%accepts_nil). by rewrite app_nil_r.
  - intros Hd. exists d, []. rewrite app_nil_r. split; [done |]. split; [done |].
    by apply accepts_nil.
Qed.

(** ** The scan *)

Section scan.
Variable p : regex.
Implicit Types (s pre rest post g : text) (k : nat) (m : Match).

Lemma finditer_from_skip k l s :
  length l = k → finditer_from p k (l ++ s) = finditer_from p 0 s.
Proof.
  revert k. induction l as [|c l IH]; intros k <-; simpl; [done |].
  by apply IH.
Qed.

Lemma finditer_nil : re_match p [] = None → finditer p [] = [].
Proof. unfold finditer. simpl. by intros ->. Qed.

Lemma quiet_cons c pre rest :
  quiet p (c :: pre) rest → re_match p (c :: pre ++ rest) = None ∧ quiet p pre rest.
Proof.
  intros H. split.
  - apply (H 0%nat). simpl. lia.
  - intros i Hi. apply (H (S i)). simpl. lia.
Qed.

(** A stretch in which no match begins is copied character by
    character. *)
Lemma finditer_quiet pre rest :
  quiet p pre rest → finditer p (pre ++ rest) = (Gap <$> pre) ++ finditer p rest.
Proof.
  unfold finditer. induction pre as [|c pre IH]; intros Hq; [done |].
  apply quiet_cons in Hq as [Hc Hq]. simpl. rewrite Hc.
  f_equal. by apply IH.
Qed.

(** A non-empty span at the head of the string is the next match, and the
    scan resumes right after it. *)
Lemma finditer_hit g post :
  accepts (re_body p) g → re_open p ++ g ++ re_close p ≠ [] →
  finditer p (re_open p ++ g ++ re_close p ++ post)
  = Hit (span_of p g) :: finditer p post.
Proof.
  intros Hacc Hne. unfold finditer.
  pose proof (re_match_span p g post Hacc) as Hm.
  replace (re_open p ++ g ++ re_close p ++ post)
    with ((re_open p ++ g ++ re_close p) ++ post) in * by (by rewrite <- !app_assoc).
  destruct (re_open p ++ g ++ re_close p) as [|c l] eqn:Hspan; [done |].
  simpl in *. rewrite Hm. simpl. rewrite Hspan. simpl.
  f_equal. by apply finditer_from_skip.
Qed.

Lemma finditer_from_raw k s : mjoin (raw <$> finditer_from p k s) = drop k s.
Proof.
  revert k. induction s as [|c s IH]; intros k.
  - destruct k; simpl; [|done].
    destruct (re_match p []) as [m|] eqn:Hm; simpl; [|done].
    apply re_match_prefix in Hm as [r Hr].
    symmetry in Hr. apply app_eq_nil in Hr as [-> _]. done.
  - destruct k as [|k]; simpl; [|apply IH].
    destruct (re_match p (c :: s)) as [m|] eqn:Hm; simpl.
    + apply re_match_prefix in Hm as [r Hr].
      destruct (group0 m) as [|c' l] eqn:Hg; simpl in *; rewrite Hg;
        change (list_fmap _ _ raw ?l) with (raw <$> l); rewrite IH.
      * done.
      * simplify_eq/=. f_equal. by rewrite drop_app_length.
    + by rewrite IH.
Qed.

(** The tokens spell out the subject string. *)
Lemma finditer_raw s : mjoin (raw <$> finditer p s) = s.
Proof. apply (finditer_from_raw 0). Qed.

Lemma finditer_from_hits k s m :
  Hit m ∈ finditer_from p k s → ∃ g, accepts (re_body p) g ∧ m = span_of p g.
Proof.
  revert k. induction s as [|c s IH]; intros k.
  - destruct k; simpl; [|by intros ?%elem_of_nil].
    destruct (re_match p []) as [m'|] eqn:Hm; [|by intros ?%elem_of_nil].
    intros [= ->]%list_elem_of_singleton.
    apply re_match_spec in Hm as (g & r & _ & ? & ?). eauto.
  - destruct k as [|k]; simpl; [|apply IH].
    destruct (re_match p (c :: s)) as [m'|] eqn:Hm.
    + apply re_match_spec in Hm as (g & r & _ & ? & ?).
      destruct (length (group0 m')).
      * intros [[= ->]|[?|?]%elem_of_cons]%elem_of_cons; eauto; done.
      * intros [[= ->]|?]%elem_of_cons; eauto.
    + intros [?|?]%elem_of_cons; [done | eauto].
Qed.

Lemma finditer_hits s m :
  Hit m ∈ finditer p s → ∃ g, accepts (re_body p) g ∧ m = span_of p g.
Proof. apply finditer_from_hits. Qed.

(** Where no match begins at all, nothing is found. *)
Lemma finditer_no_match s :
  (∀ i, (i ≤ length s)%nat → re_match p (drop i s) = None) →
  finditer p s = Gap <$> s.
Proof.
  intros H.
  rewrite <- (app_nil_r s) at 1. rewrite finditer_quiet.
  - rewrite finditer_nil; [by rewrite app_nil_r |].
    specialize (H (length s)). rewrite drop_all in H. apply H. lia.
  - intros i Hi. rewrite app_nil_r. apply H. lia.
Qed.
End scan.

(** *** Patterns whose matches cannot overlap *)

Section led_by.
Variables (p : regex) (c0 : ascii).
Hypothesis Hled : led_by p c0.
Implicit Types (s x : text) (m : Match).

Lemma re_match_app_l x s m : re_match p x = Some m → re_match p (x ++ s) = Some m.
Proof.
  intros (g & r & -> & Hacc & ->)%re_match_spec.
  rewrite <- !app_assoc. by apply re_match_span.
Qed.

Lemma re_match_app_inv x s m :
  re_match p (x ++ s) = Some m → (length (group0 m) ≤ length x)%nat → re_match p x = Some m.
Proof.
  intros (g & r & Heq & Hacc & ->)%re_match_spec Hlen. simpl in Hlen.
  assert (x = (re_open p ++ g ++ re_close p) ++ drop (length (re_open p ++ g ++ re_close p)) x)
    as ->.
  { apply (f_equal (take (length x))) in Heq as Hx.
    rewrite take_app_length in Hx.
    replace (re_open p ++ g ++ re_close p ++ r)
      with ((re_open p ++ g ++ re_close p) ++ r) in Hx by (by rewrite <- !app_assoc).
    rewrite <- (take_drop (length (re_open p ++ g ++ re_close p)) x) at 1.
    f_equal. rewrite Hx.
    rewrite take_take, Nat.min_l by done. by rewrite take_app_length. }
  rewrite <- !app_assoc. by apply re_match_span.
Qed.

(** A match that begins before an occurrence of the leading character ends
    before it. *)
Lemma re_match_before_lead x s m :
  x ≠ [] → re_match p (x ++ c0 :: s) = Some m → (length (group0 m) ≤ length x)%nat.
Proof.
  intros Hx Hm.
  destruct (Hled _ _ Hm) as (tl & Hg & Htl).
  apply re_match_prefix in Hm as [r Hr].
  destruct (decide (length (group0 m) ≤ length x)%nat) as [|Hlong]; [done |].
  destruct Htl.
  assert ((x ++ c0 :: s) !! length x = Some c0) as Hc by apply list_lookup_middle, eq_refl.
  rewrite Hr, lookup_app_l, Hg in Hc by lia.
  destruct x as [|c x]; [done |]. simpl in Hc.
  by eapply list_elem_of_lookup_2.
Qed.

(** The scan of a string splits at every occurrence of the leading
    character. *)
Lemma finditer_from_app_lead k pre s :
  re_match p [] = None → (k ≤ length pre)%nat →
  finditer_from p k (pre ++ c0 :: s) = finditer_from p k pre ++ finditer p (c0 :: s).
Proof.
  intros Hnil. revert k. induction pre as [|c pre IH]; intros k Hk.
  - assert (k = 0%nat) as -> by (simpl in Hk; lia). simpl finditer_from at 2.
    by rewrite Hnil.
  - destruct k as [|k]; [|simpl in *; apply IH; lia].
    cbn [finditer_from app].
    destruct (re_match p (c :: pre ++ c0 :: s)) as [m|] eqn:Hm.
    + assert (length (group0 m) ≤ length (c :: pre))%nat as Hlen
        by (by apply (re_match_before_lead (c :: pre) s m)).
      rewrite (re_match_app_inv (c :: pre) (c0 :: s) m Hm Hlen).
      destruct (length (group0 m)) as [|j].
      * simpl. do 2 f_equal. apply IH. lia.
      * simpl. f_equal. apply IH. simpl in Hlen. lia.
    + destruct (re_match p (c :: pre)) as [m|] eqn:Hm'.
      * apply (re_match_app_l _ (c0 :: s)) in Hm'. simpl in Hm'. congruence.
      * simpl. f_equal. apply IH. lia.
Qed.

Lemma finditer_app_lead pre s :
  re_match p [] = None →
  finditer p (pre ++ c0 :: s) = finditer p pre ++ finditer p (c0 :: s).
Proof. intros. apply finditer_from_app_lead; [done | lia]. Qed.
End led_by.

(** ** Dictionaries *)

Section dict.
Implicit Types (d : dict) (k v : text).

Lemma dict_contains_spec d k : dict_contains d k = true ↔ is_Some (dict_get d k).
Proof.
  unfold dict_contains. destruct (dict_get d k); split; done.
Qed.

Lemma dict_contains_false d k : dict_contains d k = false ↔ dict_get d k = None.
Proof. unfold dict_contains. by destruct (dict_get d k). Qed.

Lemma dict_getitem_Some d k v : dict_get d k = Some v → dict_getitem d k = Returned v.
Proof. unfold dict_getitem. by intros ->. Qed.

Lemma dict_get_app d d' k :
  dict_get (d ++ d') k = match dict_get d k with Some v => Some v | None => dict_get d' k end.
Proof.
  induction d as [|[k' v'] d IH]; simpl; [by destruct (dict_get d' k) |].
  by destruct (decide (k' = k)).
Qed.

Lemma dict_get_keys d k : is_Some (dict_get d k) ↔ k ∈ keys d.
Proof.
  unfold keys. induction d as [|[k' v'] d IH]; simpl.
  - split; [by intros [? ?] | by intros ?%elem_of_nil].
  - destruct (decide (k' = k)) as [->|Hne].
    + split; [intros _; by left | by eexists].
    + rewrite IH. split; [by right |].
      intros [?|?]%elem_of_cons; [congruence | done].
Qed.

Lemma dict_get_None_keys d k : dict_get d k = None ↔ k ∉ keys d.
Proof. rewrite <- dict_get_keys, eq_None_not_Some. done. Qed.

Lemma dict_get_elem_of d k v : dict_get d k = Some v → (k, v) ∈ d.
Proof.
  induction d as [|[k' v'] d IH]; simpl; [done |].
  destruct (decide (k' = k)) as [->|Hne].
  - intros [= ->]. by left.
  - intros ?. right. by apply IH.
Qed.

(** Storing under a new key appends. *)
Lemma dict_setitem_new d k v : dict_get d k = None → dict_setitem d k v = d ++ [(k, v)].
Proof.
  induction d as [|[k' v'] d IH]; simpl; [done |].
  destruct (decide (k' = k)); [done |]. intros ?. by rewrite IH.
Qed.

Lemma dict_get_setitem d k v k' :
  dict_get (dict_setitem d k v) k' = if decide (k = k') then Some v else dict_get d k'.
Proof.
  induction d as [|[k0 v0] d IH]; simpl.
  - by destruct (decide (k = k')).
  - destruct (decide (k0 = k)) as [->|Hne]; simpl.
    + by destruct (decide (k = k')).
    + destruct (decide (k0 = k')) as [->|?]; [|done].
      by destruct (decide (k = k')).
Qed.

(** Storing the value a key already has changes nothing. *)
Lemma dict_setitem_same d k v : dict_get d k = Some v → dict_setitem d k v = d.
Proof.
  induction d as [|[k' v'] d IH]; simpl; [done |].
  destruct (decide (k' = k)) as [->|?].
  - by intros [= ->].
  - intros ?. by rewrite IH.
Qed.
End dict.

(** ** [uuid.UUID] *)

Lemma int_hex_acc_raises acc s e : int_hex_acc acc s = Raised e → e = ValueError.
Proof.
  revert acc. induction s as [|c s IH]; intros acc; simpl; [done |].
  destruct (hex_value c); [apply IH | by intros [= <-]].
Qed.

Lemma uuid_UUID_raises s e : uuid_UUID s = Raised e → e = ValueError.
Proof.
  unfold uuid_UUID. case_bool_decide; [by intros [= <-] |].
  unfold int_hex. destruct (filter _ _); [by intros [= <-] |].
  apply int_hex_acc_raises.
Qed.

(** [_is_valid_uuid] never raises. *)
Lemma _is_valid_uuid_returns s : _is_valid_uuid s = Returned (valid_uuid s).
Proof.
  unfold _is_valid_uuid, valid_uuid.
  destruct (uuid_UUID s) as [z|e] eqn:H; [done |].
  by apply uuid_UUID_raises in H as ->.
Qed.

(** ** [replace_match] *)

Section replace_match.
Implicit Types (self : UUIDReplacer) (m : Match) (ts : list token).

Lemma replace_match_invalid self m :
  valid_uuid (group1 m) = false → replace_match self m = Returned (group0 m, self).
Proof. intros Hv. unfold replace_match. rewrite _is_valid_uuid_returns, Hv. done. Qed.

Lemma replace_match_known self m p :
  valid_uuid (group1 m) = true →
  dict_get (uuid_mapping self) (group1 m) = Some p →
  replace_match self m = Returned (sep self ++ p ++ close_sep self, self).
Proof.
  intros Hv Hp. unfold replace_match. rewrite _is_valid_uuid_returns, Hv. simpl.
  assert (dict_contains (uuid_mapping self) (group1 m) = true) as ->
    by (apply dict_contains_spec; by eexists).
  by rewrite (dict_getitem_Some _ _ _ Hp).
Qed.

Lemma replace_match_new self m :
  valid_uuid (group1 m) = true →
  dict_get (uuid_mapping self) (group1 m) = None →
  replace_match self m
  = Returned (sep self ++ placeholder (nr_digits self) (counter self) ++ close_sep self,
              note self (group1 m)).
Proof.
  intros Hv Hp. unfold replace_match, note. rewrite _is_valid_uuid_returns, Hv. simpl.
  assert (dict_contains (uuid_mapping self) (group1 m) = false) as ->
    by (by apply dict_contains_false).
  simpl. by rewrite dict_setitem_new.
Qed.

Lemma note_sep self u : sep (note self u) = sep self.
Proof. unfold note. by destruct (dict_contains _ _). Qed.
Lemma note_close_sep self u : close_sep (note self u) = close_sep self.
Proof. unfold note. by destruct (dict_contains _ _). Qed.
Lemma note_nr_digits self u : nr_digits (note self u) = nr_digits self.
Proof. unfold note. by destruct (dict_contains _ _). Qed.
Lemma note_pattern self u : pattern (note self u) = pattern self.
Proof. unfold note. by destruct (dict_contains _ _). Qed.

Lemma note_prefix self u : uuid_mapping self `prefix_of` uuid_mapping (note self u).
Proof.
  unfold note. destruct (dict_contains _ _); [done |]. simpl. by apply prefix_app_r.
Qed.

Lemma note_contains self u : is_Some (dict_get (uuid_mapping (note self u)) u).
Proof.
  unfold note. destruct (dict_contains _ _) eqn:H.
  - by apply dict_contains_spec.
  - simpl. rewrite dict_get_app. apply dict_contains_false in H as ->. simpl.
    rewrite decide_True by done. by eexists.
Qed.

(** [replace_match] in one equation: the span is rendered under the
    mapping the call leaves behind. *)
Lemma replace_match_note self m :
  replace_match self m
  = Returned (render_token (if valid_uuid (group1 m) then note self (group1 m) else self) (Hit m),
              if valid_uuid (group1 m) then note self (group1 m) else self).
Proof.
  destruct (valid_uuid (group1 m)) eqn:Hv; simpl; rewrite Hv.
  - destruct (dict_get (uuid_mapping self) (group1 m)) as [p|] eqn:Hp.
    + rewrite (replace_match_known _ _ p) by done.
      unfold note. assert (dict_contains (uuid_mapping self) (group1 m) = true) as ->
        by (apply dict_contains_spec; by eexists).
      by rewrite Hp.
    + rewrite replace_match_new by done.
      rewrite note_sep, note_close_sep.
      apply dict_contains_false in Hp as Hc. unfold note. rewrite Hc. simpl.
      rewrite dict_get_app, Hp. simpl. rewrite decide_True by done. done.
  - by apply replace_match_invalid.
Qed.

(** Lookups survive the growth of the mapping. *)
Lemma dict_get_prefix (d d' : dict) k v :
  d `prefix_of` d' → dict_get d k = Some v → dict_get d' k = Some v.
Proof. intros [ext ->] H. by rewrite dict_get_app, H. Qed.

Lemma fold_note_sep self ids : sep (fold_left note ids self) = sep self.
Proof.
  revert self. induction ids as [|u ids IH]; intros self; simpl; [done |].
  by rewrite IH, note_sep.
Qed.
Lemma fold_note_close_sep self ids : close_sep (fold_left note ids self) = close_sep self.
Proof.
  revert self. induction ids as [|u ids IH]; intros self; simpl; [done |].
  by rewrite IH, note_close_sep.
Qed.
Lemma fold_note_nr_digits self ids : nr_digits (fold_left note ids self) = nr_digits self.
Proof.
  revert self. induction ids as [|u ids IH]; intros self; simpl; [done |].
  by rewrite IH, note_nr_digits.
Qed.
Lemma fold_note_pattern self ids : pattern (fold_left note ids self) = pattern self.
Proof.
  revert self. induction ids as [|u ids IH]; intros self; simpl; [done |].
  by rewrite IH, note_pattern.
Qed.
Lemma fold_note_prefix self ids :
  uuid_mapping self `prefix_of` uuid_mapping (fold_left note ids self).
Proof.
  revert self. induction ids as [|u ids IH]; intros self; simpl; [done |].
  etrans; [apply (note_prefix self u) | apply IH].
Qed.

(** A token whose identifier is already mapped renders the same under
    every later mapping. *)
Lemma render_token_stable self self' t :
  sep self' = sep self → close_sep self' = close_sep self →
  uuid_mapping self `prefix_of` uuid_mapping self' →
  (∀ m, t = Hit m → valid_uuid (group1 m) = true →
        is_Some (dict_get (uuid_mapping self) (group1 m))) →
  render_token self' t = render_token self t.
Proof.
  intros Hs Hc Hpre Hcov. destruct t as [c|m]; simpl; [done |].
  destruct (valid_uuid (group1 m)) eqn:Hv; [|done].
  destruct (Hcov m eq_refl Hv) as [p Hp].
  by rewrite Hp, (dict_get_prefix _ _ _ _ Hpre Hp), Hs, Hc.
Qed.

(** The replacement pass, in closed form: the state moves through the
    valid identifiers in order, and every token is rendered under the
    final mapping. *)
Lemma sub_tokens_replace ts self :
  sub_tokens replace_match self ts
  = Returned (render (fold_left note (seen ts) self) ts, fold_left note (seen ts) self).
Proof.
  revert self. induction ts as [|[c|m] ts IH]; intros self; simpl.
  - done.
  - rewrite IH. done.
  - rewrite replace_match_note. simpl.
    destruct (valid_uuid (group1 m)) eqn:Hv; simpl; rewrite IH; simpl.
    + unfold render. simpl. rewrite Hv. f_equal. f_equal. f_equal.
      pose proof (note_contains self (group1 m)) as [p Hp].
      rewrite Hp.
      rewrite (dict_get_prefix _ _ _ _ (fold_note_prefix _ _) Hp).
      by rewrite fold_note_sep, fold_note_close_sep.
    + unfold render. simpl. by rewrite Hv.
Qed.
End replace_match.

(** ** Every identifier the pattern matches is a valid UUID *)

Section valid.
Implicit Types (s old : text) (c : ascii).

Lemma remove_all_from_absent c old s :
  c ∉ s → remove_all_from (c :: old) 0 s = s.
Proof.
  induction s as [|a s IH]; intros Hc; simpl; [done |].
  apply not_elem_of_cons in Hc as [Hne Hc].
  rewrite decide_False by done. f_equal. by apply IH.
Qed.

Lemma lstrip_keep cls c s : cls c = false → lstrip cls (c :: s) = c :: s.
Proof. simpl. by intros ->. Qed.

Lemma strip_keep cls c s c' :
  cls c = false → cls c' = false → strip cls (c :: s ++ [c']) = c :: s ++ [c'].
Proof.
  intros Hc Hc'. unfold strip. rewrite lstrip_keep by done.
  rewrite reverse_cons, reverse_app. simpl.
  rewrite Hc'. simpl.
  rewrite reverse_cons, reverse_app, reverse_involutive. done.
Qed.

Lemma is_hex_value c : is_hex c = true → is_Some (hex_value c).
Proof.
  unfold is_hex, hex_value. intros H.
  destruct (in_range "0" "9" c); [by eexists |].
  destruct (in_range "a" "f" c); [by eexists |].
  destruct (in_range "A" "F" c); [by eexists | done].
Qed.

Lemma int_hex_acc_returns acc s :
  Forall (λ c, is_hex c = true) s → returns (int_hex_acc acc s).
Proof.
  intros H. revert acc. induction H as [|c s Hc _ IH]; intros acc; simpl; [done |].
  destruct (is_hex_value c Hc) as [d ->]. apply IH.
Qed.

Lemma is_hex_not c c' : is_hex c' = false → is_hex c = true → c ≠ c'.
Proof. congruence. Qed.

Lemma filter_hyphen_hex s :
  Forall (λ c, is_hex c = true) s → filter (λ c, c ≠ "-"%char) s = s.
Proof.
  induction 1 as [|c s Hc _ IH]; [done |].
  rewrite filter_cons, decide_True; [by rewrite IH |].
  by apply (is_hex_not c "-").
Qed.

Lemma hex_run_cons n s :
  hex_run (S n) s → ∃ c s', s = c :: s' ∧ is_hex c = true ∧ hex_run n s'.
Proof.
  intros [Hlen Hall]. destruct s as [|c s']; [done |].
  apply Forall_cons in Hall as [? ?]. exists c, s'. repeat split; [done | | done].
  simpl in Hlen. lia.
Qed.

Lemma hex_run_snoc n s :
  hex_run (S n) s → ∃ s' c, s = s' ++ [c] ∧ is_hex c = true ∧ hex_run n s'.
Proof.
  intros [Hlen Hall]. destruct s as [|c s' _] using rev_ind; [done |].
  apply Forall_app in Hall as [? [? _]%Forall_cons]. exists s', c.
  repeat split; [done | | done].
  rewrite length_app in Hlen. simpl in Hlen. lia.
Qed.

(** On a string of the 8-4-4-4-12 layout, [uuid.UUID] reads the 32 digits
    as one hexadecimal number. *)
Lemma uuid_UUID_shaped (a b c d e : text) :
  hex_run 8 a → hex_run 4 b → hex_run 4 c → hex_run 4 d → hex_run 12 e →
  uuid_UUID (a ++ lit "-" ++ b ++ lit "-" ++ c ++ lit "-" ++ d ++ lit "-" ++ e)
  = int_hex_acc 0 (a ++ b ++ c ++ d ++ e).
Proof.
  intros Ha Hb Hc Hd He.
  pose proof Ha as [La Fa]. pose proof Hb as [Lb Fb]. pose proof Hc as [Lc Fc].
  pose proof Hd as [Ld Fd]. pose proof He as [Le Fe].
  set (u := a ++ lit "-" ++ b ++ lit "-" ++ c ++ lit "-" ++ d ++ lit "-" ++ e).
  assert (Hchars : Forall (λ x, is_hex x = true ∨ x = "-"%char) u).
  { unfold u. repeat (apply Forall_app; split);
      try (apply Forall_singleton; by right);
      eapply Forall_impl; eauto. }
  assert (Hu : ∀ x, is_hex x = false → x ≠ "-"%char → x ∉ u).
  { intros x Hx Hx' Hin. rewrite Forall_forall in Hchars.
    destruct (Hchars x Hin); congruence. }
  unfold uuid_UUID.
  assert (str_remove u (lit "urn:") = u) as ->
    by (apply remove_all_from_absent, Hu; done).
  assert (str_remove u (lit "uuid:") = u) as ->
    by (apply remove_all_from_absent, Hu; done).
  assert (strip is_brace u = u) as ->.
  { destruct (hex_run_cons _ _ Ha) as (x & a' & -> & Hx & _).
    destruct (hex_run_snoc _ _ He) as (e' & y & -> & Hy & _).
    unfold u.
    replace ((x :: a') ++ lit "-" ++ b ++ lit "-" ++ c ++ lit "-" ++ d ++ lit "-" ++ e' ++ [y])
      with (x :: (a' ++ lit "-" ++ b ++ lit "-" ++ c ++ lit "-" ++ d ++ lit "-" ++ e') ++ [y])
      by (repeat first [rewrite <- app_assoc | progress simpl]; done).
    apply strip_keep.
    - destruct (is_brace x) eqn:Hb'; [|done].
      apply orb_true_iff in Hb' as [Hb'|Hb']; apply bool_decide_eq_true in Hb'; by subst.
    - destruct (is_brace y) eqn:Hb'; [|done].
      apply orb_true_iff in Hb' as [Hb'|Hb']; apply bool_decide_eq_true in Hb'; by subst. }
  assert (filter (λ x, x ≠ "-"%char) u = a ++ b ++ c ++ d ++ e) as ->.
  { unfold u. rewrite !filter_app.
    rewrite (filter_hyphen_hex a), (filter_hyphen_hex b), (filter_hyphen_hex c),
      (filter_hyphen_hex d), (filter_hyphen_hex e) by done.
    done. }
  rewrite bool_decide_eq_false_2.
  2:{ rewrite !length_app. lia. }
  unfold int_hex.
  destruct (a ++ b ++ c ++ d ++ e) eqn:E; [|done].
  apply (f_equal length) in E. rewrite !length_app in E. simpl in E. lia.
Qed.

(** [uuid.UUID] parses every string of the 8-4-4-4-12 layout. *)
Lemma uuid_shaped_valid u : uuid_shaped u → valid_uuid u = true.
Proof.
  intros (a & b & c & d & e & -> & Ha & Hb & Hc & Hd & He).
  unfold valid_uuid. rewrite uuid_UUID_shaped by done.
  assert (returns (int_hex_acc 0 (a ++ b ++ c ++ d ++ e))) as [z ->]; [|done].
  apply int_hex_acc_returns.
  destruct Ha as [_ ?], Hb as [_ ?], Hc as [_ ?], Hd as [_ ?], He as [_ ?].
  by repeat (apply Forall_app; split).
Qed.

Lemma finditer_uuid_valid sep close s m :
  Hit m ∈ finditer {| re_open := sep; re_body := uuid_pattern; re_close := close |} s →
  valid_uuid (group1 m) = true.
Proof.
  intros (g & Hacc & ->)%finditer_hits. simpl in *.
  by apply uuid_shaped_valid, accepts_uuid_pattern.
Qed.

(** So on the replacer's own pattern the valid identifiers are all the
    identifiers found. *)
Lemma seen_findall sep close s :
  let p := {| re_open := sep; re_body := uuid_pattern; re_close := close |} in
  seen (finditer p s) = findall p s.
Proof.
  intros p. unfold seen, findall.
  pose proof (finditer_uuid_valid sep close s) as Hv. fold p in Hv.
  induction (finditer p s) as [|[c|m] ts IH]; simpl; [done | |].
  - apply IH. intros m Hm. apply Hv. by right.
  - rewrite (Hv m) by (by left). simpl. f_equal.
    apply IH. intros m' Hm'. apply Hv. by right.
Qed.
End valid.

(** ** [replace_uuids] *)

Section replace_uuids.
Implicit Types (self : UUIDReplacer) (ids us : list text) (u : text).

(** One call, in closed form. *)
Lemma replace_uuids_closed self s :
  replace_uuids self s
  = Returned (render (fold_left note (seen (finditer (pattern self) s)) self)
                (finditer (pattern self) s),
              uuid_mapping (fold_left note (seen (finditer (pattern self) s)) self),
              fold_left note (seen (finditer (pattern self) s)) self).
Proof. unfold replace_uuids, re_sub. by rewrite sub_tokens_replace. Qed.

Lemma fold_note_contains self ids u :
  u ∈ ids → is_Some (dict_get (uuid_mapping (fold_left note ids self)) u).
Proof.
  revert self. induction ids as [|u' ids IH]; intros self; [by intros ?%elem_of_nil |].
  intros [->|Hin]%elem_of_cons; simpl; [|by apply IH].
  destruct (note_contains self u') as [p Hp].
  exists p. eapply dict_get_prefix; [apply fold_note_prefix | done].
Qed.

Lemma fold_note_known self ids :
  (∀ u, u ∈ ids → is_Some (dict_get (uuid_mapping self) u)) →
  fold_left note ids self = self.
Proof.
  induction ids as [|u ids IH]; intros H; simpl; [done |].
  assert (note self u = self) as ->.
  { unfold note.
    assert (dict_contains (uuid_mapping self) u = true) as ->; [|done].
    apply dict_contains_spec, H. by left. }
  apply IH. intros u' Hu'. apply H. by right.
Qed.

(** Meeting the same identifiers again changes nothing. *)
Lemma fold_note_idem self ids :
  fold_left note ids (fold_left note ids self) = fold_left note ids self.
Proof. apply fold_note_known. intros u Hu. by apply fold_note_contains. Qed.

Lemma keys_assign_from w k ids : keys (assign_from w k ids) = ids.
Proof.
  unfold keys. revert k. induction ids as [|u ids IH]; intros k; simpl; [done |].
  by rewrite IH.
Qed.

Lemma keys_assign w ids : keys (assign w ids) = ids.
Proof. apply keys_assign_from. Qed.

Lemma length_assign w ids : length (assign w ids) = length ids.
Proof. rewrite <- (keys_assign w ids) at 2. unfold keys. by rewrite length_fmap. Qed.

Lemma values_assign_from w k ids :
  values (assign_from w k ids) = placeholder w <$> seqZ k (Z.of_nat (length ids)).
Proof.
  unfold values. revert k. induction ids as [|u ids IH]; intros k; [done |].
  cbn [assign_from length]. rewrite Nat2Z.inj_succ, seqZ_cons by lia.
  rewrite !fmap_cons, IH. simpl. do 3 f_equal. lia.
Qed.

Lemma assign_from_snoc w k ids u :
  assign_from w k (ids ++ [u])
  = assign_from w k ids ++ [(u, placeholder w (k + Z.of_nat (length ids)))].
Proof.
  revert k. induction ids as [|u' ids IH]; intros k; simpl.
  - do 3 f_equal. lia.
  - rewrite IH. f_equal. f_equal. f_equal. f_equal. f_equal. lia.
Qed.

Lemma elem_of_assign_from w k ids u p :
  (u, p) ∈ assign_from w k ids
  ↔ ∃ i, ids !! i = Some u ∧ p = placeholder w (k + Z.of_nat i).
Proof.
  revert k. induction ids as [|u' ids IH]; intros k; simpl.
  - split; [by intros ?%elem_of_nil | by intros (i & ? & _)].
  - rewrite elem_of_cons, IH. split.
    + intros [[= -> ->]|(i & Hi & ->)].
      * exists 0%nat. split; [done |]. f_equal. lia.
      * exists (S i). split; [done |]. f_equal. lia.
    + intros ([|i] & Hi & ->); simpl in Hi.
      * left. simplify_eq. do 2 f_equal. lia.
      * right. exists i. split; [done |]. f_equal. lia.
Qed.

Lemma note_state_of sep w ids u :
  note (state_of sep w ids) u
  = state_of sep w (if decide (u ∈ ids) then ids else ids ++ [u]).
Proof.
  unfold note. simpl.
  destruct (decide (u ∈ ids)) as [Hin|Hin].
  - assert (dict_contains (assign w ids) u = true) as ->; [|done].
    apply dict_contains_spec, dict_get_keys. unfold assign. by rewrite keys_assign_from.
  - assert (dict_contains (assign w ids) u = false) as ->.
    { apply dict_contains_false, dict_get_None_keys. unfold assign.
      by rewrite keys_assign_from. }
    unfold state_of, set_uuid_mapping, set_counter. simpl. f_equal.
    + unfold assign. by rewrite assign_from_snoc.
    + rewrite length_app. simpl. lia.
Qed.

Lemma fold_note_state_of sep w ids us :
  fold_left note us (state_of sep w ids) = state_of sep w (first_seen_from ids us).
Proof.
  revert ids. induction us as [|u us IH]; intros ids; simpl; [done |].
  by rewrite note_state_of, IH.
Qed.

Lemma init_state_of sep w : UUIDReplacer_init sep w = Returned (state_of sep w []).
Proof. done. Qed.

Lemma first_seen_from_app acc us us' :
  first_seen_from acc (us ++ us') = first_seen_from (first_seen_from acc us) us'.
Proof. unfold first_seen_from. by rewrite fold_left_app. Qed.

Lemma first_seen_from_NoDup acc us : NoDup acc → NoDup (first_seen_from acc us).
Proof.
  revert acc. induction us as [|u us IH]; intros acc Hacc; simpl; [done |].
  apply IH. destruct (decide (u ∈ acc)); [done |].
  apply NoDup_app. repeat split; [done | | apply NoDup_singleton].
  intros x Hx ->%list_elem_of_singleton. done.
Qed.

Lemma elem_of_first_seen_from acc us u :
  u ∈ first_seen_from acc us ↔ u ∈ acc ∨ u ∈ us.
Proof.
  revert acc. induction us as [|u' us IH]; intros acc; simpl.
  - split; [by left | by intros [?|?%elem_of_nil]].
  - rewrite IH, elem_of_cons. destruct (decide (u' ∈ acc)) as [Hin|Hin].
    + split; [intros [?|?]; auto | intros [?|[->|?]]; auto].
    + rewrite elem_of_app, list_elem_of_singleton. tauto.
Qed.

(** Distinct ordinals have distinct placeholders. *)
Lemma placeholder_inj w n n' :
  0 <= n → 0 <= n' → placeholder w n = placeholder w n' → n = n'.
Proof. apply zfill_str_int_inj. Qed.

(** However many identifiers there are, their placeholders are pairwise
    distinct. *)
Lemma assign_values_NoDup w ids : NoDup (values (assign w ids)).
Proof.
  unfold assign. rewrite values_assign_from.
  apply NoDup_fmap_2_strong; [|apply NoDup_seqZ].
  intros n n' Hn%elem_of_seqZ Hn'%elem_of_seqZ. apply placeholder_inj; lia.
Qed.

(** In an assigned mapping, the placeholder determines the identifier. *)
Lemma assign_injective w ids u1 p1 u2 p2 :
  (u1, p1) ∈ assign w ids → (u2, p2) ∈ assign w ids → u1 ≠ u2 → p1 ≠ p2.
Proof.
  intros (i & Hi & ->)%elem_of_assign_from (j & Hj & ->)%elem_of_assign_from Hne Heq.
  apply placeholder_inj in Heq; [|lia..].
  assert (i = j) as -> by lia. congruence.
Qed.
End replace_uuids.

(** ** Sequences of calls *)

Section calls.
Implicit Types (self : UUIDReplacer) (ts : list token) (us : list text).

Lemma render_gaps self s : render self (Gap <$> s) = s.
Proof. unfold render. induction s as [|c s IH]; simpl; [done | by f_equal]. Qed.

Lemma seen_gaps s : seen (Gap <$> s) = [].
Proof. unfold seen. by induction s. Qed.

Lemma elem_of_seen ts m :
  Hit m ∈ ts → valid_uuid (group1 m) = true → group1 m ∈ seen ts.
Proof.
  intros Hin Hv. unfold seen. apply list_elem_of_omap.
  exists (Hit m). by rewrite Hv.
Qed.

(** What was rendered under the mapping a call left behind reads the same
    under every later mapping. *)
Lemma render_fold_note self ts us :
  render (fold_left note us (fold_left note (seen ts) self)) ts
  = render (fold_left note (seen ts) self) ts.
Proof.
  unfold render. f_equal. apply list_fmap_ext. intros i t Ht%list_elem_of_lookup_2.
  apply render_token_stable.
  - apply fold_note_sep.
  - apply fold_note_close_sep.
  - apply fold_note_prefix.
  - intros m -> Hv. apply fold_note_contains. by apply elem_of_seen.
Qed.

(** A sequence of calls, in closed form. *)
Lemma replace_each_closed self texts :
  let self' :=
    fold_left note (mjoin ((λ t, seen (finditer (pattern self) t)) <$> texts)) self in
  ∃ outs,
    replace_each self texts = Returned (outs, self') ∧
    Forall2 (λ t out, out = render self' (finditer (pattern self) t)) texts outs.
Proof.
  revert self. induction texts as [|t texts IH]; intros self; simpl.
  - exists []. split; [done | constructor].
  - rewrite replace_uuids_closed. simpl.
    set (self1 := fold_left note (seen (finditer (pattern self) t)) self).
    destruct (IH self1) as (outs & Hrun & Houts).
    assert (Hp : pattern self1 = pattern self) by apply fold_note_pattern.
    rewrite Hp in Hrun, Houts.
    rewrite Hrun. simpl. rewrite fold_left_app. fold self1.
    eexists. split; [done |]. constructor; [|done].
    symmetry. apply render_fold_note.
Qed.

Lemma match_free_spec p s :
  match_free p s = true ↔ ∀ i, (i ≤ length s)%nat → re_match p (drop i s) = None.
Proof.
  unfold match_free. rewrite forallb_forall. split.
  - intros H i Hi. specialize (H i).
    destruct (re_match p (drop i s)); [|done].
    discriminate H. apply in_seq. lia.
  - intros H i Hi%in_seq. rewrite H; [done | lia].
Qed.

(** A string that is free of matches holds no delimited, accepted span. *)
Lemma match_free_no_span p s pre g post :
  match_free p s = true →
  s = pre ++ re_open p ++ g ++ re_close p ++ post → ¬ accepts (re_body p) g.
Proof.
  intros Hfree -> Hacc.
  rewrite match_free_spec in Hfree. specialize (Hfree (length pre)).
  rewrite drop_app_length, re_match_span in Hfree by done.
  discriminate Hfree. rewrite length_app. lia.
Qed.

Lemma no_span_match_free p s :
  (∀ pre g post, s = pre ++ re_open p ++ g ++ re_close p ++ post → ¬ accepts (re_body p) g) →
  ∀ i, (i ≤ length s)%nat → re_match p (drop i s) = None.
Proof.
  intros H i Hi. destruct (re_match p (drop i s)) as [m|] eqn:Hm; [|done].
  apply re_match_spec in Hm as (g & r & Hd & Hacc & _).
  destruct (H (take i s) g r); [|done].
  by rewrite <- Hd, take_drop.
Qed.

Lemma uuid_shaped_length u : uuid_shaped u → length u = 36%nat.
Proof.
  intros (a & b & c & d & e & -> & [La _] & [Lb _] & [Lc _] & [Ld _] & [Le _]).
  rewrite !length_app. simpl. lia.
Qed.

Lemma re_match_uuid_nil sep close :
  re_match {| re_open := sep; re_body := uuid_pattern; re_close := close |} [] = None.
Proof.
  destruct (re_match _ []) as [m|] eqn:Hm; [|done].
  apply re_match_spec in Hm as (g & r & Hnil & Hacc%accepts_uuid_pattern%uuid_shaped_length & _).
  simpl in Hnil. apply (f_equal length) in Hnil. rewrite !length_app in Hnil.
  simpl in Hnil. lia.
Qed.
End calls.

(** ** Letter case *)

Section letter_case.
Lemma to_lower_hex c : is_hex c = true → is_hex (to_lower c) = true.
Proof. destruct c as [[] [] [] [] [] [] [] []]; vm_compute; done. Qed.

Lemma to_upper_hex c : is_hex c = true → is_hex (to_upper c) = true.
Proof. destruct c as [[] [] [] [] [] [] [] []]; vm_compute; done. Qed.

Lemma hex_run_fmap f n s :
  (∀ c, is_hex c = true → is_hex (f c) = true) → hex_run n s → hex_run n (f <$> s).
Proof.
  intros Hf [Hlen Hall]. split; [by rewrite length_fmap |].
  apply Forall_fmap. eapply Forall_impl; [done |]. intros c Hc. by apply Hf.
Qed.

Lemma uuid_shaped_fmap f u :
  (∀ c, is_hex c = true → is_hex (f c) = true) → f "-"%char = "-"%char →
  uuid_shaped u → uuid_shaped (f <$> u).
Proof.
  intros Hf Hh (a & b & c & d & e & -> & Ha & Hb & Hc & Hd & He).
  exists (f <$> a), (f <$> b), (f <$> c), (f <$> d), (f <$> e).
  rewrite !fmap_app. simpl. rewrite Hh.
  split; [done |].
  split; [by apply hex_run_fmap |]. split; [by apply hex_run_fmap |].
  split; [by apply hex_run_fmap |]. split; by apply hex_run_fmap.
Qed.

Lemma hex_value_case c : hex_value (to_lower c) = hex_value (to_upper c).
Proof. destruct c as [[] [] [] [] [] [] [] []]; by vm_compute. Qed.

Lemma int_hex_acc_case acc s : int_hex_acc acc (lower s) = int_hex_acc acc (upper s).
Proof.
  revert acc. induction s as [|c s IH]; intros acc; simpl; [done |].
  rewrite hex_value_case. destruct (hex_value (to_upper c)); [apply IH | done].
Qed.

(** The two spellings of an identifier denote the same UUID. *)
Lemma uuid_UUID_case u : uuid_shaped u → uuid_UUID (lower u) = uuid_UUID (upper u).
Proof.
  intros (a & b & c & d & e & -> & Ha & Hb & Hc & Hd & He).
  unfold lower, upper. rewrite !fmap_app.
  change (to_lower <$> lit "-") with (lit "-"). change (to_upper <$> lit "-") with (lit "-").
  rewrite !uuid_UUID_shaped;
    try (apply hex_run_fmap; [apply to_lower_hex || apply to_upper_hex | done]).
  rewrite <- !fmap_app. apply int_hex_acc_case.
Qed.

(** Both spellings of an identifier have the shape the pattern accepts. *)
Lemma uuid_shaped_lower u : uuid_shaped u → uuid_shaped (lower u).
Proof. apply uuid_shaped_fmap; [apply to_lower_hex | done]. Qed.

Lemma uuid_shaped_upper u : uuid_shaped u → uuid_shaped (upper u).
Proof. apply uuid_shaped_fmap; [apply to_upper_hex | done]. Qed.
End letter_case.

(** ** [restore_output] *)

Section restore.
Implicit Types (mapping d : dict) (k v u : text).

Lemma identifier_of_nil v : identifier_of [] v = None.
Proof. done. Qed.

Lemma identifier_of_cons k v mapping v' :
  identifier_of ((k, v) :: mapping) v'
  = match identifier_of mapping v' with
    | Some u => Some u
    | None => if decide (v = v') then Some k else None
    end.
Proof.
  unfold identifier_of. rewrite filter_cons. simpl.
  destruct (decide (v = v')) as [->|Hne]; [|by destruct (last _)].
  rewrite last_cons. by destruct (last _).
Qed.

Lemma identifier_of_elem_of mapping v u : identifier_of mapping v = Some u → (u, v) ∈ mapping.
Proof.
  induction mapping as [|[k v0] mapping IH]; [done |].
  rewrite identifier_of_cons.
  destruct (identifier_of mapping v) as [u'|].
  - intros [= ->]. right. by apply IH.
  - destruct (decide (v0 = v)) as [->|]; [|done]. intros [= ->]. by left.
Qed.

Lemma identifier_of_None mapping v : identifier_of mapping v = None ↔ v ∉ values mapping.
Proof.
  unfold values. induction mapping as [|[k v0] mapping IH].
  - split; [intros _ ?%elem_of_nil; done | done].
  - rewrite identifier_of_cons, fmap_cons, not_elem_of_cons. simpl.
    destruct (identifier_of mapping v) as [u'|].
    + split; [done |]. intros [_ H]. by apply IH in H.
    + destruct (decide (v0 = v)) as [->|].
      * split; [done | by intros [? _]].
      * split; [intros _; split; [done | by apply IH] | done].
Qed.

(** When no two keys share a value, the identifier put back for a
    placeholder is the one it was assigned to. *)
Lemma identifier_of_unique mapping u v :
  (∀ u1 u2 v', (u1, v') ∈ mapping → (u2, v') ∈ mapping → u1 = u2) →
  (u, v) ∈ mapping → identifier_of mapping v = Some u.
Proof.
  intros Hinj Hin.
  destruct (identifier_of mapping v) as [u'|] eqn:Hid.
  - apply identifier_of_elem_of in Hid. f_equal. by eapply Hinj.
  - apply identifier_of_None in Hid. destruct Hid.
    unfold values. apply list_elem_of_fmap. by exists (u, v).
Qed.

Lemma dict_get_fold_reverse mapping acc v :
  dict_get (fold_left (λ acc kv, dict_setitem acc kv.2 kv.1) mapping acc) v
  = match identifier_of mapping v with
    | Some u => Some u
    | None => dict_get acc v
    end.
Proof.
  revert acc. induction mapping as [|[k v0] mapping IH]; intros acc; [done |].
  simpl. rewrite IH, identifier_of_cons.
  destruct (identifier_of mapping v); [done |].
  rewrite dict_get_setitem. by destruct (decide (v0 = v)).
Qed.

(** The reverse lookup, read off the mapping. *)
Lemma dict_get_reverse_dict mapping v :
  dict_get (reverse_dict mapping) v = identifier_of mapping v.
Proof.
  unfold reverse_dict. rewrite dict_get_fold_reverse.
  by destruct (identifier_of mapping v).
Qed.

Lemma restore_match_returns sep mapping m :
  restore_match sep (closing sep) (reverse_dict mapping) () m
  = Returned (restore_token sep mapping (Hit m), ()).
Proof.
  unfold restore_match, dict_contains, dict_getitem. simpl.
  rewrite dict_get_reverse_dict. by destruct (identifier_of mapping (group1 m)).
Qed.

Lemma sub_tokens_restore sep mapping ts :
  sub_tokens (restore_match sep (closing sep) (reverse_dict mapping)) () ts
  = Returned (mjoin (restore_token sep mapping <$> ts), ()).
Proof.
  induction ts as [|[c|m] ts IH]; simpl; [done | |].
  - by rewrite IH.
  - rewrite restore_match_returns. simpl. by rewrite IH.
Qed.

(** [restore_output], in closed form. *)
Lemma restore_output_closed output mapping sep n :
  restore_output output mapping sep n
  = Returned (mjoin (restore_token sep mapping <$> finditer (digit_pattern sep n) output)).
Proof. unfold restore_output, re_sub. by rewrite sub_tokens_restore. Qed.

Lemma restore_gaps sep mapping s : mjoin (restore_token sep mapping <$> (Gap <$> s)) = s.
Proof. induction s as [|c s IH]; simpl; [done | by f_equal]. Qed.

(** The two laws of the scan, for [restore_output]. *)
Lemma restore_output_quiet pre rest mapping sep n out :
  quiet (digit_pattern sep n) pre rest →
  restore_output rest mapping sep n = Returned out →
  restore_output (pre ++ rest) mapping sep n = Returned (pre ++ out).
Proof.
  rewrite !restore_output_closed. intros Hq [= <-].
  by rewrite finditer_quiet, fmap_app, join_app, restore_gaps.
Qed.

Lemma restore_output_span g post mapping sep n out :
  accepts (digit_group n) g → sep ++ g ++ closing sep ≠ [] →
  restore_output post mapping sep n = Returned out →
  restore_output (sep ++ g ++ closing sep ++ post) mapping sep n
  = Returned (match identifier_of mapping g with
              | Some u => sep ++ u ++ closing sep
              | None => sep ++ g ++ closing sep
              end ++ out).
Proof.
  rewrite !restore_output_closed. intros Hacc Hne [= <-].
  pose proof (finditer_hit (digit_pattern sep n) g post Hacc Hne) as Hhit.
  simpl in Hhit. rewrite Hhit. simpl.
  destruct (identifier_of mapping g); by rewrite <- ?app_assoc.
Qed.

(** With one of the four bracket pairs, a match of the digit pattern begins
    with the opening bracket and holds no other. *)
Lemma digit_pattern_led_by sep n :
  bracket sep → 0 <= n → ∃ c0, sep = [c0] ∧ led_by (digit_pattern sep n) c0.
Proof.
  intros Hb Hn.
  assert (∃ c0 c1, sep = [c0] ∧ closing sep = [c1] ∧ c0 ≠ c1 ∧ is_digit c0 = false)
    as (c0 & c1 & Hsep & Hclose & Hne & Hd).
  { destruct Hb as [-> | [-> | [-> | ->]]]; by eexists _, _. }
  exists c0. split; [done |].
  intros s m (g & r & _ & Hacc & ->)%re_match_spec.
  apply accepts_digit_group in Hacc as [_ Hg]; [|done].
  cbn [group0 span_of digit_pattern re_open re_close]. rewrite Hclose, Hsep.
  exists (g ++ [c1]). split; [done |].
  intros [Hin|Hin%list_elem_of_singleton]%elem_of_app; [|done].
  rewrite Forall_forall in Hg. apply Hg in Hin. congruence.
Qed.

(** So with a bracket pair every span of the form is found, wherever it
    stands, and the text on either side is restored on its own. *)
Lemma restore_output_bracket (pre d post : text) mapping sep n outpre outpost :
  bracket sep → 0 <= n → digit_run (Z.to_nat n) d →
  restore_output pre mapping sep n = Returned outpre →
  restore_output post mapping sep n = Returned outpost →
  restore_output (pre ++ sep ++ d ++ closing sep ++ post) mapping sep n
  = Returned (outpre
              ++ match identifier_of mapping d with
                 | Some u => sep ++ u ++ closing sep
                 | None => sep ++ d ++ closing sep
                 end
              ++ outpost).
Proof.
  intros Hb Hn Hd. rewrite !restore_output_closed. intros [= <-] [= <-].
  destruct (digit_pattern_led_by sep n Hb Hn) as (c0 & Hsep & Hled).
  assert (Hnil : re_match (digit_pattern sep n) [] = None).
  { destruct (re_match _ []) as [m|] eqn:Hm; [|done].
    destruct (Hled _ _ Hm) as (tl & Hg & _).
    apply re_match_prefix in Hm as [r Hr]. by rewrite Hg in Hr. }
  assert (Hacc : accepts (digit_group n) d) by (by apply accepts_digit_group).
  assert (Hne : sep ++ d ++ closing sep ≠ []) by (by rewrite Hsep).
  pose proof (finditer_hit (digit_pattern sep n) d post Hacc Hne) as Hhit. simpl in Hhit.
  pose proof (finditer_app_lead (digit_pattern sep n) c0 Hled pre
                (d ++ closing sep ++ post) Hnil) as Happ.
  rewrite Hsep in *. simpl in *. rewrite Happ, Hhit.
  rewrite fmap_app, join_app. simpl.
  destruct (identifier_of mapping d); simpl; by rewrite <- ?app_assoc.
Qed.
End restore.

(** ** Replace, then restore *)

Section round_trip.
Implicit Types (ids : list text) (segs : list seg) (u : text).

Lemma quiet_check_spec (p : regex) pre rest : quiet_check p pre rest = true → quiet p pre rest.
Proof.
  unfold quiet_check, quiet. rewrite forallb_forall. intros H i Hi.
  specialize (H i). destruct (re_match p (drop i pre ++ rest)); [|done].
  discriminate H. apply in_seq. lia.
Qed.

(** [clean_prompt], in closed form. *)
Lemma clean_prompt_closed T sep w :
  let p := {| re_open := sep; re_body := uuid_pattern; re_close := closing sep |} in
  clean_prompt T sep w
  = Returned (render (state_of sep w (first_seen (findall p T))) (finditer p T),
              assign w (first_seen (findall p T))).
Proof.
  intros p. unfold clean_prompt. rewrite init_state_of. simpl.
  rewrite replace_uuids_closed. simpl. fold p.
  unfold p at 1 2 3. rewrite seen_findall. fold p.
  by rewrite fold_note_state_of.
Qed.

Lemma assign_unique w ids u1 u2 p :
  (u1, p) ∈ assign w ids → (u2, p) ∈ assign w ids → u1 = u2.
Proof.
  intros (i & Hi & ->)%elem_of_assign_from (j & Hj & Heq)%elem_of_assign_from.
  apply placeholder_inj in Heq; [|lia..].
  assert (i = j) as -> by lia. congruence.
Qed.

(** While the identifiers fit the width, every placeholder of the mapping
    is a run of exactly [w] digits, and it leads back to its identifier. *)
Lemma assign_lookup w ids u :
  1 <= w → Z.of_nat (length ids) <= 10 ^ w → u ∈ keys (assign w ids) →
  ∃ p, dict_get (assign w ids) u = Some p ∧
       digit_run (Z.to_nat w) p ∧
       identifier_of (assign w ids) p = Some u.
Proof.
  intros Hw Hlen [p Hp]%dict_get_keys. exists p. split; [done |].
  apply dict_get_elem_of in Hp as Hin.
  split.
  - apply elem_of_assign_from in Hin as (i & Hi%lookup_lt_Some & ->).
    split.
    + apply zfill_str_int_fits; lia.
    + apply zfill_str_int_all_digits. lia.
  - apply identifier_of_unique; [|done].
    intros u1 u2 v'. apply assign_unique.
Qed.

Lemma re_match_digit_nil sep w : 1 <= w → re_match (digit_pattern sep w) [] = None.
Proof.
  intros Hw. destruct (re_match _ []) as [m|] eqn:Hm; [|done].
  apply re_match_spec in Hm as (g & r & Hnil & [Hlen _]%accepts_digit_group & _); [|lia].
  simpl in Hnil. apply (f_equal length) in Hnil. rewrite !length_app in Hnil.
  simpl in Hnil. lia.
Qed.

Lemma restore_downstream sep w ids segs :
  1 <= w → Z.of_nat (length ids) <= 10 ^ w →
  built_from (digit_pattern sep w) sep (assign w ids) segs →
  restore_output (downstream sep (assign w ids) segs) (assign w ids) sep w
  = Returned (restored sep segs).
Proof.
  intros Hw Hlen. induction segs as [|[s|u] segs IH]; simpl.
  - intros _. rewrite restore_output_closed.
    by rewrite finditer_nil by (by apply re_match_digit_nil).
  - intros [Hq Hb]. unfold downstream, restored. simpl.
    apply restore_output_quiet; [done | by apply IH].
  - intros [Hu Hb]. unfold downstream, restored. simpl.
    destruct (assign_lookup w ids u Hw Hlen Hu) as (p & -> & Hrun & Hid). simpl.
    rewrite <- !app_assoc.
    rewrite (restore_output_span p _ _ sep w (restored sep segs)).
    + by rewrite Hid, <- !app_assoc.
    + apply accepts_digit_group; [lia | done].
    + destruct Hrun as [Hl _]. intros Hnil. apply (f_equal length) in Hnil.
      rewrite !length_app in Hnil. simpl in Hnil. lia.
    + by apply IH.
Qed.
End round_trip.

(** ** [process_messages] *)

Section batch.
Implicit Types (h : heap) (st : batch) (l : loc) (ls : list loc) (d : message).

Lemma heap_copy_lookup h l :
  (heap_copy h l).2 !!! l = h !!! l.
Proof.
  unfold heap_copy. simpl.
  destruct (decide (fresh (dom h) = l)) as [->|Hne].
  - by rewrite lookup_total_insert_eq.
  - by rewrite lookup_total_insert_ne.
Qed.

(** One iteration never raises, and does what [step] says. *)
Lemma process_message_step st l : process_message st l = Returned (step st l).
Proof.
  pose proof (heap_copy_lookup (b_heap st) l) as Hl.
  unfold process_message, step, heap_getitem, content_of.
  unfold heap_copy in *. cbn [fst snd] in Hl. cbv beta iota zeta. rewrite Hl.
  destruct ((b_heap st !!! l) !! lit "content") as [v|] eqn:Hc.
  - rewrite bool_decide_eq_true_2 by done.
    destruct v as [s| | |]; try done.
    rewrite ?bind_Returned, ?bind_mret, replace_uuids_closed, bind_Returned.
    unfold heap_setitem. by rewrite lookup_total_insert_eq, insert_insert_eq.
  - by rewrite bool_decide_eq_false_2 by (by intros [? ?]).
Qed.

Lemma for_each_step st ls :
  for_each process_message st ls = Returned (fold_left step ls st).
Proof.
  revert st. induction ls as [|l ls IH]; intros st; simpl; [done |].
  rewrite process_message_step. simpl. apply IH.
Qed.

Lemma step_heap st l : b_heap st ⊆ b_heap (step st l).
Proof.
  unfold step. destruct (content_of _); simpl;
    apply insert_subseteq, not_elem_of_dom, is_fresh.
Qed.

Lemma step_processed st l :
  b_processed (step st l) = b_processed st ++ [fresh (dom (b_heap st))].
Proof. unfold step. by destruct (content_of _). Qed.

Lemma step_replacer st l :
  b_replacer (step st l)
  = fold_left note
      (mjoin ((λ s, seen (finditer (pattern (b_replacer st)) s)) <$> contents (b_heap st) [l]))
      (b_replacer st).
Proof.
  unfold step, contents. simpl.
  destruct (content_of (b_heap st !!! l)); simpl; [|done].
  by rewrite app_nil_r.
Qed.

Lemma step_pattern st l : pattern (b_replacer (step st l)) = pattern (b_replacer st).
Proof. rewrite step_replacer. apply fold_note_pattern. Qed.

Lemma step_output st l :
  b_heap (step st l) !! fresh (dom (b_heap st))
  = Some (transform (b_replacer (step st l)) (b_heap st !!! l)).
Proof.
  unfold step, transform.
  destruct (content_of (b_heap st !!! l)) as [s|] eqn:Hc; simpl;
    rewrite lookup_insert_eq; [|done].
  by rewrite fold_note_pattern.
Qed.

Lemma lookup_total_weaken h h' l : h ⊆ h' → l ∈ dom h → h' !!! l = h !!! l.
Proof.
  intros Hsub [d Hd]%elem_of_dom.
  rewrite (lookup_total_correct h l d Hd).
  apply lookup_total_correct. by eapply lookup_weaken.
Qed.

Lemma contents_weaken h h' ls :
  h ⊆ h' → Forall (λ l, l ∈ dom h) ls → contents h' ls = contents h ls.
Proof.
  intros Hsub Hls. unfold contents. induction Hls as [|l ls Hl _ IH]; [done |].
  cbn [omap list_omap]. rewrite (lookup_total_weaken h h' l) by done.
  destruct (content_of (h !!! l)); by rewrite IH.
Qed.

(** The heap only grows, by fresh objects. *)
Lemma fold_step_frame ls st :
  b_heap st ⊆ b_heap (fold_left step ls st) ∧
  ∃ outs,
    b_processed (fold_left step ls st) = b_processed st ++ outs ∧
    length outs = length ls ∧
    Forall (λ l', l' ∉ dom (b_heap st)) outs.
Proof.
  revert st. induction ls as [|l ls IH]; intros st; simpl.
  - split; [done |]. exists []. by rewrite app_nil_r.
  - destruct (IH (step st l)) as (Hsub & outs & Hp & Hlen & Hfresh).
    pose proof (step_heap st l) as Hstep.
    split; [by etrans |].
    exists (fresh (dom (b_heap st)) :: outs).
    rewrite Hp, step_processed, <- app_assoc. split; [done |].
    split; [simpl; by rewrite Hlen |].
    constructor; [apply is_fresh |].
    eapply Forall_impl; [done |]. simpl. intros l' Hl' Hin. apply Hl'.
    by eapply subseteq_dom.
Qed.

Lemma transform_stable self self' d :
  pattern self' = pattern self →
  (∀ s, content_of d = Some s →
        render self' (finditer (pattern self) s) = render self (finditer (pattern self) s)) →
  transform self' d = transform self d.
Proof.
  intros Hp Hr. unfold transform. destruct (content_of d) as [s|]; [|done].
  by rewrite Hp, Hr.
Qed.

(** The loop, in closed form, for messages that are objects of the heap. *)
Lemma fold_step_spec ls st :
  Forall (λ l, l ∈ dom (b_heap st)) ls →
  b_replacer (fold_left step ls st)
  = fold_left note
      (mjoin ((λ s, seen (finditer (pattern (b_replacer st)) s)) <$> contents (b_heap st) ls))
      (b_replacer st) ∧
  ∃ outs,
    b_processed (fold_left step ls st) = b_processed st ++ outs ∧
    Forall2 (λ l l', b_heap (fold_left step ls st) !! l'
                     = Some (transform (b_replacer (fold_left step ls st)) (b_heap st !!! l)))
      ls outs.
Proof.
  revert st. induction ls as [|l ls IH]; intros st Hls; simpl.
  - split; [done |]. exists []. by rewrite app_nil_r.
  - apply Forall_cons in Hls as [Hl Hls].
    pose proof (step_heap st l) as Hstep.
    assert (Hls1 : Forall (λ l0, l0 ∈ dom (b_heap (step st l))) ls).
    { eapply Forall_impl; [done |]. intros l0 Hl0. by eapply subseteq_dom. }
    destruct (IH (step st l) Hls1) as (Hr & outs & Hp & Houts).
    rewrite step_pattern, (contents_weaken _ _ _ Hstep Hls) in Hr.
    assert (Hfinal : b_replacer (fold_left step ls (step st l))
      = fold_left note
          (mjoin ((λ s, seen (finditer (pattern (b_replacer st)) s))
                    <$> contents (b_heap st) (l :: ls)))
          (b_replacer st)).
    { rewrite Hr, step_replacer. unfold contents. simpl.
      destruct (content_of (b_heap st !!! l)); simpl; [|done].
      by rewrite app_nil_r, fold_left_app. }
    split; [done |].
    exists (fresh (dom (b_heap st)) :: outs).
    rewrite Hp, step_processed, <- app_assoc. split; [done |].
    constructor.
    + destruct (fold_step_frame ls (step st l)) as [Hsub _].
      eapply lookup_weaken; [|done]. rewrite step_output. f_equal.
      symmetry. apply transform_stable.
      * rewrite Hr. apply fold_note_pattern.
      * intros s Hs. rewrite Hr, step_pattern, step_replacer.
        unfold contents. simpl. rewrite Hs. simpl. rewrite app_nil_r.
        apply render_fold_note.
    + apply Forall2_same_length_lookup. split; [by eapply Forall2_length |].
      intros i l0 l0' Hi Hi'.
      rewrite (Forall2_lookup_lr _ _ _ _ _ _ Houts Hi Hi').
      do 2 f_equal. apply lookup_total_weaken; [done |].
      by apply (Forall_lookup_1 _ _ _ _ Hls Hi).
Qed.
End batch.

(** *** The combined mapping *)

Section mappings.
Implicit Types (d : dict) (k v : text) (self : UUIDReplacer) (st : batch).

Lemma dict_get_NoDup d k v : NoDup (keys d) → (k, v) ∈ d → dict_get d k = Some v.
Proof.
  unfold keys. induction d as [|[k' v'] d IH]; [by intros _ ?%elem_of_nil |].
  rewrite fmap_cons, NoDup_cons. simpl. intros [Hk Hd] [[= -> ->]|Hin]%elem_of_cons.
  - by rewrite decide_True.
  - rewrite decide_False; [by apply IH |].
    intros ->. apply Hk. apply list_elem_of_fmap. by exists (k, v).
Qed.

Lemma dict_update_same d l :
  (∀ k v, (k, v) ∈ l → dict_get d k = Some v) → dict_update d l = d.
Proof.
  unfold dict_update. induction l as [|[k v] l IH]; intros H; simpl; [done |].
  rewrite dict_setitem_same by (apply H; by left).
  apply IH. intros k' v' Hin. apply H. by right.
Qed.

Lemma dict_update_new d ext : NoDup (keys (d ++ ext)) → dict_update d ext = d ++ ext.
Proof.
  unfold dict_update, keys. revert d.
  induction ext as [|[k v] ext IH]; intros d Hnd; simpl; [by rewrite app_nil_r |].
  rewrite dict_setitem_new.
  - rewrite IH; [by rewrite <- app_assoc |]. by rewrite <- app_assoc.
  - apply dict_get_None_keys. unfold keys.
    rewrite fmap_app, fmap_cons in Hnd. apply NoDup_app in Hnd as (_ & Hd & _).
    intros Hin. apply (Hd k Hin). by left.
Qed.

(** Updating with a later snapshot of the same mapping gives that
    snapshot. *)
Lemma dict_update_extension d d' :
  d `prefix_of` d' → NoDup (keys d') → dict_update d d' = d'.
Proof.
  intros [ext ->] Hnd. unfold dict_update. rewrite fold_left_app.
  change (fold_left _ d d) with (dict_update d d).
  rewrite dict_update_same.
  - by apply dict_update_new.
  - intros k v Hin. apply dict_get_NoDup; [|done].
    unfold keys in *. rewrite fmap_app in Hnd. by apply NoDup_app in Hnd as [? _].
Qed.

Lemma note_NoDup self u :
  NoDup (keys (uuid_mapping self)) → NoDup (keys (uuid_mapping (note self u))).
Proof.
  unfold note. destruct (dict_contains _ _) eqn:Hc; [done |]. simpl.
  apply dict_contains_false, dict_get_None_keys in Hc.
  intros Hnd. unfold keys in *. rewrite fmap_app. simpl.
  apply NoDup_app. repeat split; [done | | apply NoDup_singleton].
  by intros x Hx ->%list_elem_of_singleton.
Qed.

Lemma fold_note_NoDup self ids :
  NoDup (keys (uuid_mapping self)) → NoDup (keys (uuid_mapping (fold_left note ids self))).
Proof.
  revert self. induction ids as [|u ids IH]; intros self Hnd; simpl; [done |].
  by apply IH, note_NoDup.
Qed.

Lemma step_mappings st l :
  NoDup (keys (uuid_mapping (b_replacer st))) →
  b_mappings st = uuid_mapping (b_replacer st) →
  NoDup (keys (uuid_mapping (b_replacer (step st l)))) ∧
  b_mappings (step st l) = uuid_mapping (b_replacer (step st l)).
Proof.
  intros Hnd Hm. unfold step. destruct (content_of _) as [s|]; simpl; [|done].
  split; [by apply fold_note_NoDup |].
  rewrite Hm. apply dict_update_extension; [apply fold_note_prefix |].
  by apply fold_note_NoDup.
Qed.

(** The combined mapping is the mapping of the shared replacer. *)
Lemma fold_step_mappings ls st :
  NoDup (keys (uuid_mapping (b_replacer st))) →
  b_mappings st = uuid_mapping (b_replacer st) →
  b_mappings (fold_left step ls st) = uuid_mapping (b_replacer (fold_left step ls st)).
Proof.
  revert st. induction ls as [|l ls IH]; intros st Hnd Hm; simpl; [done |].
  destruct (step_mappings st l Hnd Hm) as [Hnd' Hm']. by apply IH.
Qed.

Lemma transform_other_fields self (d : gmap text value) k :
  k ≠ lit "content" → transform self d !! k = d !! k.
Proof.
  intros Hk. unfold transform. destruct (content_of d); [|done].
  by rewrite lookup_insert_ne.
Qed.

Lemma transform_no_string self (d : gmap text value) :
  content_of d = None → transform self d = d.
Proof. unfold transform. by intros ->. Qed.

Lemma transform_string self (d : gmap text value) s :
  content_of d = Some s →
  transform self d !! lit "content"
  = Some (VStr (render self (finditer (pattern self) s))).
Proof. unfold transform. intros ->. by rewrite lookup_insert_eq. Qed.

(** [process_messages], in closed form. *)
Lemma process_messages_closed (h : heap) (messages : list loc) sep w :
  process_messages h messages sep w
  = Returned
      (let st := fold_left step messages
                   {| b_heap := h; b_replacer := state_of sep w [];
                      b_processed := []; b_mappings := [] |} in
       (b_heap st, b_processed st, b_mappings st)).
Proof.
  unfold process_messages. rewrite init_state_of, bind_Returned.
  by rewrite for_each_step.
Qed.
End mappings.

(** ** Scanning a text that was produced by a substitution *)

Section scan_cases.
Variables (p : regex) (c0 : ascii).
Hypothesis Hled : led_by p c0.
Hypothesis Hnil : re_match p [] = None.
Implicit Types (s r x : text) (m : Match).

Lemma re_match_other_lead c s : c ≠ c0 → re_match p (c :: s) = None.
Proof.
  intros Hc. destruct (re_match p (c :: s)) as [m|] eqn:Hm; [|done].
  destruct (Hled _ _ Hm) as (tl & Htl & _).
  apply re_match_prefix in Hm as [r Hr]. rewrite Htl in Hr. simpl in Hr. congruence.
Qed.

Lemma finditer_gap c s :
  re_match p (c :: s) = None → finditer p (c :: s) = Gap c :: finditer p s.
Proof. intros Hm. unfold finditer. simpl. by rewrite Hm. Qed.

Lemma finditer_match m r :
  re_match p (group0 m ++ r) = Some m → finditer p (group0 m ++ r) = Hit m :: finditer p r.
Proof.
  intros Hm. destruct (Hled _ _ Hm) as (tl & Htl & _).
  unfold finditer. rewrite Htl in *. simpl. simpl in Hm. rewrite Hm, Htl. simpl.
  f_equal. by apply finditer_from_skip.
Qed.

(** Induction along the scan. *)
Lemma scan_ind (P : text → Prop) :
  P [] →
  (∀ c s, re_match p (c :: s) = None → P s → P (c :: s)) →
  (∀ m r, re_match p (group0 m ++ r) = Some m → P r → P (group0 m ++ r)) →
  ∀ s, P s.
Proof.
  intros H0 Hgap Hhit s.
  remember (length s) as n eqn:Hn.
  revert s Hn. induction (lt_wf n) as [n _ IH]. intros s ->.
  destruct s as [|c s]; [done |].
  destruct (re_match p (c :: s)) as [m|] eqn:Hm.
  - destruct (Hled _ _ Hm) as (tl & Htl & _).
    pose proof Hm as [r Hr]%re_match_prefix.
    rewrite Hr in Hm |- *. apply Hhit; [done |].
    eapply IH; [|done]. apply (f_equal length) in Hr.
    rewrite Htl in Hr. rewrite length_app in Hr. simpl in *. lia.
  - apply Hgap; [done |]. eapply IH; [|done]. simpl. lia.
Qed.

(** A rendering of the tokens that copies the gaps and begins every
    replacement with the leading character. *)
Variable f : token → text.
Hypothesis Hgap : ∀ c, f (Gap c) = [c].
Hypothesis Hhit : ∀ s m, re_match p s = Some m → ∃ tl, f (Hit m) = c0 :: tl.

(** The text and its rendering agree up to the first leading character,
    which they both have or both lack. *)
Lemma lead_prefix s :
  ∃ x rest rest',
    (c0 ∉ x) ∧ s = x ++ rest ∧ mjoin (f <$> finditer p s) = x ++ rest' ∧
    ((rest = [] ∧ rest' = []) ∨ (∃ r r', rest = c0 :: r ∧ rest' = c0 :: r')).
Proof.
  induction s as [| c s Hm IH | m r Hm IH] using scan_ind.
  - exists [], [], []. rewrite finditer_nil by done.
    split; [apply not_elem_of_nil |]. by eauto.
  - rewrite finditer_gap by done. rewrite fmap_cons, Hgap. simpl.
    destruct (decide (c = c0)) as [-> | Hc].
    + exists [], (c0 :: s), (c0 :: mjoin (f <$> finditer p s)).
      split; [apply not_elem_of_nil |]. split; [done |]. split; [done |]. right. eauto.
    + destruct IH as (x & rest & rest' & Hx & -> & -> & Hrest).
      exists (c :: x), rest, rest'.
      split; [by apply not_elem_of_cons |]. done.
  - rewrite finditer_match by done. rewrite fmap_cons. simpl.
    destruct (Hled _ _ Hm) as (tl & -> & _).
    destruct (Hhit _ _ Hm) as (tl' & ->).
    exists [], (c0 :: tl ++ r), (c0 :: tl' ++ mjoin (f <$> finditer p r)).
    split; [apply not_elem_of_nil |]. split; [done |]. split; [done |]. right. eauto.
Qed.

(** So a match of a pattern with the same leading character that begins at
    a copied occurrence of this character in the rendering is a match at the
    same place of the text. *)
Variable q : regex.
Hypothesis Hq : led_by q c0.

Lemma re_match_rendered s m :
  re_match q (c0 :: mjoin (f <$> finditer p s)) = Some m → re_match q (c0 :: s) = Some m.
Proof.
  destruct (lead_prefix s) as (x & rest & rest' & Hx & -> & -> & [[-> ->] | (r & r' & -> & ->)]);
    [done |].
  intros Hm.
  change (c0 :: x ++ c0 :: r') with ((c0 :: x) ++ c0 :: r') in Hm.
  change (c0 :: x ++ c0 :: r) with ((c0 :: x) ++ c0 :: r).
  apply (re_match_app_l q). apply (re_match_app_inv q _ (c0 :: r')); [done |].
  by apply (re_match_before_lead q c0 Hq _ r').
Qed.
End scan_cases.

(** ** The cleaned text, for the four bracket pairs *)

Section rendered.
Implicit Types (sep s T g u d : text) (ids : list text) (w : Z) (p q : regex).

Lemma bracket_chars sep :
  bracket sep →
  ∃ c0 c1, sep = [c0] ∧ closing sep = [c1] ∧ c0 ≠ c1 ∧
           is_hex c0 = false ∧ is_hex c1 = false ∧
           c0 ≠ "-"%char ∧ c1 ≠ "-"%char ∧
           is_digit c0 = false ∧ is_digit c1 = false.
Proof. intros [-> | [-> | [-> | ->]]]; by eexists _, _. Qed.

Lemma hex_run_chars n s c : hex_run n s → c ∈ s → is_hex c = true.
Proof. intros [_ Hs] Hc. rewrite Forall_forall in Hs. by apply Hs. Qed.

Lemma uuid_shaped_chars u c : uuid_shaped u → c ∈ u → is_hex c = true ∨ c = "-"%char.
Proof.
  intros (a & b & c' & d & e & -> & Ha & Hb & Hc & Hd & He).
  rewrite !elem_of_app. unfold lit. simpl. rewrite !list_elem_of_singleton.
  intros [?|[?|[?|[?|[?|[?|[?|[?|?]]]]]]]]; eauto using hex_run_chars.
Qed.

Lemma uuid_shaped_dash u : uuid_shaped u → u !! 8%nat = Some "-"%char.
Proof.
  intros (a & b & c' & d & e & -> & [Ha _] & _).
  rewrite lookup_app_r by lia. by rewrite Ha.
Qed.

Lemma uuid_shaped_not_digits u : uuid_shaped u → ¬ Forall (λ c, is_digit c = true) u.
Proof.
  intros Hu%uuid_shaped_dash Hd. rewrite Forall_lookup in Hd. by apply Hd in Hu.
Qed.

Lemma app_first_occurrence (c : ascii) (l1 r1 l2 r2 : text) :
  l1 ++ c :: r1 = l2 ++ c :: r2 → c ∉ l1 → c ∉ l2 → l1 = l2 ∧ r1 = r2.
Proof.
  revert l2. induction l1 as [|a l1 IH]; intros [|b l2] Heq H1 H2; simplify_eq/=.
  - done.
  - exfalso. apply H2. by left.
  - exfalso. apply H1. by left.
  - apply not_elem_of_cons in H1 as [_ H1]. apply not_elem_of_cons in H2 as [_ H2].
    destruct (IH l2) as [-> ->]; done.
Qed.

Lemma uuid_pattern_led_by sep :
  bracket sep →
  ∃ c0, sep = [c0]
        ∧ led_by {| re_open := sep; re_body := uuid_pattern; re_close := closing sep |} c0.
Proof.
  intros (c0 & c1 & Hsep & Hclose & Hne & Hh0 & _ & Hd0 & _)%bracket_chars.
  exists c0. split; [done |].
  intros s m (g & r & _ & Hacc & ->)%re_match_spec.
  apply accepts_uuid_pattern in Hacc.
  cbn [group0 span_of re_open re_close]. rewrite Hclose, Hsep.
  exists (g ++ [c1]). split; [done |].
  intros [Hin|Hin%list_elem_of_singleton]%elem_of_app; [|done].
  destruct (uuid_shaped_chars _ _ Hacc Hin); congruence.
Qed.

Lemma quiet_cons_intro p c pre rest :
  re_match p (c :: pre ++ rest) = None → quiet p pre rest → quiet p (c :: pre) rest.
Proof.
  intros H0 Hq [|i] Hi; [done |]. simpl. apply Hq. simpl in Hi. lia.
Qed.

Lemma quiet_no_lead p c0 pre rest :
  led_by p c0 → re_match p [] = None → c0 ∉ pre → (rest = [] ∨ ∃ c r, rest = c :: r) →
  quiet p pre rest.
Proof.
  intros Hled Hnil. induction pre as [|c pre IH]; intros Hpre Hrest.
  - intros i Hi. simpl in Hi. lia.
  - apply not_elem_of_cons in Hpre as [Hc Hpre].
    apply quiet_cons_intro; [|by apply IH].
    by apply (re_match_other_lead p c0).
Qed.

Lemma quiet_no_match p pre rest :
  quiet p pre rest → (∀ i, re_match p (drop i rest) = None) →
  ∀ i, re_match p (drop i (pre ++ rest)) = None.
Proof.
  intros Hq Hrest i. destruct (decide (i < length pre)%nat).
  - rewrite drop_app_le by lia. by apply Hq.
  - rewrite drop_app_ge by lia. apply Hrest.
Qed.

(** What an identifier of the mapping is rendered as. *)
Lemma assign_get w ids u :
  u ∈ ids →
  ∃ n, 0 <= n ∧ dict_get (assign w ids) u = Some (placeholder w n).
Proof.
  intros Hu.
  destruct (proj2 (dict_get_keys (assign w ids) u)) as [ph Hph]; [by rewrite keys_assign |].
  pose proof (dict_get_elem_of _ _ _ Hph) as (i & _ & ->)%elem_of_assign_from.
  exists (0 + Z.of_nat i). split; [lia | done].
Qed.

Lemma render_token_state_of sep w ids g :
  uuid_shaped g → g ∈ ids →
  ∃ n, 0 <= n ∧ dict_get (assign w ids) g = Some (placeholder w n) ∧
       render_token (state_of sep w ids)
         (Hit (span_of {| re_open := sep; re_body := uuid_pattern; re_close := closing sep |} g))
       = sep ++ placeholder w n ++ closing sep.
Proof.
  intros Hg Hin. destruct (assign_get w ids g Hin) as (n & Hn & Hget).
  exists n. split; [done |]. split; [done |].
  unfold render_token, state_of. cbn [group1 span_of uuid_mapping]. simpl.
  by rewrite uuid_shaped_valid, Hget.
Qed.

Lemma render_cons self t ts : render self (t :: ts) = render_token self t ++ render self ts.
Proof. done. Qed.

Lemma findall_gap p c0 c s :
  led_by p c0 → re_match p (c :: s) = None → findall p (c :: s) = findall p s.
Proof. intros Hled Hm. unfold findall. by rewrite (finditer_gap p c s Hm). Qed.

Lemma findall_match p c0 m r :
  led_by p c0 → re_match p (group0 m ++ r) = Some m →
  findall p (group0 m ++ r) = group1 m :: findall p r.
Proof. intros Hled Hm. unfold findall. by rewrite (finditer_match p c0 Hled m r Hm). Qed.

Lemma render_token_lead sep w ids c0 s m :
  let p := {| re_open := sep; re_body := uuid_pattern; re_close := closing sep |} in
  sep = [c0] → led_by p c0 → re_match p s = Some m →
  ∃ tl, render_token (state_of sep w ids) (Hit m) = c0 :: tl.
Proof.
  intros p Hsep Hled Hm. destruct (Hled _ _ Hm) as (tl & Htl & _).
  unfold render_token, state_of. simpl.
  destruct (valid_uuid (group1 m)); [|by eauto].
  destruct (dict_get (assign w ids) (group1 m)); [|by eauto].
  rewrite Hsep. by eauto.
Qed.

(** No identifier between the delimiters is left in the cleaned text. *)
Lemma render_match_free sep w ids T :
  let p := {| re_open := sep; re_body := uuid_pattern; re_close := closing sep |} in
  bracket sep →
  (∀ u, u ∈ findall p T → u ∈ ids) →
  ∀ i, re_match p (drop i (render (state_of sep w ids) (finditer p T))) = None.
Proof.
  intros p Hb.
  destruct (uuid_pattern_led_by sep Hb) as (c0 & Hsep & Hled). fold p in Hled.
  destruct (bracket_chars sep Hb) as (c0' & c1 & Hsep' & Hclose & Hne & _ & _ & _ & _ & Hd0 & Hd1).
  assert (c0' = c0) as -> by congruence.
  assert (Hnil : re_match p [] = None) by apply re_match_uuid_nil.
  induction T as [| c s Hm IH | m r Hm IH] using (scan_ind p c0 Hled); intros Hids.
  - rewrite finditer_nil by done. intros i. unfold render. simpl. by rewrite drop_nil.
  - rewrite (finditer_gap p c s Hm), render_cons.
    rewrite (findall_gap p c0 c s Hled Hm) in Hids. specialize (IH Hids).
    intros [|i]; [|apply IH]. simpl.
    destruct (decide (c = c0)) as [-> | Hc]; [|by apply (re_match_other_lead p c0)].
    destruct (re_match p (c0 :: render (state_of sep w ids) (finditer p s))) as [m|] eqn:Hm';
      [|done].
    apply (re_match_rendered p c0 Hled Hnil (render_token (state_of sep w ids))) in Hm';
      [congruence | done | | done].
    intros s' m'. by apply render_token_lead.
  - rewrite (finditer_match p c0 Hled m r Hm), render_cons.
    rewrite (findall_match p c0 m r Hled Hm) in Hids.
    pose proof Hm as (g & r' & _ & Hacc%accepts_uuid_pattern & ->)%re_match_spec.
    destruct (render_token_state_of sep w ids g Hacc) as (n & Hn & _ & Hr).
    { apply Hids. by left. }
    fold p in Hr. rewrite Hr.
    assert (IH' : ∀ i, re_match p (drop i (render (state_of sep w ids) (finditer p r))) = None).
    { apply IH. intros u Hu. apply Hids. by right. }
    replace (sep ++ placeholder w n ++ closing sep)
      with (c0 :: placeholder w n ++ [c1]) by (by rewrite Hclose, Hsep).
    apply quiet_no_match; [|done].
    assert (Hdig : Forall (λ c, is_digit c = true) (placeholder w n))
      by (by apply zfill_str_int_all_digits).
    apply quiet_cons_intro.
    + match goal with |- ?x = None => destruct x as [m'|] eqn:Hm' end; [|done]. exfalso.
      apply re_match_spec in Hm' as (g' & r'' & Heq & Hacc'%accepts_uuid_pattern & _).
      cbn [re_open re_close p] in Heq. rewrite Hclose, Hsep in Heq.
      rewrite <- !app_assoc in Heq. simpl in Heq.
      injection Heq as Heq. apply app_first_occurrence in Heq as [Heq _].
      * apply (uuid_shaped_not_digits g'); [done |]. by rewrite <- Heq.
      * intros Hin. rewrite Forall_forall in Hdig. apply Hdig in Hin. congruence.
      * intros Hin. destruct (uuid_shaped_chars _ _ Hacc' Hin) as [Hh | ->].
        -- destruct (bracket_chars sep Hb) as (? & ? & ? & ? & _ & _ & ? & _).
           congruence.
        -- destruct (bracket_chars sep Hb) as (? & ? & ? & ? & _ & _ & _ & _ & ? & _).
           congruence.
    + apply (quiet_no_lead p c0); [done | done | |].
      * intros [Hin | Hin%list_elem_of_singleton]%elem_of_app; [|done].
        rewrite Forall_forall in Hdig. apply Hdig in Hin. congruence.
      * destruct (render _ _); eauto.
Qed.
End rendered.

Section bracket_spans.
Implicit Types (sep pre g post T : text).

(** With a bracket pair, a delimited identifier is a match of the scan
    wherever it stands. *)
Lemma finditer_bracket_span sep pre g post :
  let p := {| re_open := sep; re_body := uuid_pattern; re_close := closing sep |} in
  bracket sep → uuid_shaped g →
  finditer p (pre ++ sep ++ g ++ closing sep ++ post)
  = finditer p pre ++ Hit (span_of p g) :: finditer p post.
Proof.
  intros p Hb Hg.
  destruct (uuid_pattern_led_by sep Hb) as (c0 & Hsep & Hled). fold p in Hled.
  pose proof (finditer_hit p g post) as Hhit.
  cbn [re_open re_close re_body p] in Hhit.
  rewrite <- Hhit; [| by apply accepts_uuid_pattern | by rewrite Hsep].
  rewrite Hsep at 1 3. simpl.
  apply (finditer_app_lead p c0 Hled). apply re_match_uuid_nil.
Qed.

Lemma findall_bracket_span sep pre g post :
  let p := {| re_open := sep; re_body := uuid_pattern; re_close := closing sep |} in
  bracket sep → uuid_shaped g →
  g ∈ findall p (pre ++ sep ++ g ++ closing sep ++ post).
Proof.
  intros p Hb Hg. unfold findall.
  pose proof (finditer_bracket_span sep pre g post Hb Hg) as Hts. fold p in Hts.
  rewrite Hts. apply list_elem_of_omap. exists (Hit (span_of p g)).
  split; [|done]. apply elem_of_app. right. by left.
Qed.
End bracket_spans.

(** ** Restoring the cleaned text *)

Section restored.
Implicit Types (sep s T g u d : text) (ids : list text) (w : Z).

Lemma restore_cons sep mapping t ts :
  mjoin (restore_token sep mapping <$> t :: ts)
  = restore_token sep mapping t ++ mjoin (restore_token sep mapping <$> ts).
Proof. done. Qed.

Lemma restore_rendered sep w ids T :
  let p := {| re_open := sep; re_body := uuid_pattern; re_close := closing sep |} in
  bracket sep → 1 <= w → Z.of_nat (length ids) <= 10 ^ w →
  (∀ u, u ∈ findall p T → u ∈ ids) →
  (∀ i, re_match (digit_pattern sep w) (drop i T) = None) →
  mjoin (restore_token sep (assign w ids)
           <$> finditer (digit_pattern sep w) (render (state_of sep w ids) (finditer p T)))
  = T.
Proof.
  intros p Hb Hw Hlen.
  destruct (uuid_pattern_led_by sep Hb) as (c0 & Hsep & Hled). fold p in Hled.
  destruct (digit_pattern_led_by sep w Hb) as (c0' & Hsep' & Hledq); [lia |].
  assert (c0' = c0) as -> by congruence.
  assert (Hnil : re_match p [] = None) by apply re_match_uuid_nil.
  assert (Hnilq : re_match (digit_pattern sep w) [] = None) by (by apply re_match_digit_nil).
  induction T as [| c s Hm IH | m r Hm IH] using (scan_ind p c0 Hled); intros Hids Hfree.
  - rewrite (finditer_nil p) by done. unfold render. simpl. by rewrite finditer_nil.
  - rewrite (finditer_gap p c s Hm), render_cons.
    rewrite (findall_gap p c0 c s Hled Hm) in Hids.
    assert (Hgap : re_match (digit_pattern sep w)
                     (c :: render (state_of sep w ids) (finditer p s)) = None).
    { destruct (decide (c = c0)) as [-> | Hc];
        [|by apply (re_match_other_lead (digit_pattern sep w) c0)].
      match goal with |- ?x = None => destruct x as [m'|] eqn:Hm' end; [|done].
      apply (re_match_rendered p c0 Hled Hnil (render_token (state_of sep w ids))) in Hm';
        [| done | | done].
      - specialize (Hfree 0%nat). simpl in Hfree. congruence.
      - intros s' m''. by apply render_token_lead. }
    simpl. rewrite (finditer_gap _ _ _ Hgap), restore_cons. simpl.
    f_equal. apply IH; [done |]. intros i. apply (Hfree (S i)).
  - rewrite (finditer_match p c0 Hled m r Hm), render_cons.
    rewrite (findall_match p c0 m r Hled Hm) in Hids.
    pose proof Hm as (g & r' & _ & Hacc%accepts_uuid_pattern & Hmg)%re_match_spec.
    assert (Hg : g ∈ ids) by (apply Hids; rewrite Hmg; by left).
    destruct (assign_lookup w ids g Hw Hlen) as (ph & Hget & Hrun & Hid).
    { by rewrite keys_assign. }
    assert (Hr : render_token (state_of sep w ids) (Hit m) = sep ++ ph ++ closing sep).
    { rewrite Hmg. unfold render_token, state_of. cbn [group1 span_of uuid_mapping]. simpl.
      by rewrite uuid_shaped_valid, Hget. }
    rewrite Hr.
    pose proof (finditer_hit (digit_pattern sep w) ph
                  (render (state_of sep w ids) (finditer p r))) as Hhit.
    cbn [re_open re_close re_body digit_pattern] in Hhit.
    rewrite <- !app_assoc. rewrite Hhit; cycle 1.
    { apply accepts_digit_group; [lia | done]. }
    { rewrite Hsep. done. }
    rewrite restore_cons. unfold restore_token at 1. cbn [group1 span_of]. rewrite Hid.
    rewrite IH.
    + rewrite Hmg. cbn [group0 span_of re_open re_close p]. by rewrite <- !app_assoc.
    + intros u Hu. apply Hids. by right.
    + intros i. specialize (Hfree (length (group0 m) + i)%nat).
      by rewrite drop_app_add in Hfree.
Qed.
End restored.

(** ** Further facts about mappings, counters and batches *)

Section mapping_laws.
Implicit Types (d o : dict) (k v u : text) (self : UUIDReplacer) (ids us : list text) (w : Z).

Lemma note_counter self u :
  counter (note self u) - Z.of_nat (length (uuid_mapping (note self u)))
  = counter self - Z.of_nat (length (uuid_mapping self)).
Proof.
  unfold note. destruct (dict_contains (uuid_mapping self) u); [done |].
  simpl. rewrite length_app. simpl. lia.
Qed.

Lemma fold_note_counter self ids :
  counter (fold_left note ids self)
  - Z.of_nat (length (uuid_mapping (fold_left note ids self)))
  = counter self - Z.of_nat (length (uuid_mapping self)).
Proof.
  revert self. induction ids as [|u ids IH]; intros self; simpl; [done |].
  by rewrite IH, note_counter.
Qed.

Lemma keys_dict_setitem d k v :
  keys (dict_setitem d k v) = if decide (k ∈ keys d) then keys d else keys d ++ [k].
Proof.
  unfold keys. induction d as [|[k' v'] d IH]; cbn [dict_setitem].
  - destruct (decide (k ∈ [])) as [?%elem_of_nil|]; done.
  - destruct (decide (k' = k)) as [-> | Hne]; rewrite !fmap_cons; cbn [fst].
    + rewrite decide_True; [done | by left].
    + rewrite IH. destruct (decide (k ∈ d.*1)) as [Hin | Hin].
      * rewrite decide_True; [done | by right].
      * rewrite decide_False; [done |].
        intros [? | ?]%elem_of_cons; congruence.
Qed.

Lemma keys_dict_update d o k : k ∈ keys d → k ∈ keys (dict_update d o).
Proof.
  unfold dict_update. revert d. induction o as [|[k' v'] o IH]; intros d Hk; simpl; [done |].
  apply IH. rewrite keys_dict_setitem.
  destruct (decide (k' ∈ keys d)); [done |]. apply elem_of_app. by left.
Qed.

Lemma dict_get_update d o k :
  NoDup (keys o) →
  dict_get (dict_update d o) k
  = match dict_get o k with Some v => Some v | None => dict_get d k end.
Proof.
  unfold dict_update. revert d. induction o as [|[k' v'] o IH]; intros d Hnd; simpl; [done |].
  unfold keys in Hnd. rewrite fmap_cons in Hnd. apply NoDup_cons in Hnd as [Hk' Hnd].
  rewrite IH by done. rewrite dict_get_setitem.
  destruct (decide (k' = k)) as [-> | Hne]; [|done].
  by rewrite (proj2 (dict_get_None_keys o k)).
Qed.

Lemma first_seen_from_prefix (acc : list text) us : acc `prefix_of` first_seen_from acc us.
Proof.
  unfold first_seen_from. revert acc. induction us as [|u us IH]; intros acc; simpl; [done |].
  destruct (decide (u ∈ acc)); [apply IH |].
  etrans; [|apply IH]. by apply prefix_app_r.
Qed.

Lemma assign_from_app w n ids ids' :
  assign_from w n (ids ++ ids')
  = assign_from w n ids ++ assign_from w (n + Z.of_nat (length ids)) ids'.
Proof.
  revert n. induction ids as [|u ids IH]; intros n; simpl.
  - by rewrite Z.add_0_r.
  - rewrite IH. do 3 f_equal. lia.
Qed.

Lemma assign_prefix w ids ids' : ids `prefix_of` ids' → assign w ids `prefix_of` assign w ids'.
Proof. intros [ext ->]. unfold assign. rewrite assign_from_app. by apply prefix_app_r. Qed.

Lemma first_seen_NoDup us : NoDup (first_seen us).
Proof. apply first_seen_from_NoDup. constructor. Qed.

Lemma assign_first_seen_head w u us :
  dict_get (assign w (first_seen (u :: us))) u = Some (placeholder w 0).
Proof.
  unfold first_seen, first_seen_from. simpl.
  destruct (decide (u ∈ [])) as [?%elem_of_nil|_]; [done |]. simpl.
  destruct (first_seen_from_prefix [u] us) as [ext Hext].
  unfold first_seen_from in Hext. rewrite Hext. unfold assign. simpl.
  by rewrite decide_True.
Qed.

(** The length of the cleaned text. *)
Lemma render_length sep w ids (ts : list token) :
  let p := {| re_open := sep; re_body := uuid_pattern; re_close := closing sep |} in
  1 <= w → Z.of_nat (length ids) <= 10 ^ w →
  (∀ m, Hit m ∈ ts → ∃ g, uuid_shaped g ∧ g ∈ ids ∧ m = span_of p g) →
  Z.of_nat (length (mjoin (raw <$> ts)))
  = Z.of_nat (length (render (state_of sep w ids) ts))
    + (36 - w) * Z.of_nat (length (seen ts)).
Proof.
  intros p Hw Hlen. induction ts as [|t ts IH]; intros Hts; [unfold render; simpl; lia |].
  rewrite render_cons, fmap_cons, length_app. simpl mjoin. rewrite length_app.
  rewrite !Nat2Z.inj_add. rewrite IH; [|intros m Hm; apply Hts; by right].
  destruct t as [c|m]; [simpl; lia |].
  destruct (Hts m) as (g & Hg & Hin & ->); [by left |].
  destruct (assign_lookup w ids g Hw Hlen) as (ph & Hget & [Hrun _] & _).
  { by rewrite keys_assign. }
  assert (Hs : seen (Hit (span_of p g) :: ts) = g :: seen ts)
    by (unfold seen; simpl; by rewrite uuid_shaped_valid).
  rewrite Hs. cbn [length].
  unfold render_token, state_of. cbn [group1 span_of uuid_mapping raw group0]. simpl.
  rewrite uuid_shaped_valid, Hget by done.
  rewrite !length_app, Hrun, (uuid_shaped_length g) by done. lia.
Qed.
End mapping_laws.

Section batch_mapping.
Implicit Types (h : heap) (ms : list loc) (w : Z).

(** The result of [process_messages] on live messages. *)
Lemma process_messages_mapping h ms (sep0 : text) w :
  let p := {| re_open := sep0; re_body := uuid_pattern; re_close := closing sep0 |} in
  let ids := first_seen (mjoin (findall p <$> contents h ms)) in
  Forall (λ l, l ∈ dom h) ms →
  ∃ h' outs,
    process_messages h ms sep0 w = Returned (h', outs, assign w ids) ∧
    h ⊆ h' ∧
    Forall (λ l', l' ∉ dom h) outs ∧
    Forall2 (λ l l', h' !! l' = Some (transform (state_of sep0 w ids) (h !!! l))) ms outs.
Proof.
  intros p ids Hls. rewrite process_messages_closed.
  set (st0 := {| b_heap := h; b_replacer := state_of sep0 w [];
                 b_processed := []; b_mappings := [] |}).
  destruct (fold_step_spec ms st0 Hls) as (Hr & outs & Hp & Houts).
  destruct (fold_step_frame ms st0) as (Hsub & outs' & Hp' & _ & Hfresh).
  pose proof (fold_step_mappings ms st0 (NoDup_nil_2 : NoDup (keys [])) eq_refl) as Hm.
  assert (Hself : b_replacer (fold_left step ms st0) = state_of sep0 w ids).
  { rewrite Hr. simpl. rewrite fold_note_state_of. unfold ids, first_seen. do 3 f_equal.
    apply list_fmap_ext. intros i s _. apply seen_findall. }
  assert (outs' = outs) as -> by (rewrite Hp in Hp'; by simplify_list_eq).
  exists (b_heap (fold_left step ms st0)), outs.
  cbv zeta. rewrite Hp, Hm, Hself. simpl.
  split; [done |]. split; [done |]. split; [done |].
  by rewrite Hself in Houts.
Qed.
End batch_mapping.

(** ** The wrapper around the chat client *)

Section client_laws.
Context {Client : Type}.
Implicit Types (self : PromptCleanerClient Client) (h : heap) (kw : kwargs) (ms : list loc).

Lemma process_kwargs_no_messages self h kw :
  kw_messages kw = None →
  _process_chat_completion_kwargs self h kw = Returned (kw, self, h).
Proof. intros Hkw. unfold _process_chat_completion_kwargs. by rewrite Hkw. Qed.

Lemma process_kwargs_messages self h kw ms :
  let p := {| re_open := pcc_sep self; re_body := uuid_pattern;
              re_close := closing (pcc_sep self) |} in
  let M := assign (pcc_nr_digits self) (first_seen (mjoin (findall p <$> contents h ms))) in
  kw_messages kw = Some ms →
  Forall (λ l, l ∈ dom h) ms →
  ∃ h' outs,
    process_messages h ms (pcc_sep self) (pcc_nr_digits self) = Returned (h', outs, M) ∧
    _process_chat_completion_kwargs self h kw
    = Returned (set_messages kw outs,
                set_pcc_uuid_mappings self (dict_update (pcc_uuid_mappings self) M), h') ∧
    h ⊆ h' ∧
    Forall (λ l', l' ∉ dom h) outs.
Proof.
  intros p M Hkw Hls.
  destruct (process_messages_mapping h ms (pcc_sep self) (pcc_nr_digits self) Hls)
    as (h' & outs & Hrun & Hsub & Hfresh & _).
  exists h', outs. split; [exact Hrun |]. split; [|done].
  unfold _process_chat_completion_kwargs. rewrite Hkw, Hrun. by rewrite bind_Returned.
Qed.

Lemma keys_assign_first_seen_NoDup w (us : list text) : NoDup (keys (assign w (first_seen us))).
Proof. rewrite keys_assign. apply first_seen_NoDup. Qed.

Lemma contents_app h ms ms' : contents h (ms ++ ms') = contents h ms ++ contents h ms'.
Proof. unfold contents. apply omap_app. Qed.
End client_laws.

(** * The claims *)

(** C9. Placeholder generation never truncates: for a counter value
    [n >= 0] the generated placeholder is the decimal numeral of [n] with zeros
    added on the left up to the width [nr_digits]; it reads back as [n], it is
    [max nr_digits (len (str n))] characters long, hence longer than
    [nr_digits] as soon as [n >= 10^nr_digits], and two counter values with
    the same placeholder are equal; so the placeholders of any number of
    identifiers are pairwise distinct.  The call also advances the counter
    by one and touches nothing else. *)
Theorem generate_replacement_widens (self : UUIDReplacer) :
  0 <= counter self →
  (_generate_replacement self).2 = set_counter self (counter self + 1) ∧
  (_generate_replacement self).1
  = repeat "0"%char (Z.to_nat (nr_digits self - Z.of_nat (length (str_int (counter self)))))
    ++ str_int (counter self) ∧
  Forall (λ c, is_digit c = true) (str_int (counter self)) ∧
  dec_value (str_int (counter self)) = counter self ∧
  dec_value (_generate_replacement self).1 = counter self ∧
  Z.of_nat (length (_generate_replacement self).1)
  = Z.max (nr_digits self) (Z.of_nat (length (str_int (counter self)))) ∧
  (0 <= nr_digits self → 10 ^ nr_digits self <= counter self →
   nr_digits self < Z.of_nat (length (_generate_replacement self).1)) ∧
  (∀ other,
     0 <= counter other → nr_digits other = nr_digits self →
     (_generate_replacement other).1 = (_generate_replacement self).1 →
     counter other = counter self) ∧
  (∀ ids, NoDup (values (assign (nr_digits self) ids))).
Proof.
  intros Hn. unfold _generate_replacement. simpl.
  split; [done |].
  split; [by apply zfill_str_int |].
  split; [by apply str_int_all_digits |].
  split; [by apply str_int_value |].
  split; [by apply zfill_str_int_value |].
  split; [by apply zfill_str_int_length |].
  split; [intros; by apply zfill_str_int_wider |].
  split; [|intros; apply assign_values_NoDup].
  intros other Hother Hw Heq. rewrite Hw in Heq.
  by apply zfill_str_int_inj in Heq.
Qed.

(** The hundred-and-first placeholder at width 2 is ["100"]. *)
Lemma generate_replacement_widens_witness :
  0 <= counter (set_counter (state_of (lit "[") 2 []) 100) ∧
  (_generate_replacement (set_counter (state_of (lit "[") 2 []) 100)).1 = lit "100" ∧
  dec_value (_generate_replacement (set_counter (state_of (lit "[") 2 []) 100)).1 = 100.
Proof.
  split; [done |]. split; [reflexivity |].
  apply (generate_replacement_widens (set_counter (state_of (lit "[") 2 []) 100)).
  done.
Defined.

(** C3. Determinism: from every replacer state and for every text, a
    call of [replace_uuids] returns, and a second call on the same text, made
    on the state the first one left, returns the same text and the same
    mapping and leaves that state (mapping and counter) as it was. *)
Theorem replace_uuids_twice (S0 : UUIDReplacer) (T : text) :
  ∃ out M S1,
    replace_uuids S0 T = Returned (out, M, S1) ∧
    replace_uuids S1 T = Returned (out, M, S1) ∧
    M = uuid_mapping S1.
Proof.
  eexists _, _, _. split; [apply replace_uuids_closed |]. split; [|done].
  rewrite replace_uuids_closed, fold_note_pattern, fold_note_idem. done.
Qed.

(** C2. Over any sequence of [replace_uuids] calls on one fresh
    instance: the mapping holds the distinct identifiers found, in the order
    in which they were first seen, the [i]-th of them with the placeholder
    [str(i).zfill(nr_digits)]; the counter is their number; two distinct
    identifiers never share a placeholder; every output is its text with
    each occurrence of an identifier rendered under this one final mapping;
    and a further call on a text whose identifiers are all mapped already
    returns that rendering and leaves mapping and counter untouched. *)
Theorem replace_each_first_seen (sep : text) (w : Z) (texts : list text) :
  ∃ self0 outs self,
    UUIDReplacer_init sep w = Returned self0 ∧
    replace_each self0 texts = Returned (outs, self) ∧
    uuid_mapping self
    = assign w (first_seen (mjoin (findall (pattern self0) <$> texts))) ∧
    keys (uuid_mapping self) = first_seen (mjoin (findall (pattern self0) <$> texts)) ∧
    NoDup (keys (uuid_mapping self)) ∧
    values (uuid_mapping self)
    = (λ n, zfill (str_int n) w) <$> seqZ 0 (Z.of_nat (length (uuid_mapping self))) ∧
    counter self = Z.of_nat (length (uuid_mapping self)) ∧
    (∀ u1 p1 u2 p2,
       (u1, p1) ∈ uuid_mapping self → (u2, p2) ∈ uuid_mapping self →
       u1 ≠ u2 → p1 ≠ p2) ∧
    Forall2 (λ t out, out = render self (finditer (pattern self) t)) texts outs ∧
    (∀ t,
       (∀ u, u ∈ findall (pattern self) t → u ∈ keys (uuid_mapping self)) →
       replace_uuids self t
       = Returned (render self (finditer (pattern self) t), uuid_mapping self, self)).
Proof.
  set (p := {| re_open := sep; re_body := uuid_pattern; re_close := closing sep |}).
  set (ids := first_seen (mjoin (findall p <$> texts))).
  destruct (replace_each_closed (state_of sep w []) texts) as (outs & Hrun & Houts).
  assert (Hfinal :
    fold_left note (mjoin ((λ t, seen (finditer (pattern (state_of sep w [])) t)) <$> texts))
      (state_of sep w []) = state_of sep w ids).
  { rewrite fold_note_state_of. unfold ids, first_seen. do 3 f_equal.
    apply list_fmap_ext. intros i t _. apply seen_findall. }
  rewrite Hfinal in Hrun, Houts.
  exists (state_of sep w []), outs, (state_of sep w ids).
  split; [done |]. split; [done |]. simpl. fold p.
  split; [done |].
  split; [apply keys_assign |].
  split; [rewrite keys_assign; by apply first_seen_from_NoDup, NoDup_nil |].
  split; [rewrite length_assign; apply values_assign_from |].
  split; [by rewrite length_assign |].
  split; [apply assign_injective |].
  split; [done |].
  intros t Ht. rewrite replace_uuids_closed. simpl. fold p.
  rewrite fold_note_known; [done |].
  intros u Hu. simpl. apply dict_get_keys, Ht.
  unfold p in *. by rewrite <- seen_findall.
Qed.

(** Two calls that share an identifier. *)
Lemma replace_each_first_seen_witness :
  ∃ self0 outs self,
    UUIDReplacer_init (lit "[") 2 = Returned self0 ∧
    replace_each self0
      [lit "UUID1: [550e8400-e29b-41d4-a716-446655440000] UUID2: [6ba7b810-9dad-11d1-80b4-00c04fd430c8]";
       lit "Got UUID: [550e8400-e29b-41d4-a716-446655440000]"]
    = Returned (outs, self) ∧
    uuid_mapping self
    = [(lit "550e8400-e29b-41d4-a716-446655440000", lit "00");
       (lit "6ba7b810-9dad-11d1-80b4-00c04fd430c8", lit "01")] ∧
    outs = [lit "UUID1: [00] UUID2: [01]"; lit "Got UUID: [00]"].
Proof.
  destruct (replace_each_first_seen (lit "[") 2
    [lit "UUID1: [550e8400-e29b-41d4-a716-446655440000] UUID2: [6ba7b810-9dad-11d1-80b4-00c04fd430c8]";
     lit "Got UUID: [550e8400-e29b-41d4-a716-446655440000]"])
    as (self0 & outs & self & Hinit & Hrun & Hmap & _).
  exists self0, outs, self. split; [exact Hinit |]. split; [exact Hrun |].
  injection Hinit as <-.
  split; [rewrite Hmap; by vm_compute |].
  vm_compute in Hrun. by injection Hrun as <- _.
Defined.

(** C4. Pass-through: a text that holds no span [sep + u + close_sep]
    with [u] of the 8-4-4-4-12 hexadecimal shape is returned as it is by
    [clean_prompt], with an empty mapping. *)
Theorem clean_prompt_pass_through (T sep : text) (w : Z) :
  (∀ pre u post, T = pre ++ sep ++ u ++ closing sep ++ post → ¬ uuid_shaped u) →
  clean_prompt T sep w = Returned (T, []).
Proof.
  intros Hno. unfold clean_prompt. rewrite init_state_of. simpl.
  rewrite replace_uuids_closed. simpl.
  rewrite finditer_no_match.
  - by rewrite seen_gaps, render_gaps.
  - apply no_span_match_free. simpl. intros pre g post -> Hacc%accepts_uuid_pattern.
    by eapply Hno.
Qed.

Lemma clean_prompt_pass_through_witness :
  (∀ pre u post,
     lit "Hello [not-a-valid-uuid] world" = pre ++ lit "[" ++ u ++ closing (lit "[") ++ post →
     ¬ uuid_shaped u) ∧
  clean_prompt (lit "Hello [not-a-valid-uuid] world") (lit "[") 2
  = Returned (lit "Hello [not-a-valid-uuid] world", []).
Proof.
  assert (∀ pre u post,
     lit "Hello [not-a-valid-uuid] world" = pre ++ lit "[" ++ u ++ closing (lit "[") ++ post →
     ¬ uuid_shaped u) as H.
  { intros pre u post Heq Hu%accepts_uuid_pattern.
    by apply (match_free_no_span
                {| re_open := lit "["; re_body := uuid_pattern; re_close := closing (lit "[") |}
                _ pre u post) in Heq. }
  split; [exact H |].
  exact (clean_prompt_pass_through _ _ 2 H).
Defined.

(** C8, the claim as stated, fails where the two spellings share a
    delimiter: with a separator that closes with itself, both spellings
    stand between delimiters in ["|u|U|"], but the scan takes the delimiter
    after the first for its closing one, so only the lower-case spelling is
    replaced and recorded; the upper-case one stays in the text. *)
Lemma case_shared_delimiter :
  lit "|550e8400-e29b-41d4-a716-446655440000|550E8400-E29B-41D4-A716-446655440000|"
  = [] ++ lit "|" ++ lower (lit "550e8400-e29b-41d4-a716-446655440000")
       ++ closing (lit "|") ++ lit "550E8400-E29B-41D4-A716-446655440000|" ∧
  lit "|550e8400-e29b-41d4-a716-446655440000|550E8400-E29B-41D4-A716-446655440000|"
  = lit "|550e8400-e29b-41d4-a716-446655440000"
      ++ lit "|" ++ upper (lit "550e8400-e29b-41d4-a716-446655440000")
      ++ closing (lit "|") ++ [] ∧
  clean_prompt
    (lit "|550e8400-e29b-41d4-a716-446655440000|550E8400-E29B-41D4-A716-446655440000|")
    (lit "|") 2
  = Returned (lit "|00|550E8400-E29B-41D4-A716-446655440000|",
              [(lit "550e8400-e29b-41d4-a716-446655440000", lit "00")]).
Proof. repeat split; vm_compute; reflexivity. Qed.

(** C8, amended. Matching accepts hexadecimal digits in either case, the
    mapping compares identifiers as they are written.  Let [u] have the
    8-4-4-4-12 shape, with lower-case and upper-case spellings that differ,
    and let both spellings be among the matches the scan finds in a text,
    wherever they stand and in whatever order.  Then both spellings have
    the accepted shape and denote the same UUID; and on a replacer that has
    processed any texts before (on a new one the call is [clean_prompt]),
    [replace_uuids] returns the text with every match rendered under the
    final mapping, the two spellings are two keys of that mapping with two
    distinct placeholders, and each of the two matches is replaced by its
    own placeholder between the delimiters.  With one of the four bracket
    pairs every delimited identifier of a text is among the matches. *)
Theorem mapping_is_case_sensitive (sep0 u : text) (w : Z) (texts : list text) (T : text) :
  let p := {| re_open := sep0; re_body := uuid_pattern; re_close := closing sep0 |} in
  uuid_shaped u → lower u ≠ upper u →
  lower u ∈ findall p T → upper u ∈ findall p T →
  uuid_shaped (lower u) ∧ uuid_shaped (upper u) ∧
  uuid_UUID (lower u) = uuid_UUID (upper u) ∧
  (∃ self0 outs self C M self' pl pu,
     UUIDReplacer_init sep0 w = Returned self0 ∧
     replace_each self0 texts = Returned (outs, self) ∧
     replace_uuids self T = Returned (C, M, self') ∧
     (texts = [] → clean_prompt T sep0 w = Returned (C, M)) ∧
     dict_get M (lower u) = Some pl ∧ dict_get M (upper u) = Some pu ∧ pl ≠ pu ∧
     C = render self' (finditer p T) ∧
     Hit (span_of p (lower u)) ∈ finditer p T ∧
     Hit (span_of p (upper u)) ∈ finditer p T ∧
     render_token self' (Hit (span_of p (lower u))) = sep0 ++ pl ++ closing sep0 ∧
     render_token self' (Hit (span_of p (upper u))) = sep0 ++ pu ++ closing sep0) ∧
  (bracket sep0 →
   ∀ pre g post, uuid_shaped g →
     g ∈ findall p (pre ++ sep0 ++ g ++ closing sep0 ++ post)).
Proof.
  intros p Hu Hne Hlo Hup.
  pose proof (uuid_shaped_lower u Hu) as Hl. pose proof (uuid_shaped_upper u Hu) as Hupp.
  split; [done |]. split; [done |]. split; [by apply uuid_UUID_case |].
  split; [|intros Hb pre g post Hg; by apply findall_bracket_span].
  destruct (replace_each_closed (state_of sep0 w []) texts) as (outs & Hrun & _).
  rewrite fold_note_state_of in Hrun.
  set (ids0 := first_seen_from [] _) in Hrun.
  set (ids1 := first_seen_from ids0 (findall p T)).
  assert (Hcall : replace_uuids (state_of sep0 w ids0) T
                  = Returned (render (state_of sep0 w ids1) (finditer p T),
                              assign w ids1, state_of sep0 w ids1)).
  { rewrite replace_uuids_closed. change (pattern (state_of sep0 w ids0)) with p.
    pose proof (seen_findall sep0 (closing sep0) T) as Hs. cbv zeta in Hs. fold p in Hs.
    by rewrite Hs, fold_note_state_of. }
  assert (Hinl : lower u ∈ ids1) by (apply elem_of_first_seen_from; by right).
  assert (Hinu : upper u ∈ ids1) by (apply elem_of_first_seen_from; by right).
  destruct (assign_get w ids1 (lower u) Hinl) as (nl & _ & Hgl).
  destruct (assign_get w ids1 (upper u) Hinu) as (nu & _ & Hgu).
  assert (Htok : ∀ g, g ∈ findall p T → Hit (span_of p g) ∈ finditer p T).
  { intros g (t & Ht & Hg)%list_elem_of_omap. destruct t as [c|m]; [done |].
    injection Hg as <-.
    pose proof Ht as (g' & _ & ->)%finditer_hits. done. }
  eexists (state_of sep0 w []), outs, (state_of sep0 w ids0), _, _, (state_of sep0 w ids1),
    (placeholder w nl), (placeholder w nu).
  split; [apply init_state_of |]. split; [exact Hrun |]. split; [exact Hcall |].
  split.
  { intros ->. rewrite clean_prompt_closed. fold p. done. }
  split; [done |]. split; [done |].
  split.
  { eapply (assign_injective w ids1 (lower u) _ (upper u));
      [by apply dict_get_elem_of | by apply dict_get_elem_of | done]. }
  split; [done |]. split; [by apply Htok |]. split; [by apply Htok |].
  unfold render_token, state_of. cbn [group1 span_of uuid_mapping]. simpl.
  by rewrite !uuid_shaped_valid, Hgl, Hgu.
Qed.

(** The upper-case spelling first, text around the two, and another
    identifier recorded before. *)
Lemma mapping_is_case_sensitive_witness :
  ∃ self0 outs self C M self' pl pu,
    UUIDReplacer_init (lit "[") 2 = Returned self0 ∧
    replace_each self0 [lit "Order [6ba7b810-9dad-11d1-80b4-00c04fd430c8]"]
    = Returned (outs, self) ∧
    replace_uuids self
      (lit "a [550E8400-E29B-41D4-A716-446655440000] b [550e8400-e29b-41d4-a716-446655440000] c")
    = Returned (C, M, self') ∧
    dict_get M (lower (lit "550e8400-e29b-41d4-a716-446655440000")) = Some pl ∧
    dict_get M (upper (lit "550e8400-e29b-41d4-a716-446655440000")) = Some pu ∧
    pl ≠ pu ∧
    C = lit "a [01] b [02] c".
Proof.
  assert (uuid_shaped (lit "550e8400-e29b-41d4-a716-446655440000")) as Hu
    by (apply accepts_uuid_pattern; reflexivity).
  assert (lower (lit "550e8400-e29b-41d4-a716-446655440000")
          ≠ upper (lit "550e8400-e29b-41d4-a716-446655440000")) as Hne
    by (vm_compute; discriminate).
  assert (findall {| re_open := lit "["; re_body := uuid_pattern; re_close := closing (lit "[") |}
            (lit "a [550E8400-E29B-41D4-A716-446655440000] b [550e8400-e29b-41d4-a716-446655440000] c")
          = [upper (lit "550e8400-e29b-41d4-a716-446655440000");
             lower (lit "550e8400-e29b-41d4-a716-446655440000")]) as Hall
    by (vm_compute; reflexivity).
  destruct (mapping_is_case_sensitive (lit "[") (lit "550e8400-e29b-41d4-a716-446655440000") 2
              [lit "Order [6ba7b810-9dad-11d1-80b4-00c04fd430c8]"]
              (lit "a [550E8400-E29B-41D4-A716-446655440000] b [550e8400-e29b-41d4-a716-446655440000] c")
              Hu Hne)
    as (_ & _ & _ & (self0 & outs & self & C & M & self' & pl & pu
                     & Hinit & Heach & Hrun & _ & Hpl & Hpu & Hdiff & _) & _).
  - rewrite Hall. right. left.
  - rewrite Hall. left.
  - exists self0, outs, self, C, M, self', pl, pu.
    split; [exact Hinit |]. split; [exact Heach |]. split; [exact Hrun |].
    split; [exact Hpl |]. split; [exact Hpu |]. split; [exact Hdiff |].
    vm_compute in Hinit. injection Hinit as <-.
    vm_compute in Heach. injection Heach as _ <-.
    vm_compute in Hrun. injection Hrun as <- _ _. reflexivity.
Defined.

(** C5, the claim as stated, fails where two spans share a delimiter:
    with a separator that closes with itself, [|01|] in ["|00|01|"] is a
    span of two digits between the delimiters, its digits are a value of
    the mapping, and yet it is left as it is, because its opening delimiter
    is the closing delimiter of the match before it. *)
Lemma restore_output_shared_delimiter :
  lit "|00|01|" = lit "|00" ++ lit "|" ++ lit "01" ++ closing (lit "|") ++ [] ∧
  digit_run 2 (lit "01") ∧
  (lit "6ba7b810-9dad-11d1-80b4-00c04fd430c8", lit "01")
    ∈ [(lit "550e8400-e29b-41d4-a716-446655440000", lit "00");
       (lit "6ba7b810-9dad-11d1-80b4-00c04fd430c8", lit "01")] ∧
  restore_output (lit "|00|01|")
    [(lit "550e8400-e29b-41d4-a716-446655440000", lit "00");
     (lit "6ba7b810-9dad-11d1-80b4-00c04fd430c8", lit "01")] (lit "|") 2
  = Returned (lit "|550e8400-e29b-41d4-a716-446655440000|01|") ∧
  ¬ (∃ pre post,
       lit "|550e8400-e29b-41d4-a716-446655440000|01|"
       = pre ++ lit "|" ++ lit "6ba7b810-9dad-11d1-80b4-00c04fd430c8"
           ++ closing (lit "|") ++ post).
Proof.
  split; [reflexivity |].
  split; [split; [reflexivity | by repeat constructor] |].
  split; [by right; left |].
  split; [by vm_compute |].
  intros (pre & post & Heq).
  by apply (match_free_no_span
              {| re_open := lit "|"; re_body := [Lit (lit "6ba7b810-9dad-11d1-80b4-00c04fd430c8")];
                 re_close := closing (lit "|") |}
              _ pre (lit "6ba7b810-9dad-11d1-80b4-00c04fd430c8") post) in Heq.
Qed.

(** C5, amended. [restore_output] never raises, and its result is a
    function of its four arguments alone (it is given no replacer).  Matches
    are the spans [sep + group + close_sep] found by the left-to-right,
    non-overlapping scan; for [nr_digits >= 0] the groups are the strings of
    exactly [nr_digits] decimal digits.  A text in which no match begins is
    returned as it is.  When no match begins before a non-empty span, the
    text before it is copied, the span is replaced by [sep + u + close_sep]
    where [u] is the last identifier of the mapping with these digits (and
    every digit string that is a value has one), a span whose digits are not
    a value of the mapping is copied verbatim, and the rest of the text is
    restored in the same way.  With one of the four bracket pairs spans
    cannot overlap, and every span of the form is treated so, wherever it
    stands. *)
Theorem restore_output_scan (mapping : dict) (sep : text) (nr_digits : Z) :
  (∀ output, returns (restore_output output mapping sep nr_digits)) ∧
  (0 <= nr_digits →
   ∀ d, accepts (digit_group nr_digits) d ↔ digit_run (Z.to_nat nr_digits) d) ∧
  (∀ output,
     (∀ i, (i ≤ length output)%nat →
           re_match (digit_pattern sep nr_digits) (drop i output) = None) →
     restore_output output mapping sep nr_digits = Returned output) ∧
  (∀ pre d post rest,
     accepts (digit_group nr_digits) d →
     sep ++ d ++ closing sep ≠ [] →
     quiet (digit_pattern sep nr_digits) pre (sep ++ d ++ closing sep ++ post) →
     restore_output post mapping sep nr_digits = Returned rest →
     (∀ u, identifier_of mapping d = Some u →
           (u, d) ∈ mapping ∧
           restore_output (pre ++ sep ++ d ++ closing sep ++ post) mapping sep nr_digits
           = Returned (pre ++ sep ++ u ++ closing sep ++ rest)) ∧
     (d ∈ values mapping → is_Some (identifier_of mapping d)) ∧
     (d ∉ values mapping →
      restore_output (pre ++ sep ++ d ++ closing sep ++ post) mapping sep nr_digits
      = Returned (pre ++ sep ++ d ++ closing sep ++ rest))) ∧
  (bracket sep → 0 <= nr_digits →
   ∀ pre d post before after,
     digit_run (Z.to_nat nr_digits) d →
     restore_output pre mapping sep nr_digits = Returned before →
     restore_output post mapping sep nr_digits = Returned after →
     restore_output (pre ++ sep ++ d ++ closing sep ++ post) mapping sep nr_digits
     = Returned (before
                 ++ match identifier_of mapping d with
                    | Some u => sep ++ u ++ closing sep
                    | None => sep ++ d ++ closing sep
                    end
                 ++ after)).
Proof.
  split; [intros output; rewrite restore_output_closed; by eexists |].
  split; [intros; by apply accepts_digit_group |].
  split.
  { intros output Hfree. rewrite restore_output_closed.
    by rewrite finditer_no_match, restore_gaps. }
  split; [|intros; by apply restore_output_bracket].
  intros pre d post rest Hacc Hne Hq Hrest.
  pose proof (restore_output_span d post mapping sep nr_digits rest Hacc Hne Hrest) as Hspan.
  pose proof (restore_output_quiet pre _ mapping sep nr_digits _ Hq Hspan) as Hall.
  split; [|split].
  - intros u Hu. split; [by apply identifier_of_elem_of |].
    rewrite Hall, Hu. by rewrite <- !app_assoc.
  - intros Hd. destruct (identifier_of mapping d) eqn:E; [done |].
    by apply identifier_of_None in E.
  - intros Hd%identifier_of_None. rewrite Hall, Hd. by rewrite <- !app_assoc.
Qed.

(** The first scenario of the test suite, with an unmapped span after it. *)
Lemma restore_output_scan_witness :
  restore_output (lit "Result for [00] and [99]")
    [(lit "550e8400-e29b-41d4-a716-446655440000", lit "00")] (lit "[") 2
  = Returned (lit "Result for [550e8400-e29b-41d4-a716-446655440000] and [99]").
Proof.
  destruct (restore_output_scan
              [(lit "550e8400-e29b-41d4-a716-446655440000", lit "00")] (lit "[") 2)
    as (_ & _ & _ & Hspan & _).
  destruct (Hspan (lit "Result for ") (lit "00") (lit " and [99]") (lit " and [99]"))
    as (Hmapped & _ & _).
  - reflexivity.
  - discriminate.
  - apply quiet_check_spec. by vm_compute.
  - by vm_compute.
  - by apply (Hmapped (lit "550e8400-e29b-41d4-a716-446655440000")).
Defined.

(** C1, the claim as stated, fails once the identifiers outnumber the
    placeholders of the configured width: at width 1 the eleventh identifier
    gets the placeholder ["10"], and [restore_output], which looks for
    exactly one digit between the delimiters, leaves ["[10]"] as it is. *)
Lemma round_trip_overflow :
  match clean_prompt eleven_ids (lit "[") 1 with
  | Returned (C, M) =>
      C = lit "[0][1][2][3][4][5][6][7][8][9][10]" ∧
      dict_get M (lit "00000000-0000-0000-0000-00000000000a") = Some (lit "10") ∧
      restore_output (lit "[10]") M (lit "[") 1 = Returned (lit "[10]")
  | Raised _ => False
  end.
Proof. by vm_compute. Qed.

(** C1, amended. Let [(C, M) = clean_prompt(T)] with [nr_digits >= 1]
    and at most [10^nr_digits] identifiers in [M].  Let [R] be made of
    stretches of other text, in which no span [sep + nr_digits digits +
    close_sep] begins, and of slots [sep + M[u] + close_sep] for identifiers
    [u] of [M].  Then [restore_output(R, M)] returns [R] with every slot
    replaced by [sep + u + close_sep] and every stretch of other text
    unchanged. *)
Theorem round_trip (T sep : text) (w : Z) (C : text) (M : dict) (segs : list seg) :
  clean_prompt T sep w = Returned (C, M) →
  1 <= w →
  Z.of_nat (length M) <= 10 ^ w →
  built_from (digit_pattern sep w) sep M segs →
  restore_output (downstream sep M segs) M sep w = Returned (restored sep segs).
Proof.
  rewrite clean_prompt_closed. intros [= _ <-] Hw Hlen Hb.
  rewrite length_assign in Hlen. by apply restore_downstream.
Qed.

Lemma round_trip_witness :
  clean_prompt
    (lit "User [550e8400-e29b-41d4-a716-446655440000] order [6ba7b810-9dad-11d1-80b4-00c04fd430c8]")
    (lit "[") 2
  = Returned (lit "User [00] order [01]",
              [(lit "550e8400-e29b-41d4-a716-446655440000", lit "00");
               (lit "6ba7b810-9dad-11d1-80b4-00c04fd430c8", lit "01")]) ∧
  restore_output (lit "Processed [00] and [01] successfully")
    [(lit "550e8400-e29b-41d4-a716-446655440000", lit "00");
     (lit "6ba7b810-9dad-11d1-80b4-00c04fd430c8", lit "01")] (lit "[") 2
  = Returned (lit "Processed [550e8400-e29b-41d4-a716-446655440000] and [6ba7b810-9dad-11d1-80b4-00c04fd430c8] successfully").
Proof.
  assert (clean_prompt
    (lit "User [550e8400-e29b-41d4-a716-446655440000] order [6ba7b810-9dad-11d1-80b4-00c04fd430c8]")
    (lit "[") 2
  = Returned (lit "User [00] order [01]",
              [(lit "550e8400-e29b-41d4-a716-446655440000", lit "00");
               (lit "6ba7b810-9dad-11d1-80b4-00c04fd430c8", lit "01")])) as Hclean
    by (by vm_compute).
  split; [exact Hclean |].
  refine (round_trip _ (lit "[") 2 _ _
            [Other (lit "Processed "); Slot (lit "550e8400-e29b-41d4-a716-446655440000");
             Other (lit " and "); Slot (lit "6ba7b810-9dad-11d1-80b4-00c04fd430c8");
             Other (lit " successfully")] Hclean _ _ _).
  - lia.
  - by vm_compute.
  - repeat split; try (apply quiet_check_spec; by vm_compute).
    + by left.
    + by right; left.
Defined.

(** C7. For a list of messages that are objects of the heap,
    [process_messages] returns as many messages, in the same order, each a
    new object.  One replacer serves the whole batch: its final mapping [M]
    is the returned mapping and holds the identifiers of all string contents
    in the order in which they were first seen.  The [i]-th output is the
    [i]-th input with a string ['content'] replaced by its rendering under
    [M], which is also what [replace_uuids] returns for it on the final
    replacer, so an identifier gets the same placeholder in every message;
    every other field, and a ['content'] that is not a string, is as in the
    input. *)
Theorem process_messages_batch (h : heap) (messages : list loc) (sep : text) (w : Z) :
  Forall (λ l, l ∈ dom h) messages →
  ∃ h' outs self,
    process_messages h messages sep w = Returned (h', outs, uuid_mapping self) ∧
    length outs = length messages ∧
    self = state_of sep w (first_seen (mjoin (findall (pattern self) <$> contents h messages))) ∧
    Forall2 (λ l l', h' !! l' = Some (transform self (h !!! l))) messages outs ∧
    Forall (λ s, replace_uuids self s
                 = Returned (render self (finditer (pattern self) s), uuid_mapping self, self))
      (contents h messages) ∧
    (∀ (d : gmap text value) s,
       content_of d = Some s →
       transform self d = <[lit "content" := VStr (render self (finditer (pattern self) s))]> d) ∧
    (∀ (d : gmap text value) k, k ≠ lit "content" → transform self d !! k = d !! k) ∧
    (∀ d : gmap text value, content_of d = None → transform self d = d).
Proof.
  intros Hls. rewrite process_messages_closed.
  set (st0 := {| b_heap := h; b_replacer := state_of sep w [];
                 b_processed := []; b_mappings := [] |}).
  destruct (fold_step_spec messages st0 Hls) as (Hr & outs & Hp & Houts).
  pose proof (fold_step_mappings messages st0 (NoDup_nil_2 : NoDup (keys [])) eq_refl) as Hm.
  set (p := {| re_open := sep; re_body := uuid_pattern; re_close := closing sep |}).
  assert (Hself : b_replacer (fold_left step messages st0)
                  = state_of sep w (first_seen (mjoin (findall p <$> contents h messages)))).
  { rewrite Hr. simpl. rewrite fold_note_state_of. unfold first_seen. do 3 f_equal.
    apply list_fmap_ext. intros i s _. apply seen_findall. }
  exists (b_heap (fold_left step messages st0)), outs, (b_replacer (fold_left step messages st0)).
  cbv zeta. rewrite Hp, Hm. simpl b_processed. rewrite app_nil_l.
  split; [done |].
  split; [symmetry; by eapply Forall2_length |].
  split; [rewrite Hself at 1; by rewrite Hself |].
  split; [done |].
  split.
  { rewrite Hself. apply Forall_forall. intros s Hs.
    rewrite replace_uuids_closed. simpl. fold p.
    rewrite fold_note_known; [done |].
    intros u Hu. simpl. apply dict_get_keys. rewrite keys_assign.
    apply elem_of_first_seen_from. right. apply list_elem_of_join.
    exists (findall p s). split; [|apply list_elem_of_fmap; by exists s].
    unfold p. by rewrite <- seen_findall. }
  split; [intros d s Hs; unfold transform; by rewrite Hs |].
  split; [intros; by apply transform_other_fields |].
  intros; by apply transform_no_string.
Qed.

Lemma process_messages_batch_witness :
  Forall (λ l, l ∈ dom (<[1%positive := <[lit "role" := VStr (lit "user")]>
                            (<[lit "content" :=
                                 VStr (lit "Hello [550e8400-e29b-41d4-a716-446655440000]")]> ∅)]>
                        (<[2%positive := <[lit "content" := VList [VStr (lit "x")]]> ∅]>
                           (∅ : heap))))
    [1%positive; 2%positive; 1%positive] ∧
  ∃ h' outs M,
    process_messages
      (<[1%positive := <[lit "role" := VStr (lit "user")]>
           (<[lit "content" := VStr (lit "Hello [550e8400-e29b-41d4-a716-446655440000]")]> ∅)]>
         (<[2%positive := <[lit "content" := VList [VStr (lit "x")]]> ∅]> ∅))
      [1%positive; 2%positive; 1%positive] (lit "[") 2
    = Returned (h', outs, M) ∧
    length outs = 3%nat.
Proof.
  assert (Forall (λ l, l ∈ dom (<[1%positive := <[lit "role" := VStr (lit "user")]>
                            (<[lit "content" :=
                                 VStr (lit "Hello [550e8400-e29b-41d4-a716-446655440000]")]> ∅)]>
                        (<[2%positive := <[lit "content" := VList [VStr (lit "x")]]> ∅]>
                           (∅ : heap))))
    [1%positive; 2%positive; 1%positive]) as Hls.
  { repeat constructor; apply elem_of_dom; by vm_compute. }
  split; [exact Hls |].
  destruct (process_messages_batch _ _ (lit "[") 2 Hls) as (h' & outs & self & Hrun & Hlen & _).
  exists h', outs, (uuid_mapping self). split; [exact Hrun | exact Hlen].
Defined.

(** C10. [process_messages] does not change any object that was in the
    heap before the call, in particular none of its input messages: the
    heap after the call extends the heap before it, and every returned
    message is an object that did not exist before. *)
Theorem process_messages_frame (h : heap) (messages : list loc) (sep : text) (w : Z) :
  ∃ h' outs M,
    process_messages h messages sep w = Returned (h', outs, M) ∧
    h ⊆ h' ∧
    (∀ l d, h !! l = Some d → h' !! l = Some d) ∧
    Forall (λ l', l' ∉ dom h) outs.
Proof.
  rewrite process_messages_closed.
  set (st0 := {| b_heap := h; b_replacer := state_of sep w [];
                 b_processed := []; b_mappings := [] |}).
  destruct (fold_step_frame messages st0) as (Hsub & outs & Hp & _ & Hfresh).
  eexists _, _, _. split; [done |]. cbv zeta. rewrite Hp. simpl.
  split; [done |]. split; [|done].
  intros l d Hl. by eapply lookup_weaken.
Qed.




(** * Further properties of the core ([utils.py]) *)

(** X1. [reset] makes a used replacer a new one: whatever texts an
    instance built by [UUIDReplacer(sep, nr_digits)] has processed, after
    [reset] it is equal to the instance as it was constructed, and the
    next [replace_uuids] returns what [clean_prompt] returns for the same
    text and configuration. *)
Theorem reset_gives_fresh (sep0 : text) (w : Z) (texts : list text) :
  ∃ self0 outs self,
    UUIDReplacer_init sep0 w = Returned self0 ∧
    replace_each self0 texts = Returned (outs, self) ∧
    reset self = self0 ∧
    ∀ T, ∃ C M self',
      replace_uuids (reset self) T = Returned (C, M, self') ∧
      clean_prompt T sep0 w = Returned (C, M).
Proof.
  destruct (replace_each_closed (state_of sep0 w []) texts) as (outs & Hrun & _).
  rewrite fold_note_state_of in Hrun.
  eexists _, outs, _. rewrite init_state_of.
  split; [done |]. split; [exact Hrun |]. split; [done |].
  intros T. eexists _, _, _. split; [apply replace_uuids_closed |].
  unfold clean_prompt. rewrite init_state_of, bind_Returned.
  change (reset (state_of sep0 w _)) with (state_of sep0 w []).
  by rewrite replace_uuids_closed.
Qed.

(** X2. A call of [replace_uuids] only ever adds to the mapping, from any
    state: the returned mapping is the mapping of the replacer after the
    call, the entries present before the call are still there, first and in
    the same order, every identifier keeps the placeholder it had, the
    configuration is untouched, and the counter has advanced by the number
    of entries added. *)
Theorem replace_uuids_extends (self : UUIDReplacer) (s : text) :
  ∃ out M self',
    replace_uuids self s = Returned (out, M, self') ∧
    M = uuid_mapping self' ∧
    uuid_mapping self `prefix_of` M ∧
    (∀ u ph, dict_get (uuid_mapping self) u = Some ph → dict_get M u = Some ph) ∧
    sep self' = sep self ∧ nr_digits self' = nr_digits self ∧
    close_sep self' = close_sep self ∧ pattern self' = pattern self ∧
    counter self'
    = counter self + (Z.of_nat (length M) - Z.of_nat (length (uuid_mapping self))).
Proof.
  eexists _, _, _. split; [apply replace_uuids_closed |].
  split; [done |].
  split; [apply fold_note_prefix |].
  split; [intros u ph; apply dict_get_prefix, fold_note_prefix |].
  split; [apply fold_note_sep |]. split; [apply fold_note_nr_digits |].
  split; [apply fold_note_close_sep |]. split; [apply fold_note_pattern |].
  pose proof (fold_note_counter self (seen (finditer (pattern self) s))). lia.
Qed.

(** X3. The validity check never rejects what the pattern has matched:
    for a replacer whose pattern has the UUID group, every match found in a
    text passes [_is_valid_uuid], and [replace_match] answers with a
    placeholder between the delimiters, the placeholder the mapping holds
    for the identifier after the call; the match is never returned as it
    was. *)
Theorem every_match_is_replaced (self : UUIDReplacer) (s : text) (m : Match) :
  re_body (pattern self) = uuid_pattern →
  Hit m ∈ finditer (pattern self) s →
  _is_valid_uuid (group1 m) = Returned true ∧
  ∃ ph self',
    replace_match self m = Returned (sep self ++ ph ++ close_sep self, self') ∧
    dict_get (uuid_mapping self') (group1 m) = Some ph.
Proof.
  intros Hbody Hm.
  assert (Hv : valid_uuid (group1 m) = true).
  { destruct (pattern self) as [o b c]. simpl in Hbody. subst b.
    by eapply finditer_uuid_valid. }
  split; [by rewrite _is_valid_uuid_returns, Hv |].
  destruct (note_contains self (group1 m)) as [ph Hph].
  exists ph, (note self (group1 m)). split; [|done].
  rewrite replace_match_note, Hv. unfold render_token.
  by rewrite Hv, Hph, note_sep, note_close_sep.
Qed.

Lemma every_match_is_replaced_witness :
  ∃ ph self',
    replace_match (state_of (lit "[") 2 [])
      {| group0 := lit "[550e8400-e29b-41d4-a716-446655440000]";
         group1 := lit "550e8400-e29b-41d4-a716-446655440000" |}
    = Returned (lit "[" ++ ph ++ lit "]", self') ∧
    dict_get (uuid_mapping self') (lit "550e8400-e29b-41d4-a716-446655440000") = Some ph.
Proof.
  refine (proj2 (every_match_is_replaced (state_of (lit "[") 2 [])
                   (lit "Hello [550e8400-e29b-41d4-a716-446655440000]")
                   {| group0 := lit "[550e8400-e29b-41d4-a716-446655440000]";
                      group1 := lit "550e8400-e29b-41d4-a716-446655440000" |} eq_refl _)).
  assert (finditer (pattern (state_of (lit "[") 2 []))
            (lit "Hello [550e8400-e29b-41d4-a716-446655440000]")
          = (Gap <$> lit "Hello ")
            ++ [Hit {| group0 := lit "[550e8400-e29b-41d4-a716-446655440000]";
                       group1 := lit "550e8400-e29b-41d4-a716-446655440000" |}]) as ->
    by (vm_compute; reflexivity).
  apply elem_of_app. right. apply list_elem_of_singleton. reflexivity.
Defined.

(** X4. With one of the four bracket pairs, the cleaned prompt holds no
    identifier any more: no span [sep + u + close_sep] with [u] of the
    8-4-4-4-12 hexadecimal shape is left in it, and cleaning it again, at
    any width, returns it unchanged with an empty mapping. *)
Theorem cleaned_prompt_has_no_identifier (T sep0 : text) (w : Z) (C : text) (M : dict) :
  bracket sep0 →
  clean_prompt T sep0 w = Returned (C, M) →
  (∀ pre u post, C = pre ++ sep0 ++ u ++ closing sep0 ++ post → ¬ uuid_shaped u) ∧
  (∀ w', clean_prompt C sep0 w' = Returned (C, [])).
Proof.
  intros Hb. rewrite clean_prompt_closed. intros [= <- _].
  set (p := {| re_open := sep0; re_body := uuid_pattern; re_close := closing sep0 |}).
  pose proof (render_match_free sep0 w (first_seen (findall p T)) T Hb) as Hfree.
  fold p in Hfree. cbv zeta in Hfree.
  assert (Hin : ∀ u, u ∈ findall p T → u ∈ first_seen (findall p T)).
  { intros u Hu. apply elem_of_first_seen_from. by right. }
  specialize (Hfree Hin).
  set (C := render (state_of sep0 w (first_seen (findall p T))) (finditer p T)) in *.
  split.
  - intros pre u post Heq Hu%accepts_uuid_pattern.
    specialize (Hfree (length pre)). rewrite Heq, drop_app_length in Hfree.
    pose proof (re_match_span p u post Hu) as Hspan.
    change (re_match p (sep0 ++ u ++ closing sep0 ++ post) = Some (span_of p u)) in Hspan.
    congruence.
  - intros w'. rewrite clean_prompt_closed. fold p.
    assert (Hts : finditer p C = Gap <$> C) by (apply finditer_no_match; intros; apply Hfree).
    unfold findall. rewrite Hts, render_gaps.
    assert (Hnone : omap (λ t, match t with Hit m => Some (group1 m) | Gap _ => None end)
                      (Gap <$> C) = []).
    { clear. induction C as [|c C IH]; [done | by simpl]. }
    by rewrite Hnone.
Qed.

Lemma cleaned_prompt_has_no_identifier_witness :
  clean_prompt (lit "Hello [00]") (lit "[") 5 = Returned (lit "Hello [00]", []).
Proof.
  refine (proj2 (cleaned_prompt_has_no_identifier
                   (lit "Hello [550e8400-e29b-41d4-a716-446655440000]") (lit "[") 2
                   (lit "Hello [00]")
                   [(lit "550e8400-e29b-41d4-a716-446655440000", lit "00")] _ _) 5).
  - left. reflexivity.
  - vm_compute. reflexivity.
Defined.

(** X5. Round trip on the prompt itself: with one of the four bracket
    pairs, [nr_digits >= 1] and at most [10^nr_digits] identifiers, if the
    prompt holds no span [sep + nr_digits digits + close_sep] of its own,
    then [restore_output] applied to the cleaned prompt with the returned
    mapping gives the prompt back, character for character. *)
Theorem restore_cleaned_prompt (T sep0 : text) (w : Z) (C : text) (M : dict) :
  bracket sep0 → 1 <= w →
  clean_prompt T sep0 w = Returned (C, M) →
  Z.of_nat (length M) <= 10 ^ w →
  (∀ pre d post, T = pre ++ sep0 ++ d ++ closing sep0 ++ post → ¬ digit_run (Z.to_nat w) d) →
  restore_output C M sep0 w = Returned T.
Proof.
  intros Hb Hw. rewrite clean_prompt_closed. intros [= <- <-] Hlen Hno.
  rewrite length_assign in Hlen.
  rewrite restore_output_closed. f_equal.
  apply restore_rendered; [done | done | done | |].
  - intros u Hu. apply elem_of_first_seen_from. by right.
  - intros i. destruct (decide (i ≤ length T)%nat) as [Hi | Hi].
    + apply no_span_match_free; [|done].
      cbn [re_open re_close re_body digit_pattern].
      intros pre g post Heq Hacc%accepts_digit_group; [|lia]. by eapply Hno.
    + rewrite drop_ge by lia. by apply re_match_digit_nil.
Qed.

Lemma restore_cleaned_prompt_witness :
  restore_output (lit "User [00] order [01], again [00]")
    [(lit "550e8400-e29b-41d4-a716-446655440000", lit "00");
     (lit "6ba7b810-9dad-11d1-80b4-00c04fd430c8", lit "01")] (lit "[") 2
  = Returned (lit "User [550e8400-e29b-41d4-a716-446655440000] order [6ba7b810-9dad-11d1-80b4-00c04fd430c8], again [550e8400-e29b-41d4-a716-446655440000]").
Proof.
  apply (restore_cleaned_prompt
           (lit "User [550e8400-e29b-41d4-a716-446655440000] order [6ba7b810-9dad-11d1-80b4-00c04fd430c8], again [550e8400-e29b-41d4-a716-446655440000]")
           (lit "[") 2).
  - left. reflexivity.
  - lia.
  - vm_compute. reflexivity.
  - vm_compute. discriminate.
  - intros pre d post Heq Hd.
    apply (accepts_digit_group 2 d) in Hd; [|lia].
    by apply (match_free_no_span (digit_pattern (lit "[") 2) _ pre d post) in Heq.
Defined.

(** X6. What cleaning saves: with [nr_digits >= 1] and at most
    [10^nr_digits] identifiers, every occurrence of an identifier is
    replaced by exactly [nr_digits] characters in place of 36, so the
    cleaned prompt is shorter than the prompt by [36 - nr_digits] characters
    for each occurrence found. *)
Theorem cleaning_saves (T sep0 : text) (w : Z) (C : text) (M : dict) :
  1 <= w →
  clean_prompt T sep0 w = Returned (C, M) →
  Z.of_nat (length M) <= 10 ^ w →
  Z.of_nat (length T)
  = Z.of_nat (length C)
    + (36 - w)
      * Z.of_nat (length (findall {| re_open := sep0; re_body := uuid_pattern;
                                     re_close := closing sep0 |} T)).
Proof.
  intros Hw. rewrite clean_prompt_closed. intros [= <- <-] Hlen.
  rewrite length_assign in Hlen.
  set (p := {| re_open := sep0; re_body := uuid_pattern; re_close := closing sep0 |}) in *.
  rewrite <- (finditer_raw p T) at 1.
  unfold p at 4. rewrite <- seen_findall. fold p.
  apply render_length; [done | done |].
  intros m Hm. pose proof Hm as (g & Hacc%accepts_uuid_pattern & ->)%finditer_hits.
  exists g. split; [done |]. split; [|done].
  apply elem_of_first_seen_from. right.
  unfold findall. apply list_elem_of_omap. by exists (Hit (span_of p g)).
Qed.

Lemma cleaning_saves_witness :
  Z.of_nat (length (lit "Hello [550e8400-e29b-41d4-a716-446655440000]"))
  = Z.of_nat (length (lit "Hello [00]"))
    + (36 - 2)
      * Z.of_nat (length (findall {| re_open := lit "["; re_body := uuid_pattern;
                                     re_close := closing (lit "[") |}
                            (lit "Hello [550e8400-e29b-41d4-a716-446655440000]"))).
Proof.
  apply (cleaning_saves (lit "Hello [550e8400-e29b-41d4-a716-446655440000]") (lit "[") 2
           (lit "Hello [00]") [(lit "550e8400-e29b-41d4-a716-446655440000", lit "00")]).
  - lia.
  - vm_compute. reflexivity.
  - vm_compute. discriminate.
Defined.

(** X7. [restore_output] with a mapping none of whose values is a string
    of exactly [nr_digits] digits changes nothing: in particular with an
    empty mapping, and with a mapping made at another width than the one
    passed to [restore_output]. *)
Theorem restore_output_foreign_mapping (mapping : dict) (sep0 : text) (n : Z) (output : text) :
  0 <= n →
  (∀ v, v ∈ values mapping → ¬ digit_run (Z.to_nat n) v) →
  restore_output output mapping sep0 n = Returned output.
Proof.
  intros Hn Hno. rewrite restore_output_closed. f_equal.
  rewrite <- (finditer_raw (digit_pattern sep0 n) output) at 2. f_equal.
  apply list_fmap_ext. intros i [c|m] Hi; [done |].
  apply list_elem_of_lookup_2 in Hi as (g & Hacc & ->)%finditer_hits.
  unfold restore_token. cbn [group1 span_of raw].
  rewrite (proj2 (identifier_of_None mapping g)); [done |].
  intros Hin. apply (Hno g Hin). by apply accepts_digit_group.
Qed.

(** A mapping made at width 3 and used at width 2. *)
Lemma restore_output_foreign_mapping_witness :
  restore_output (lit "Result [00] and [000]")
    [(lit "550e8400-e29b-41d4-a716-446655440000", lit "000")] (lit "[") 2
  = Returned (lit "Result [00] and [000]").
Proof.
  apply restore_output_foreign_mapping; [lia |].
  intros v Hv [Hlen _].
  apply list_elem_of_singleton in Hv. subst v. discriminate Hlen.
Defined.

(** X8. A batch of one message is [clean_prompt] on its content: for a
    live message whose ['content'] is a string, [process_messages] returns
    the mapping that [clean_prompt] returns for that string, and one new
    message, which is the input with the cleaned string as its
    ['content']. *)
Theorem process_single_message (h : heap) (l : loc) (d : message) (s sep0 : text) (w : Z) :
  h !! l = Some d →
  content_of d = Some s →
  ∃ C M h' l',
    clean_prompt s sep0 w = Returned (C, M) ∧
    process_messages h [l] sep0 w = Returned (h', [l'], M) ∧
    (l' ∉ dom h) ∧
    h' !! l' = Some (<[lit "content" := VStr C]> d).
Proof.
  intros Hl Hs.
  assert (Hd : h !!! l = d) by (by apply lookup_total_correct).
  destruct (process_messages_mapping h [l] sep0 w) as (h' & outs & Hrun & _ & Hfresh & Hout).
  { constructor; [|done]. apply elem_of_dom. by eexists. }
  apply Forall2_cons_inv_l in Hout as (l' & outs' & Hl' & ->%Forall2_nil_inv_l & ->).
  apply Forall_cons in Hfresh as [Hfresh _].
  assert (Hc : contents h [l] = [s]).
  { unfold contents. simpl. by rewrite Hd, Hs. }
  rewrite Hc in Hrun, Hl'. simpl in Hrun, Hl'. rewrite app_nil_r in Hrun, Hl'.
  eexists _, _, h', l'. split; [apply clean_prompt_closed |].
  split; [exact Hrun |]. split; [done |].
  rewrite Hl', Hd. unfold transform. by rewrite Hs.
Qed.

Lemma process_single_message_witness :
  ∃ C M h' l',
    clean_prompt (lit "Hello [550e8400-e29b-41d4-a716-446655440000]") (lit "[") 2
    = Returned (C, M) ∧
    process_messages
      (<[1%positive := <[lit "role" := VStr (lit "user")]>
           (<[lit "content" := VStr (lit "Hello [550e8400-e29b-41d4-a716-446655440000]")]> ∅)]>
         ∅)
      [1%positive] (lit "[") 2
    = Returned (h', [l'], M) ∧
    C = lit "Hello [00]".
Proof.
  destruct (process_single_message
              (<[1%positive := <[lit "role" := VStr (lit "user")]>
                   (<[lit "content" :=
                        VStr (lit "Hello [550e8400-e29b-41d4-a716-446655440000]")]> ∅)]> ∅)
              1%positive
              (<[lit "role" := VStr (lit "user")]>
                 (<[lit "content" :=
                      VStr (lit "Hello [550e8400-e29b-41d4-a716-446655440000]")]> ∅))
              (lit "Hello [550e8400-e29b-41d4-a716-446655440000]") (lit "[") 2)
    as (C & M & h' & l' & Hc & Hp & _ & _).
  - apply lookup_insert_eq.
  - vm_compute. reflexivity.
  - exists C, M, h', l'. split; [exact Hc |]. split; [exact Hp |].
    rewrite clean_prompt_closed in Hc. injection Hc as <- _. vm_compute. reflexivity.
Defined.

(** X9. Round trip on a batch: with one of the four bracket pairs,
    [nr_digits >= 1] and at most [10^nr_digits] identifiers in the batch, if
    no string content of the live input messages holds a span
    [sep + nr_digits digits + close_sep] of its own, then for every message
    with a string content, [restore_output] applied to the content of the
    message returned for it, with the mapping of the batch, gives the
    original content back. *)
Theorem restore_processed_messages (h : heap) (ms : list loc) (sep0 : text) (w : Z)
    (h' : heap) (outs : list loc) (M : dict) :
  bracket sep0 → 1 <= w →
  Forall (λ l, l ∈ dom h) ms →
  process_messages h ms sep0 w = Returned (h', outs, M) →
  Z.of_nat (length M) <= 10 ^ w →
  Forall (λ s, ∀ pre d post,
               s = pre ++ sep0 ++ d ++ closing sep0 ++ post → ¬ digit_run (Z.to_nat w) d)
    (contents h ms) →
  Forall2 (λ l l', ∀ s, content_of (h !!! l) = Some s →
                        ∃ C, content_of (h' !!! l') = Some C ∧
                             restore_output C M sep0 w = Returned s)
    ms outs.
Proof.
  intros Hb Hw Hls Hrun Hlen Hno.
  destruct (process_messages_mapping h ms sep0 w Hls) as (h1 & outs1 & Hrun1 & _ & _ & Hout).
  rewrite Hrun in Hrun1. injection Hrun1 as <- <- ->.
  rewrite length_assign in Hlen.
  set (p := {| re_open := sep0; re_body := uuid_pattern; re_close := closing sep0 |}) in *.
  set (ids := first_seen (mjoin (findall p <$> contents h ms))) in *.
  apply Forall2_same_length_lookup_2; [by eapply Forall2_length |].
  intros i l l' Hl Hl' s Hs.
  pose proof (Forall2_lookup_lr _ _ _ _ _ _ Hout Hl Hl') as Hh'.
  apply lookup_total_correct in Hh'. rewrite Hh'. unfold transform. rewrite Hs.
  eexists. split.
  { unfold content_of. by rewrite lookup_insert_eq. }
  assert (Hin : s ∈ contents h ms).
  { unfold contents. apply list_elem_of_omap. exists l.
    split; [by eapply list_elem_of_lookup_2 | done]. }
  rewrite Forall_forall in Hno. specialize (Hno s Hin).
  rewrite restore_output_closed. f_equal.
  change (pattern (state_of sep0 w ids)) with p.
  apply restore_rendered; [done | done | done | |].
  - intros u Hu. apply elem_of_first_seen_from. right.
    apply list_elem_of_join. exists (findall p s). split; [done |].
    apply list_elem_of_fmap. by exists s.
  - intros j. destruct (decide (j ≤ length s)%nat) as [Hj | Hj].
    + apply no_span_match_free; [|done].
      cbn [re_open re_close re_body digit_pattern].
      intros pre g post Heq Hacc%accepts_digit_group; [|lia]. by eapply Hno.
    + rewrite drop_ge by lia. by apply re_match_digit_nil.
Qed.

Lemma restore_processed_messages_witness :
  ∃ h' outs M,
    process_messages
      (<[1%positive := <[lit "content" :=
                           VStr (lit "Hello [550e8400-e29b-41d4-a716-446655440000]")]> ∅]> ∅)
      [1%positive] (lit "[") 2
    = Returned (h', outs, M) ∧
    Forall2 (λ l l', ∀ s,
               content_of ((<[1%positive := <[lit "content" :=
                               VStr (lit "Hello [550e8400-e29b-41d4-a716-446655440000]")]> ∅]>
                              (∅ : heap)) !!! l) = Some s →
               ∃ C, content_of (h' !!! l') = Some C ∧
                    restore_output C M (lit "[") 2 = Returned s)
      [1%positive] outs.
Proof.
  set (h := <[1%positive := <[lit "content" :=
                VStr (lit "Hello [550e8400-e29b-41d4-a716-446655440000]")]> ∅]> (∅ : heap)).
  assert (Hls : Forall (λ l, l ∈ dom h) [1%positive]).
  { constructor; [|constructor]. apply elem_of_dom. eexists. apply lookup_insert_eq. }
  destruct (process_messages_mapping h [1%positive] (lit "[") 2 Hls)
    as (h' & outs & Hrun & _).
  eexists h', outs, _. split; [exact Hrun |].
  assert (Hc : contents h [1%positive]
               = [lit "Hello [550e8400-e29b-41d4-a716-446655440000]"])
    by (vm_compute; reflexivity).
  apply (restore_processed_messages h [1%positive] (lit "[") 2 h' outs _);
    [left; reflexivity | lia | exact Hls | exact Hrun | |].
  - rewrite length_assign, Hc. vm_compute. discriminate.
  - rewrite Hc. constructor; [|constructor].
    intros pre d post Heq Hd.
    apply (accepts_digit_group 2 d) in Hd; [|lia].
    by apply (match_free_no_span (digit_pattern (lit "[") 2) _ pre d post) in Heq.
Defined.

(** * Properties of the client wrapper ([cleaner.py]) *)

Section client.
Context {Client Response : Type}.
Implicit Types (self : PromptCleanerClient Client) (cs : clients Client)
  (cm : prompt_cleaner Client) (h : heap) (kw : kwargs) (ms more : list loc).

(** X10. What [_process_chat_completion_kwargs] leaves alone: it never
    raises; every keyword other than ['messages'] is passed on as it is; the
    wrapped client, the separator and the width of the cleaner client are
    unchanged; no object that was in the heap is modified; and no key is
    ever removed from the recorded mappings.  Without ['messages'] nothing
    changes at all; with it, the messages passed on are as many new
    objects. *)
Theorem process_kwargs_frame self h kw :
  ∃ kw' self' h',
    _process_chat_completion_kwargs self h kw = Returned (kw', self', h') ∧
    kw_others kw' = kw_others kw ∧
    pcc_client self' = pcc_client self ∧
    pcc_sep self' = pcc_sep self ∧
    pcc_nr_digits self' = pcc_nr_digits self ∧
    h ⊆ h' ∧
    (∀ k, k ∈ keys (pcc_uuid_mappings self) → k ∈ keys (pcc_uuid_mappings self')) ∧
    match kw_messages kw with
    | None => kw' = kw ∧ self' = self ∧ h' = h
    | Some ms =>
        ∃ outs, kw_messages kw' = Some outs ∧ length outs = length ms ∧
                Forall (λ l', l' ∉ dom h) outs
    end.
Proof.
  unfold _process_chat_completion_kwargs.
  destruct (kw_messages kw) as [ms|] eqn:Hkw.
  - rewrite process_messages_closed, bind_Returned.
    set (st0 := {| b_heap := h; b_replacer := state_of (pcc_sep self) (pcc_nr_digits self) [];
                   b_processed := []; b_mappings := [] |}).
    destruct (fold_step_frame ms st0) as (Hsub & outs & Hp & Hlen & Hfresh).
    cbv zeta. eexists _, _, _. split; [done |]. simpl.
    do 5 (split; [done |]).
    split; [intros k; apply keys_dict_update |].
    exists outs. by rewrite Hp.
  - eexists _, _, _. split; [done |]. by repeat split.
Qed.

(** X11. Every call numbers its identifiers from zero: with live
    messages, the [i]-th distinct identifier of the string contents of this
    call, in order of first occurrence, is recorded with the placeholder of
    ordinal [i], whatever the cleaner client had recorded before the call,
    and an identifier that does not occur in this call keeps the entry it
    had. *)
Theorem each_call_numbers_from_zero self h kw ms :
  let p := {| re_open := pcc_sep self; re_body := uuid_pattern;
              re_close := closing (pcc_sep self) |} in
  let ids := first_seen (mjoin (findall p <$> contents h ms)) in
  kw_messages kw = Some ms →
  Forall (λ l, l ∈ dom h) ms →
  ∃ kw' self' h',
    _process_chat_completion_kwargs self h kw = Returned (kw', self', h') ∧
    (∀ i u, ids !! i = Some u →
            dict_get (pcc_uuid_mappings self') u
            = Some (placeholder (pcc_nr_digits self) (Z.of_nat i))) ∧
    (∀ u, u ∉ ids →
          dict_get (pcc_uuid_mappings self') u = dict_get (pcc_uuid_mappings self) u).
Proof.
  intros p ids Hkw Hls.
  destruct (process_kwargs_messages self h kw ms Hkw Hls) as (h' & outs & _ & Hrun & _).
  fold p ids in Hrun.
  eexists _, _, _. split; [exact Hrun |]. simpl.
  pose proof (keys_assign_first_seen_NoDup (pcc_nr_digits self)
                (mjoin (findall p <$> contents h ms))) as Hnd.
  fold ids in Hnd.
  split.
  - intros i u Hi. rewrite dict_get_update by done.
    rewrite (dict_get_NoDup _ u (placeholder (pcc_nr_digits self) (Z.of_nat i))); [done..|].
    apply elem_of_assign_from. exists i. split; [done |]. f_equal.
  - intros u Hu. rewrite dict_get_update by done.
    rewrite (proj2 (dict_get_None_keys _ u)); [done |]. by rewrite keys_assign.
Qed.

(** X12. So the placeholders of two calls collide: when the first
    identifier of one call differs from the first identifier of the next
    call, and does not occur in that call, the mappings recorded after both
    calls give the two identifiers the same placeholder, the one of ordinal
    zero. *)
Theorem placeholders_collide_across_calls self h kw1 kw2 ms1 ms2 (u1 u2 : text)
    (ids1 ids2 : list text) :
  let p := {| re_open := pcc_sep self; re_body := uuid_pattern;
              re_close := closing (pcc_sep self) |} in
  kw_messages kw1 = Some ms1 →
  kw_messages kw2 = Some ms2 →
  Forall (λ l, l ∈ dom h) ms1 →
  Forall (λ l, l ∈ dom h) ms2 →
  mjoin (findall p <$> contents h ms1) = u1 :: ids1 →
  mjoin (findall p <$> contents h ms2) = u2 :: ids2 →
  u1 ∉ u2 :: ids2 →
  ∃ kw1' self1 h1 kw2' self2 h2,
    _process_chat_completion_kwargs self h kw1 = Returned (kw1', self1, h1) ∧
    _process_chat_completion_kwargs self1 h1 kw2 = Returned (kw2', self2, h2) ∧
    u1 ≠ u2 ∧
    dict_get (pcc_uuid_mappings self2) u1 = Some (placeholder (pcc_nr_digits self) 0) ∧
    dict_get (pcc_uuid_mappings self2) u2 = Some (placeholder (pcc_nr_digits self) 0).
Proof.
  intros p Hkw1 Hkw2 Hls1 Hls2 Hids1 Hids2 Hu1.
  destruct (process_kwargs_messages self h kw1 ms1 Hkw1 Hls1)
    as (h1 & outs1 & _ & Hrun1 & Hsub & _).
  fold p in Hrun1. rewrite Hids1 in Hrun1.
  set (self1 := set_pcc_uuid_mappings self _) in Hrun1.
  assert (Hls2' : Forall (λ l, l ∈ dom h1) ms2).
  { eapply Forall_impl; [exact Hls2 |]. intros l. simpl.
    apply subseteq_dom in Hsub. set_solver. }
  destruct (process_kwargs_messages self1 h1 kw2 ms2 Hkw2 Hls2')
    as (h2 & outs2 & _ & Hrun2 & _).
  change (pcc_sep self1) with (pcc_sep self) in Hrun2.
  change (pcc_nr_digits self1) with (pcc_nr_digits self) in Hrun2.
  fold p in Hrun2. rewrite (contents_weaken h h1 ms2 Hsub Hls2), Hids2 in Hrun2.
  eexists _, _, _, _, _, _. split; [exact Hrun1 |]. split; [exact Hrun2 |].
  split; [intros ->; apply Hu1; by left |].
  simpl. rewrite !dict_get_update by apply keys_assign_first_seen_NoDup.
  split.
  - rewrite (proj2 (dict_get_None_keys (assign _ (first_seen (u2 :: ids2))) u1)).
    + by rewrite assign_first_seen_head.
    + rewrite keys_assign. intros Hin. apply Hu1.
      by apply elem_of_first_seen_from in Hin as [?%elem_of_nil | ?].
  - by rewrite assign_first_seen_head.
Qed.

(** X13. A growing conversation keeps its placeholders: when a new
    cleaner client is called with some live messages and then with the same
    messages followed by more, the mappings recorded after the second call
    are those of the longer list, they begin with the mappings recorded
    after the first call, and every identifier of the first call still has
    the placeholder it was given. *)
Theorem growing_history_keeps_placeholders (client : Client) (sep0 : text) (w : Z)
    h kw1 kw2 ms more :
  let p := {| re_open := sep0; re_body := uuid_pattern; re_close := closing sep0 |} in
  kw_messages kw1 = Some ms →
  kw_messages kw2 = Some (ms ++ more) →
  Forall (λ l, l ∈ dom h) (ms ++ more) →
  ∃ kw1' self1 h1 kw2' self2 h2,
    _process_chat_completion_kwargs (PromptCleanerClient_init client sep0 w) h kw1
    = Returned (kw1', self1, h1) ∧
    _process_chat_completion_kwargs self1 h1 kw2 = Returned (kw2', self2, h2) ∧
    pcc_uuid_mappings self1 = assign w (first_seen (mjoin (findall p <$> contents h ms))) ∧
    pcc_uuid_mappings self2
    = assign w (first_seen (mjoin (findall p <$> contents h (ms ++ more)))) ∧
    pcc_uuid_mappings self1 `prefix_of` pcc_uuid_mappings self2 ∧
    (∀ u ph, dict_get (pcc_uuid_mappings self1) u = Some ph →
             dict_get (pcc_uuid_mappings self2) u = Some ph).
Proof.
  intros p Hkw1 Hkw2 Hls.
  pose proof Hls as [Hls1 _]%Forall_app.
  destruct (process_kwargs_messages (PromptCleanerClient_init client sep0 w) h kw1 ms Hkw1 Hls1)
    as (h1 & outs1 & _ & Hrun1 & Hsub & _).
  cbn [pcc_sep pcc_nr_digits pcc_uuid_mappings PromptCleanerClient_init] in Hrun1.
  fold p in Hrun1.
  rewrite (dict_update_extension [] _ (prefix_nil _) (keys_assign_first_seen_NoDup _ _))
    in Hrun1.
  set (self1 := set_pcc_uuid_mappings _ _) in Hrun1.
  assert (Hls' : Forall (λ l, l ∈ dom h1) (ms ++ more)).
  { eapply Forall_impl; [exact Hls |]. intros l. simpl.
    apply subseteq_dom in Hsub. set_solver. }
  destruct (process_kwargs_messages self1 h1 kw2 (ms ++ more) Hkw2 Hls')
    as (h2 & outs2 & _ & Hrun2 & _).
  cbn [pcc_sep pcc_nr_digits pcc_uuid_mappings self1 set_pcc_uuid_mappings
       PromptCleanerClient_init] in Hrun2.
  fold p in Hrun2. rewrite (contents_weaken h h1 (ms ++ more) Hsub Hls) in Hrun2.
  assert (Hpre : assign w (first_seen (mjoin (findall p <$> contents h ms)))
                 `prefix_of`
                 assign w (first_seen (mjoin (findall p <$> contents h (ms ++ more))))).
  { apply assign_prefix. rewrite contents_app, fmap_app, join_app.
    unfold first_seen. rewrite first_seen_from_app. apply first_seen_from_prefix. }
  rewrite (dict_update_extension _ _ Hpre (keys_assign_first_seen_NoDup _ _)) in Hrun2.
  eexists _, _, _, _, _, _. split; [exact Hrun1 |]. split; [exact Hrun2 |].
  simpl. split; [done |]. split; [done |]. split; [done |].
  intros u ph. by apply dict_get_prefix.
Qed.

(** X14. Every [with] block starts from nothing: when a context manager
    that already holds a cleaner client is entered again, it holds a new
    cleaner client, [get_uuid_mappings] returns the empty mapping, whatever
    had been recorded in the earlier block, and the earlier cleaner client
    is still in the store, unchanged. *)
Theorem enter_again_starts_empty cm cs (c0 : loc) (old : PromptCleanerClient Client) :
  pc_cleaner_client cm = Some c0 →
  cs !! c0 = Some old →
  let '(c, cm', cs') := __enter__ cm cs in
  get_uuid_mappings cm cs = pcc_uuid_mappings old ∧
  c ≠ c0 ∧
  pc_cleaner_client cm' = Some c ∧
  get_uuid_mappings cm' cs' = [] ∧
  cs' !! c0 = Some old.
Proof.
  intros Hcm Hold. unfold __enter__, clients in *.
  set (c := fresh (dom cs)).
  assert (Hc : cs !! c = None).
  { apply (not_elem_of_dom (M:=gmap loc) (D:=gset loc)). apply is_fresh. }
  assert (Hne : c ≠ c0) by congruence.
  split; [unfold get_uuid_mappings, clients; by rewrite Hcm, Hold |].
  split; [done |]. split; [done |].
  split.
  - unfold get_uuid_mappings, clients. cbn [pc_cleaner_client]. by rewrite lookup_insert_eq.
  - by rewrite lookup_insert_ne.
Qed.
(** [client.chat.completions.create] of the wrapped client. *)
Variable chat_completions_create : Client → heap → kwargs → outcome Response.

(** X15. One call inside a [with] block: the cleaner client handed out by
    [__enter__] is a new object; a call of [chat.completions.create] on it
    with live messages calls the wrapped client with the processed copies
    of the messages and the other keywords as they were, and returns or
    raises what the wrapped client returns or raises, placeholders included;
    the other cleaner clients are untouched; and after [__exit__],
    [get_uuid_mappings] returns the mapping of the call, also when the
    wrapped client has raised. *)
Theorem context_manager_call (client : Client) (sep0 : text) (w : Z) cs h kw ms :
  kw_messages kw = Some ms →
  Forall (λ l, l ∈ dom h) ms →
  let '(c, cm, cs1) := __enter__ (prompt_cleaner_init client sep0 w) cs in
  ∃ cs2 h' outs M,
    cs !! c = None ∧
    process_messages h ms sep0 w = Returned (h', outs, M) ∧
    create chat_completions_create (completions (chat c)) cs1 h kw
    = (cs2, h', chat_completions_create client h' (set_messages kw outs)) ∧
    (∀ c' x, cs !! c' = Some x → cs2 !! c' = Some x) ∧
    get_uuid_mappings (__exit__ cm) cs2 = M.
Proof.
  intros Hkw Hls. unfold __enter__, prompt_cleaner_init, clients in *.
  cbn [pc_original_client pc_sep pc_nr_digits].
  set (c := fresh (dom cs)).
  assert (Hc : cs !! c = None).
  { apply (not_elem_of_dom (M:=gmap loc) (D:=gset loc)). apply is_fresh. }
  set (self := PromptCleanerClient_init client sep0 w).
  destruct (process_kwargs_messages self h kw ms Hkw Hls) as (h' & outs & Hpm & Hrun & _).
  cbn [pcc_sep pcc_nr_digits pcc_uuid_mappings self PromptCleanerClient_init] in Hpm, Hrun.
  rewrite (dict_update_extension [] _ (prefix_nil _) (keys_assign_first_seen_NoDup _ _))
    in Hrun.
  eexists _, h', outs, _. split; [done |]. split; [exact Hpm |].
  unfold create, completions, chat, clients. cbn [cw_cleaner_client ccw_cleaner_client].
  rewrite lookup_insert_eq. fold self. rewrite Hrun.
  split; [done |]. split.
  - intros c' x Hc'. rewrite !lookup_insert_ne; [done | congruence..].
  - unfold get_uuid_mappings, __exit__, clients. cbn [pc_cleaner_client].
    by rewrite lookup_insert_eq.
Qed.
End client.

Lemma sample_heap_live (ms : list loc) :
  Forall (λ l, l = 1%positive ∨ l = 2%positive) ms → Forall (λ l, l ∈ dom sample_heap) ms.
Proof.
  intros H. eapply Forall_impl; [exact H |]. unfold sample_heap.
  intros l [-> | ->]; apply elem_of_dom; eexists.
  - apply lookup_insert_eq.
  - rewrite lookup_insert_ne by done. apply lookup_insert_eq.
Qed.

(** A cleaner client that has recorded an identifier under ["07"] meets a
    new identifier, which gets ["00"]. *)
Lemma each_call_numbers_from_zero_witness :
  ∃ kw' self' h',
    _process_chat_completion_kwargs
      {| pcc_client := (); pcc_sep := lit "["; pcc_nr_digits := 2;
         pcc_uuid_mappings := [(lit "6ba7b810-9dad-11d1-80b4-00c04fd430c8", lit "07")] |}
      sample_heap (sample_kwargs [1%positive])
    = Returned (kw', self', h') ∧
    dict_get (pcc_uuid_mappings self') (lit "550e8400-e29b-41d4-a716-446655440000")
    = Some (lit "00") ∧
    dict_get (pcc_uuid_mappings self') (lit "6ba7b810-9dad-11d1-80b4-00c04fd430c8")
    = Some (lit "07").
Proof.
  destruct (each_call_numbers_from_zero
              {| pcc_client := (); pcc_sep := lit "["; pcc_nr_digits := 2;
                 pcc_uuid_mappings :=
                   [(lit "6ba7b810-9dad-11d1-80b4-00c04fd430c8", lit "07")] |}
              sample_heap (sample_kwargs [1%positive]) [1%positive] eq_refl)
    as (kw' & self' & h' & Hrun & Hnew & Hold).
  - apply sample_heap_live. constructor; [by left | constructor].
  - exists kw', self', h'. split; [exact Hrun |]. split.
    + apply (Hnew 0%nat). vm_compute. reflexivity.
    + rewrite Hold; [reflexivity |]. vm_compute.
      intros [Heq | Hin]%elem_of_cons; [discriminate Heq | by apply elem_of_nil in Hin].
Defined.

Lemma placeholders_collide_across_calls_witness :
  ∃ kw1' self1 h1 kw2' self2 h2,
    _process_chat_completion_kwargs (PromptCleanerClient_init () (lit "[") 2)
      sample_heap (sample_kwargs [1%positive])
    = Returned (kw1', self1, h1) ∧
    _process_chat_completion_kwargs self1 h1 (sample_kwargs [2%positive])
    = Returned (kw2', self2, h2) ∧
    lit "550e8400-e29b-41d4-a716-446655440000" ≠ lit "6ba7b810-9dad-11d1-80b4-00c04fd430c8" ∧
    dict_get (pcc_uuid_mappings self2) (lit "550e8400-e29b-41d4-a716-446655440000")
    = Some (placeholder 2 0) ∧
    dict_get (pcc_uuid_mappings self2) (lit "6ba7b810-9dad-11d1-80b4-00c04fd430c8")
    = Some (placeholder 2 0).
Proof.
  apply (placeholders_collide_across_calls (PromptCleanerClient_init () (lit "[") 2)
           sample_heap (sample_kwargs [1%positive]) (sample_kwargs [2%positive])
           [1%positive] [2%positive]
           (lit "550e8400-e29b-41d4-a716-446655440000")
           (lit "6ba7b810-9dad-11d1-80b4-00c04fd430c8") [] []).
  - reflexivity.
  - reflexivity.
  - apply sample_heap_live. constructor; [by left | constructor].
  - apply sample_heap_live. constructor; [by right | constructor].
  - vm_compute. reflexivity.
  - vm_compute. reflexivity.
  - intros [Heq | Hin]%elem_of_cons; [discriminate Heq | by apply elem_of_nil in Hin].
Defined.

Lemma growing_history_keeps_placeholders_witness :
  ∃ kw1' self1 h1 kw2' self2 h2,
    _process_chat_completion_kwargs (PromptCleanerClient_init () (lit "[") 2)
      sample_heap (sample_kwargs [1%positive])
    = Returned (kw1', self1, h1) ∧
    _process_chat_completion_kwargs self1 h1 (sample_kwargs [1%positive; 2%positive])
    = Returned (kw2', self2, h2) ∧
    pcc_uuid_mappings self1 = [(lit "550e8400-e29b-41d4-a716-446655440000", lit "00")] ∧
    pcc_uuid_mappings self2
    = [(lit "550e8400-e29b-41d4-a716-446655440000", lit "00");
       (lit "6ba7b810-9dad-11d1-80b4-00c04fd430c8", lit "01")].
Proof.
  destruct (growing_history_keeps_placeholders () (lit "[") 2 sample_heap
              (sample_kwargs [1%positive]) (sample_kwargs [1%positive; 2%positive])
              [1%positive] [2%positive] eq_refl eq_refl)
    as (kw1' & self1 & h1 & kw2' & self2 & h2 & Hrun1 & Hrun2 & Hm1 & Hm2 & _).
  - apply sample_heap_live. constructor; [by left |]. constructor; [by right | constructor].
  - exists kw1', self1, h1, kw2', self2, h2.
    split; [exact Hrun1 |]. split; [exact Hrun2 |].
    rewrite Hm1, Hm2. split; vm_compute; reflexivity.
Defined.

(** The wrapped client raises; the mapping of the call is recorded all the
    same. *)
Lemma context_manager_call_witness :
  let '(c, cm, cs1) := __enter__ (prompt_cleaner_init () (lit "[") 2) ∅ in
  ∃ cs2 h',
    create failing_create (completions (chat c)) cs1 sample_heap (sample_kwargs [1%positive])
    = (cs2, h', Raised ValueError) ∧
    get_uuid_mappings (__exit__ cm) cs2
    = [(lit "550e8400-e29b-41d4-a716-446655440000", lit "00")].
Proof.
  pose proof (context_manager_call failing_create () (lit "[") 2 ∅ sample_heap
                (sample_kwargs [1%positive]) [1%positive] eq_refl
                (sample_heap_live [1%positive]
                   (Forall_cons_2 _ _ _ (or_introl eq_refl) (Forall_nil_2 _)))) as H.
  destruct (__enter__ (prompt_cleaner_init () (lit "[") 2) ∅) as [[c cm] cs1].
  destruct H as (cs2 & h' & outs & M & _ & Hpm & Hrun & _ & Hget).
  exists cs2, h'. split; [exact Hrun |].
  rewrite Hget.
  destruct (process_messages_mapping sample_heap [1%positive] (lit "[") 2
              (sample_heap_live [1%positive]
                 (Forall_cons_2 _ _ _ (or_introl eq_refl) (Forall_nil_2 _))))
    as (h1 & outs1 & Hpm1 & _).
  rewrite Hpm in Hpm1. injection Hpm1 as _ _ ->. vm_compute. reflexivity.
Defined.

Lemma enter_again_starts_empty_witness :
  let '(c, cm', cs') :=
    __enter__
      {| pc_original_client := (); pc_sep := lit "["; pc_nr_digits := 2;
         pc_cleaner_client := Some 1%positive |}
      (<[1%positive :=
           {| pcc_client := (); pcc_sep := lit "["; pcc_nr_digits := 2;
              pcc_uuid_mappings :=
                [(lit "550e8400-e29b-41d4-a716-446655440000", lit "00")] |}]> ∅) in
  get_uuid_mappings cm' cs' = [] ∧
  cs' !! 1%positive
  = Some {| pcc_client := (); pcc_sep := lit "["; pcc_nr_digits := 2;
            pcc_uuid_mappings :=
              [(lit "550e8400-e29b-41d4-a716-446655440000", lit "00")] |}.
Proof.
  pose proof (enter_again_starts_empty
                {| pc_original_client := (); pc_sep := lit "["; pc_nr_digits := 2;
                   pc_cleaner_client := Some 1%positive |}
                (<[1%positive :=
                     {| pcc_client := (); pcc_sep := lit "["; pcc_nr_digits := 2;
                        pcc_uuid_mappings :=
                          [(lit "550e8400-e29b-41d4-a716-446655440000", lit "00")] |}]> ∅)
                1%positive _ eq_refl (lookup_insert_eq _ _ _)) as H.
  destruct (__enter__ _ _) as [[c cm'] cs'].
  destruct H as (_ & _ & _ & Hget & Hold). split; [exact Hget | exact Hold].
Defined.

(** * The scenarios of the test suite *)

Example clean_prompt_basic :
  clean_prompt (lit "Hello [550e8400-e29b-41d4-a716-446655440000]") (lit "[") 3
  = Returned (lit "Hello [000]", [(lit "550e8400-e29b-41d4-a716-446655440000", lit "000")]).
Proof. by vm_compute. Qed.

Example clean_prompt_duplicate :
  clean_prompt
    (lit "First [550e8400-e29b-41d4-a716-446655440000] and second [550e8400-e29b-41d4-a716-446655440000]")
    (lit "[") 2
  = Returned (lit "First [00] and second [00]",
              [(lit "550e8400-e29b-41d4-a716-446655440000", lit "00")]).
Proof. by vm_compute. Qed.

Example clean_prompt_angle :
  clean_prompt (lit "Hello <550e8400-e29b-41d4-a716-446655440000>") (lit "<") 2
  = Returned (lit "Hello <00>", [(lit "550e8400-e29b-41d4-a716-446655440000", lit "00")]).
Proof. by vm_compute. Qed.

Example is_valid_uuid_cases :
  _is_valid_uuid (lit "6ba7b810-9dad-11d1-80b4-00c04fd430c8") = Returned true ∧
  _is_valid_uuid (lit "not-a-uuid") = Returned false ∧
  _is_valid_uuid (lit "550e8400-e29b-41d4-a716") = Returned false ∧
  _is_valid_uuid (lit "550e8400-e29b-41d4-a716-446655440000-extra") = Returned false ∧
  _is_valid_uuid (lit "ggge8400-e29b-41d4-a716-446655440000") = Returned false.
Proof. repeat split; by vm_compute. Qed.

Example reset_clears :
  match replace_uuids (state_of (lit "[") 2 [])
          (lit "Hello [550e8400-e29b-41d4-a716-446655440000] world") with
  | Returned (_, _, self) =>
      length (uuid_mapping self) = 1%nat ∧ counter self = 1 ∧
      uuid_mapping (reset self) = [] ∧ counter (reset self) = 0
  | Raised _ => False
  end.
Proof. by vm_compute. Qed.

Example restore_output_basic :
  restore_output (lit "Result for [00]")
    [(lit "550e8400-e29b-41d4-a716-446655440000", lit "00")] (lit "[") 2
  = Returned (lit "Result for [550e8400-e29b-41d4-a716-446655440000]").
Proof. by vm_compute. Qed.

Example restore_output_unmapped :
  restore_output (lit "Result [99]")
    [(lit "550e8400-e29b-41d4-a716-446655440000", lit "00")] (lit "[") 2
  = Returned (lit "Result [99]").
Proof. by vm_compute. Qed.

Example restore_output_empty_mapping :
  restore_output (lit "Result [00]") [] (lit "[") 2 = Returned (lit "Result [00]").
Proof. by vm_compute. Qed.

(** Two messages that share an identifier; the second one is the same
    object twice in the list. *)
Example process_messages_shared :
  match process_messages
          (<[1%positive :=
               <[lit "role" := VStr (lit "user")]>
                 (<[lit "content" :=
                      VStr (lit "UUID1: [550e8400-e29b-41d4-a716-446655440000] UUID2: [6ba7b810-9dad-11d1-80b4-00c04fd430c8]")]> ∅)]>
             (<[2%positive :=
                  <[lit "role" := VStr (lit "assistant")]>
                    (<[lit "content" :=
                         VStr (lit "Got UUID: [550e8400-e29b-41d4-a716-446655440000]")]> ∅)]> ∅))
          [1%positive; 2%positive; 2%positive] (lit "[") 2 with
  | Returned (h', outs, M) =>
      ((λ l, (h' !!! l) !! lit "content") <$> outs)
      = [Some (VStr (lit "UUID1: [00] UUID2: [01]"));
         Some (VStr (lit "Got UUID: [00]"));
         Some (VStr (lit "Got UUID: [00]"))] ∧
      ((λ l, (h' !!! l) !! lit "role") <$> outs)
      = [Some (VStr (lit "user")); Some (VStr (lit "assistant")); Some (VStr (lit "assistant"))] ∧
      (h' !!! 2%positive) !! lit "content"
      = Some (VStr (lit "Got UUID: [550e8400-e29b-41d4-a716-446655440000]")) ∧
      M = [(lit "550e8400-e29b-41d4-a716-446655440000", lit "00");
           (lit "6ba7b810-9dad-11d1-80b4-00c04fd430c8", lit "01")]
  | Raised _ => False
  end.
Proof. by vm_compute. Qed.

Example process_messages_non_string :
  match process_messages
          (<[1%positive :=
               <[lit "content" := VList [VStr (lit "not"); VStr (lit "a"); VStr (lit "string")]]> ∅]>
             (<[2%positive := <[lit "role" := VStr (lit "system")]> ∅]> ∅))
          [1%positive; 2%positive] (lit "[") 2 with
  | Returned (h', outs, M) =>
      ((λ l, h' !!! l) <$> outs)
      = [<[lit "content" := VList [VStr (lit "not"); VStr (lit "a"); VStr (lit "string")]]> ∅;
         <[lit "role" := VStr (lit "system")]> ∅] ∧
      M = []
  | Raised _ => False
  end.
Proof. by vm_compute. Qed.

(** A prompt with a two-digit span of its own does not come back: the span
    is taken for a placeholder. *)
Example restore_output_own_digits :
  clean_prompt (lit "[00] [550e8400-e29b-41d4-a716-446655440000]") (lit "[") 2
  = Returned (lit "[00] [00]", [(lit "550e8400-e29b-41d4-a716-446655440000", lit "00")]) ∧
  restore_output (lit "[00] [00]")
    [(lit "550e8400-e29b-41d4-a716-446655440000", lit "00")] (lit "[") 2
  = Returned (lit "[550e8400-e29b-41d4-a716-446655440000] [550e8400-e29b-41d4-a716-446655440000]").
Proof. split; vm_compute; reflexivity. Qed.
